(** * CPU scheduling simulator: the six dispatch policies and the two
      metrics calculators of [cpu_scheduler_simulation_v2.py].

    Python integers are unbounded, so times, bursts and priorities are [Z].
    Dictionaries are [gmap string _]; the [while] loops of the simulation are
    run by a fuelled iterator whose body is the loop body of the source. *)

From Stdlib Require Import ZArith QArith Lia.
From stdpp Require Import gmap strings list fin_maps sorting.

Local Open Scope Z_scope.

(** ** Data model *)

(** [Process = Tuple[str, int, int, int]]: (pid, arrival, burst, priority). *)
Record Process := mkProcess {
  pid : string;
  arrival : Z;
  burst : Z;
  priority : Z
}.

(** One entry of a schedule: (pid, start_time, end_time). *)
Record Segment := mkSegment {
  seg_pid : string;
  seg_start : Z;
  seg_end : Z
}.

Abbreviation Timeline := (list Segment).

(** The working tuple of the preemptive policies:
    (pid, arrival, remaining, original_burst, priority). *)
Record Job := mkJob {
  job_pid : string;
  job_arrival : Z;
  job_remaining : Z;
  job_original_burst : Z;
  job_priority : Z
}.

(** Exceptions the modelled code can raise. *)
Inductive exn :=
| KeyError (key : string)
| IndexError
| ValueError
| UnboundLocalError.

(** Result of running a piece of the program: a value, a raised exception, or
    the iteration budget of the model exhausted before the loop ended. *)
Inductive outcome (A : Type) :=
| Ok (a : A)
| Raise (e : exn)
| OutOfFuel.
Arguments Ok {A} a.
Arguments Raise {A} e.
Arguments OutOfFuel {A}.

Definition bind {A B} (m : outcome A) (k : A → outcome B) : outcome B :=
  match m with
  | Ok a => k a
  | Raise e => Raise e
  | OutOfFuel => OutOfFuel
  end.

Definition of_option {A} (o : option A) : outcome A :=
  match o with
  | Some a => Ok a
  | None => OutOfFuel
  end.

(** ** Python building blocks *)

(** [sorted(l, key=...)] and [l.sort(key=...)] are stable; a stable sort is
    determined by the order on keys, so insertion from the right, placing an
    element before the first one whose key is not smaller, computes it. *)
Section Sorting.
Context {A : Type} (le : A → A → bool).

Fixpoint insert_sorted (x : A) (l : list A) : list A :=
  match l with
  | [] => [x]
  | y :: l' => if le x y then x :: l else y :: insert_sorted x l'
  end.

Definition sorted_by (l : list A) : list A := foldr insert_sorted [] l.
End Sorting.

Definition by_key {A} (key : A → Z) (x y : A) : bool := key x <=? key y.

(** Order on the key [(x[3], x[1])] of [priority_scheduling]. *)
Definition by_priority_arrival (x y : Process) : bool :=
  (priority x <? priority y) ||
  ((priority x =? priority y) && (arrival x <=? arrival y)).

(** [min(...)] over a possibly empty sequence of integers. *)
Definition min_list (l : list Z) : option Z :=
  foldr (λ a acc, Some (match acc with Some m => Z.min a m | None => a end)) None l.

Definition sumZ {A} (f : A → Z) (l : list A) : Z :=
  foldr (λ x acc, f x + acc) 0 l.

(** [while cond: body], run for at most [fuel] iterations; the result is the
    state in which the condition fails. *)
Fixpoint while {S : Type} (cond : S → bool) (body : S → S) (fuel : nat) (s : S)
  : option S :=
  match fuel with
  | O => None
  | Datatypes.S n => if cond s then while cond body n (body s) else Some s
  end.

(** Truth value of a list: non-empty. *)
Definition truthy {A} (l : list A) : bool :=
  match l with [] => false | _ :: _ => true end.

(** [while processes and processes[0][1] <= current_time:
       ready_queue.append(processes.pop(0))] *)
Fixpoint take_arrived {A} (arr : A → Z) (current_time : Z) (processes ready_queue : list A)
  : list A * list A :=
  match processes with
  | p :: rest =>
      if arr p <=? current_time
      then take_arrived arr current_time rest (ready_queue ++ [p])
      else (processes, ready_queue)
  | [] => ([], ready_queue)
  end.

(** ** The scheduling functions *)

(** The [for] loop shared by [fcfs_scheduling] and [priority_scheduling]. *)
Fixpoint dispatch_in_order (current_time : Z) (processes : list Process) : Timeline :=
  match processes with
  | [] => []
  | p :: rest =>
      let start_time := Z.max current_time (arrival p) in
      let end_time := start_time + burst p in
      mkSegment (pid p) start_time end_time :: dispatch_in_order end_time rest
  end.

Definition fcfs_scheduling (processes : list Process) : Timeline :=
  dispatch_in_order 0 (sorted_by (by_key arrival) processes).

Definition priority_scheduling (processes : list Process) : Timeline :=
  dispatch_in_order 0 (sorted_by by_priority_arrival processes).

(** State of the loop of [sjn_scheduling]. *)
Record SjnState := mkSjn {
  sjn_processes : list Process;
  sjn_ready : list Process;
  sjn_time : Z;
  sjn_schedule : Timeline
}.

(** [while processes or ready_queue] *)
Definition sjn_cond (s : SjnState) : bool :=
  truthy (sjn_processes s) || truthy (sjn_ready s).

Definition sjn_body (s : SjnState) : SjnState :=
  let current_time := sjn_time s in
  let '(processes, ready_queue) :=
    take_arrived arrival current_time (sjn_processes s) (sjn_ready s) in
  (* [if ready_queue:] a sorted queue is empty exactly when the queue is *)
  match sorted_by (by_key burst) ready_queue with
  | p :: ready_queue' =>
      let start_time := current_time in
      let end_time := start_time + burst p in
      mkSjn processes ready_queue' end_time
        (sjn_schedule s ++ [mkSegment (pid p) start_time end_time])
  | [] =>
      let current_time' :=
        match processes with
        | p :: _ => arrival p
        | [] => current_time + 1
        end in
      mkSjn processes ready_queue current_time' (sjn_schedule s)
  end.

Definition sjn_scheduling (fuel : nat) (processes : list Process) : option Timeline :=
  sjn_schedule <$> while sjn_cond sjn_body fuel (mkSjn processes [] 0 []).

(** State of the loop of the two preemptive policies. *)
Record PreState := mkPre {
  pre_processes : list Job;
  pre_ready : list Job;
  pre_active : option Job;
  pre_time : Z;
  pre_schedule : Timeline
}.

(** [min((p[1] for p in processes if p[1] > current_time), default=inf)];
    [None] stands for [float('inf')]. *)
Definition next_arrival (processes : list Job) (current_time : Z) : option Z :=
  min_list (job_arrival <$> filter (λ p, current_time < job_arrival p) processes).

(** [min(1, remaining, max(1, next_arrival - current_time))]. *)
Definition time_slice_of (remaining : Z) (next : option Z) (current_time : Z) : Z :=
  match next with
  | Some na => Z.min 1 (Z.min remaining (Z.max 1 (na - current_time)))
  | None => Z.min 1 remaining
  end.

(** The tuple [(pid, arrival, remaining, original_burst, priority)] rebuilt with
    the updated remaining time. *)
Definition with_remaining (j : Job) (remaining : Z) : Job :=
  mkJob (job_pid j) (job_arrival j) remaining (job_original_burst j) (job_priority j).

(** [while processes or ready_queue or active_process] *)
Definition pre_cond (s : PreState) : bool :=
  truthy (pre_processes s) || truthy (pre_ready s) || bool_decide (is_Some (pre_active s)).

(** [if not active_process and ready_queue: ready_queue.sort(key);
       active_process = ready_queue.pop(0)] *)
Definition select_active (key : Job → Z) (active_process : option Job)
    (ready_queue : list Job) : option Job * list Job :=
  match active_process, sorted_by (by_key key) ready_queue with
  | None, j :: ready_queue' => (Some j, ready_queue')
  | a, _ => (a, ready_queue)
  end.

(** The branch [if active_process:] of the loop: run [j] for one time slice,
    take in the processes that arrived meanwhile and decide who runs next. *)
Definition run_slice (key : Job → Z) (j : Job) (processes ready_queue : list Job)
    (current_time : Z) (schedule : Timeline) : PreState :=
  let start_time := current_time in
  let time_slice :=
    time_slice_of (job_remaining j) (next_arrival processes current_time)
      current_time in
  let current_time := current_time + time_slice in
  let remaining := job_remaining j - time_slice in
  let schedule := schedule ++ [mkSegment (job_pid j) start_time current_time] in
  let j' := with_remaining j remaining in
  (* [elif remaining == 0: None / else: the updated tuple] *)
  let carry_on := if remaining =? 0 then None else Some j' in
  match filter (λ p, job_arrival p ≤ current_time) processes with
  | (_ :: _) as new_arrivals =>
      let ready_queue := ready_queue ++ new_arrivals in
      let processes := filter (λ p, current_time < job_arrival p) processes in
      match sorted_by (by_key key) ready_queue with
      | r :: ready_queue' =>
          if key r <? key j'
          then mkPre processes (ready_queue' ++ [j']) (Some r) current_time schedule
          else mkPre processes (r :: ready_queue') carry_on current_time schedule
      | [] => mkPre processes [] carry_on current_time schedule
      end
  | [] => mkPre processes ready_queue carry_on current_time schedule
  end.

(** The body shared by [sjn_preemptive_scheduling] ([key] is [x[2]], the
    remaining time) and [priority_preemptive_scheduling] ([key] is [x[4]]). *)
Definition preemptive_body (key : Job → Z) (s : PreState) : PreState :=
  let current_time := pre_time s in
  let '(processes, ready_queue) :=
    take_arrived job_arrival current_time (pre_processes s) (pre_ready s) in
  let '(active_process, ready_queue) :=
    select_active key (pre_active s) ready_queue in
  match active_process with
  | Some j => run_slice key j processes ready_queue current_time (pre_schedule s)
  | None => mkPre processes ready_queue None (current_time + 1) (pre_schedule s)
  end.

Definition to_job (p : Process) : Job :=
  mkJob (pid p) (arrival p) (burst p) (burst p) (priority p).

Definition preemptive_scheduling (key : Job → Z) (fuel : nat) (processes : list Process)
  : outcome Timeline :=
  let jobs := to_job <$> processes in
  match min_list (job_arrival <$> jobs) with
  | None => Raise ValueError
  | Some current_time =>
      of_option (pre_schedule <$>
                 while pre_cond (preemptive_body key) fuel
                   (mkPre jobs [] None current_time []))
  end.

Definition sjn_preemptive_scheduling : nat → list Process → outcome Timeline :=
  preemptive_scheduling job_remaining.

Definition priority_preemptive_scheduling : nat → list Process → outcome Timeline :=
  preemptive_scheduling job_priority.

(** State of the loop of [round_robin_scheduling]. *)
Record RRState := mkRR {
  rr_queue : list Process;
  rr_time : Z;
  rr_schedule : Timeline
}.

(** [while queue] *)
Definition rr_cond (s : RRState) : bool := truthy (rr_queue s).

Definition rr_body (quantum : Z) (s : RRState) : RRState :=
  match rr_queue s with
  | [] => s (* not reached: the loop condition holds *)
  | p :: queue =>
      let start_time := Z.max (rr_time s) (arrival p) in
      let time_slice := Z.min quantum (burst p) in
      let end_time := start_time + time_slice in
      let remaining_burst := burst p - time_slice in
      let queue' :=
        if 0 <? remaining_burst
        then queue ++ [mkProcess (pid p) (arrival p) remaining_burst (priority p)]
        else queue in
      mkRR queue' end_time
        (rr_schedule s ++ [mkSegment (pid p) start_time end_time])
  end.

Definition round_robin_scheduling (fuel : nat) (processes : list Process) (quantum : Z)
  : option Timeline :=
  rr_schedule <$> while rr_cond (rr_body quantum) fuel (mkRR processes 0 []).

(** The reference case of the simulator's "Load Example". *)
Definition reference_case : list Process :=
  [ mkProcess "P1" 0 24 1; mkProcess "P2" 1 3 1; mkProcess "P3" 2 3 1 ].


(** ** The metrics calculators *)

(** [{p[0]: value(p) for p in processes}], built on top of [d0]: a later
    process with the same pid overwrites an earlier one. *)
Definition dict_of {V} (val : Process → V) (d0 : gmap string V) (ps : list Process)
  : gmap string V :=
  foldl (λ d p, <[pid p := val p]> d) d0 ps.

(** The six values returned by both calculators. *)
Record Metrics := mkMetrics {
  waiting_times : gmap string Z;
  avg_waiting : Q;
  turnaround_times : gmap string Z;
  avg_turnaround : Q;
  response_times : gmap string Z;
  avg_response : Q
}.

(** [d[k]] *)
Definition getitem {V} (d : gmap string V) (k : string) : outcome V :=
  match d !! k with
  | Some v => Ok v
  | None => Raise (KeyError k)
  end.

(** Keys of a dictionary built by inserting [l] from left to right, in the
    order Python iterates over them (first insertion). *)
Definition keys_in_order (l : list string) : list string :=
  foldl (λ acc k, if decide (k ∈ acc) then acc else acc ++ [k]) [] l.

(** [{k: value(k) for k in keys if cond(k)}]; the first failing [value(k)]
    aborts the comprehension. *)
Fixpoint dict_comprehension (keys : list string) (cond : string → bool)
    (value : string → outcome Z) : outcome (gmap string Z) :=
  match keys with
  | [] => Ok ∅
  | k :: keys' =>
      if cond k
      then bind (value k) (λ v,
           bind (dict_comprehension keys' cond value) (λ d,
           Ok (<[k := v]> d)))
      else dict_comprehension keys' cond value
  end.

(** [sum(d.values()) / len(d) if d else 0]; true division of integers, kept
    exact as a rational. *)
Definition average (d : gmap string Z) : Q :=
  if decide (d = ∅) then 0%Q
  else
    let total := map_fold (λ _ v acc, v + acc) 0 d in
    let count := Z.of_nat (size d) in
    (inject_Z total / inject_Z count)%Q.

(** The loop of [calculate_waiting_time] over the schedule; the state is
    [(first_starts, completion_times)]. *)
Definition contiguous_step (acc : gmap string Z * gmap string Z) (seg : Segment)
  : gmap string Z * gmap string Z :=
  let '(first_starts, completion_times) := acc in
  (match first_starts !! seg_pid seg with
   | None => <[seg_pid seg := seg_start seg]> first_starts
   | Some _ => first_starts
   end,
   <[seg_pid seg := seg_end seg]> completion_times).

(** Metrics for the non-preemptive policies (contiguous runs). *)
Definition calculate_waiting_time (schedule : Timeline) (processes : list Process)
  : outcome Metrics :=
  let process_dict : gmap string Z := dict_of arrival ∅ processes in
  let keys := keys_in_order (pid <$> processes) in
  let '(first_starts, completion_times) := foldl contiguous_step (∅, ∅) schedule in
  bind (dict_comprehension keys (λ k, bool_decide (is_Some (first_starts !! k)))
          (λ k, bind (getitem first_starts k) (λ fs,
                bind (getitem process_dict k) (λ a, Ok (Z.max 0 (fs - a))))))
    (λ waiting_times,
  bind (dict_comprehension keys (λ _, true)
          (λ k, bind (getitem completion_times k) (λ c,
                bind (getitem process_dict k) (λ a, Ok (c - a)))))
    (λ turnaround_times,
  bind (dict_comprehension keys (λ _, true)
          (λ k, bind (getitem first_starts k) (λ fs,
                bind (getitem process_dict k) (λ a, Ok (fs - a)))))
    (λ response_times,
  Ok (mkMetrics waiting_times (average waiting_times)
        turnaround_times (average turnaround_times)
        response_times (average response_times))))).

(** State of the loop of [calculate_preemptive_waiting_time]. *)
Record FragAcc := mkFragAcc {
  acc_waiting : gmap string Z;
  acc_first_starts : gmap string Z;
  acc_completion : gmap string Z;
  acc_last_end : gmap string Z
}.

(** One iteration of that loop, for the segment [(pid, start, end)]. *)
Definition fragmented_step (process_dict : gmap string (Z * Z)) (acc : FragAcc)
    (seg : Segment) : FragAcc :=
  let pid := seg_pid seg in
  let first_starts :=
    match acc_first_starts acc !! pid with
    | None => <[pid := seg_start seg]> (acc_first_starts acc)
    | Some _ => acc_first_starts acc
    end in
  let '(waiting_times, last_end) :=
    match process_dict !! pid with
    | Some (arrival, _) =>
        (match acc_waiting acc !! pid with
         | None => <[pid := Z.max 0 (seg_start seg - arrival)]> (acc_waiting acc)
         | Some w =>
             match acc_last_end acc !! pid with
             | Some e => <[pid := w + (seg_start seg - e)]> (acc_waiting acc)
             | None => acc_waiting acc
             end
         end,
         <[pid := seg_end seg]> (acc_last_end acc))
    | None => (acc_waiting acc, acc_last_end acc)
    end in
  mkFragAcc waiting_times first_starts
    (<[pid := seg_end seg]> (acc_completion acc)) last_end.

(** Metrics for the preemptive policies (fragmented runs). *)
Definition calculate_preemptive_waiting_time (schedule : Timeline)
    (processes : list Process) : outcome Metrics :=
  let process_dict : gmap string (Z * Z) :=
    dict_of (λ p, (arrival p, burst p)) ∅ processes in
  let keys := keys_in_order (pid <$> processes) in
  let acc := foldl (fragmented_step process_dict) (mkFragAcc ∅ ∅ ∅ ∅) schedule in
  let waiting_times := acc_waiting acc in
  bind (dict_comprehension keys (λ _, true)
          (λ k, bind (getitem (acc_completion acc) k) (λ c,
                bind (getitem process_dict k) (λ a, Ok (c - a.1)))))
    (λ turnaround_times,
  bind (dict_comprehension keys (λ _, true)
          (λ k, bind (getitem (acc_first_starts acc) k) (λ fs,
                bind (getitem process_dict k) (λ a, Ok (fs - a.1)))))
    (λ response_times,
  Ok (mkMetrics waiting_times (average waiting_times)
        turnaround_times (average turnaround_times)
        response_times (average response_times)))).

(** ** The simulation driver *)

(** What [run_simulation] returns: the schedule, the six metrics, CPU
    utilisation and throughput. *)
Record SimResult := mkSimResult {
  sim_schedule : Timeline;
  sim_metrics : Metrics;
  sim_cpu_util : Q;
  sim_throughput : Q
}.

(** [schedule = ...; wt, awt, tt, att, rt, art = calc(schedule, processes)] *)
Definition with_metrics (calc : Timeline → list Process → outcome Metrics)
    (processes : list Process) (schedule : outcome Timeline)
  : outcome (Timeline * Metrics) :=
  bind schedule (λ tl, bind (calc tl processes) (λ m, Ok (tl, m))).

(** [run_simulation(processes, algo, quantum)]; an [algo] outside the six names
    leaves [schedule] unbound. *)
Definition run_simulation (fuel : nat) (processes : list Process) (algo : string)
    (quantum : Z) : outcome SimResult :=
  bind
    (if String.eqb algo "FCFS" then
       with_metrics calculate_waiting_time processes
         (Ok (fcfs_scheduling processes))
     else if String.eqb algo "SJN" then
       with_metrics calculate_waiting_time processes
         (of_option (sjn_scheduling fuel processes))
     else if String.eqb algo "SJN with Preemption" then
       with_metrics calculate_preemptive_waiting_time processes
         (sjn_preemptive_scheduling fuel processes)
     else if String.eqb algo "Round Robin" then
       with_metrics calculate_preemptive_waiting_time processes
         (of_option (round_robin_scheduling fuel processes quantum))
     else if String.eqb algo "Priority" then
       with_metrics calculate_waiting_time processes
         (Ok (priority_scheduling processes))
     else if String.eqb algo "Priority with Preemption" then
       with_metrics calculate_preemptive_waiting_time processes
         (priority_preemptive_scheduling fuel processes)
     else Raise UnboundLocalError)
    (λ '(schedule, metrics),
  bind (match last schedule with Some seg => Ok seg | None => Raise IndexError end)
    (λ last_segment,
  bind (match min_list (arrival <$> processes) with
        | Some a => Ok a
        | None => Raise ValueError
        end)
    (λ first_arrival,
  let total_time := seg_end last_segment - first_arrival in
  let busy_time := sumZ burst processes in
  let cpu_util :=
    if 0 <? total_time
    then (inject_Z busy_time / inject_Z total_time * 100)%Q else 0%Q in
  let throughput :=
    if 0 <? total_time
    then (inject_Z (Z.of_nat (length processes)) / inject_Z total_time)%Q
    else 0%Q in
  Ok (mkSimResult schedule metrics cpu_util throughput)))).

(** ** Properties of timelines *)

(** Sum of [f] over the elements of [l] that carry the name [id]. *)
Definition sum_for {A} (name : A → string) (f : A → Z) (id : string) (l : list A) : Z :=
  sumZ f (filter (λ x, name x = id) l).

Definition duration (s : Segment) : Z := seg_end s - seg_start s.

(** Total time the timeline gives to process [id]. *)
Definition exec_time (id : string) (tl : Timeline) : Z := sum_for seg_pid duration id tl.

(** Total burst of the processes named [id] (one process when ids are unique). *)
Definition total_burst (id : string) (ps : list Process) : Z := sum_for pid burst id ps.

Definition remaining_of (id : string) (js : list Job) : Z :=
  sum_for job_pid job_remaining id js.

(** Segments follow each other in time, none starting before [lo]. *)
Fixpoint chain (lo : Z) (tl : Timeline) : Prop :=
  match tl with
  | [] => True
  | s :: tl' => lo ≤ seg_start s ∧ seg_start s ≤ seg_end s ∧ chain (seg_end s) tl'
  end.

(** Two segments overlap when some instant lies in both half-open intervals. *)
Definition overlap (s1 s2 : Segment) : Prop :=
  ∃ t, (seg_start s1 ≤ t < seg_end s1) ∧ (seg_start s2 ≤ t < seg_end s2).

Definition non_overlapping (tl : Timeline) : Prop :=
  ∀ (i j : nat) s1 s2,
    i ≠ j → tl !! i = Some s1 → tl !! j = Some s2 → ¬ overlap s1 s2.

(** Every segment starts at or after the arrival of the process it names. *)
Definition starts_after_arrival (ps : list Process) (tl : Timeline) : Prop :=
  ∀ s p, s ∈ tl → p ∈ ps → pid p = seg_pid s → arrival p ≤ seg_start s.

(** Validity of a ProcessSet: non-empty, unique ids, arrival >= 0, burst >= 1,
    priority >= 1. *)
Definition valid_process (p : Process) : Prop :=
  0 ≤ arrival p ∧ 1 ≤ burst p ∧ 1 ≤ priority p.

Definition valid_process_set (ps : list Process) : Prop :=
  ps ≠ [] ∧ NoDup (pid <$> ps) ∧ Forall valid_process ps.

#[global] Instance valid_process_dec p : Decision (valid_process p).
Proof. unfold valid_process. apply _. Defined.

#[global] Instance valid_process_set_dec ps : Decision (valid_process_set ps).
Proof. unfold valid_process_set. apply _. Defined.

(** The six policies. *)
Inductive Policy :=
| FCFS | SJN | SJN_Preemptive | RoundRobin | PriorityNP | PriorityPreemptive.

Definition run_policy (pol : Policy) (fuel : nat) (processes : list Process) (quantum : Z)
  : outcome Timeline :=
  match pol with
  | FCFS => Ok (fcfs_scheduling processes)
  | SJN => of_option (sjn_scheduling fuel processes)
  | SJN_Preemptive => sjn_preemptive_scheduling fuel processes
  | RoundRobin => of_option (round_robin_scheduling fuel processes quantum)
  | PriorityNP => Ok (priority_scheduling processes)
  | PriorityPreemptive => priority_preemptive_scheduling fuel processes
  end.

(** [run] returns [a]: it does so with every large enough iteration budget. *)
Definition returns {A} (run : nat → outcome A) (a : A) : Prop :=
  ∃ n : nat, ∀ fuel : nat, (n ≤ fuel)%nat → run fuel = Ok a.

(** ** Further properties *)

(** What every policy is shown to deliver for the set [ps] it was given. *)
Definition timeline_spec (ps : list Process) (tl : Timeline) : Prop :=
  (∀ id, exec_time id tl = total_burst id ps) ∧
  chain 0 tl ∧
  (∀ s, s ∈ tl → ∃ p, p ∈ ps ∧ pid p = seg_pid s ∧ arrival p ≤ seg_start s).

(** A segment followed later by a segment of the same process lasts [quantum]. *)
Definition full_slices (quantum : Z) (tl : Timeline) : Prop :=
  ∀ l1 x l2, tl = l1 ++ x :: l2 → seg_pid x ∈ (seg_pid <$> l2) → duration x = quantum.

(** The consecutive slices of length [q] (the last one possibly shorter) that
    tile [[a, a + b)]: slice [k] is [[a + k q, a + min ((k + 1) q) b)], for
    [k] below the ceiling of [b / q]. *)
Definition slices (id : string) (a b q : Z) : Timeline :=
  (λ k : nat,
     mkSegment id (a + Z.of_nat k * q) (a + Z.min ((Z.of_nat k + 1) * q) b))
  <$> seq 0 (Z.to_nat ((b + q - 1) / q)).

(** What each policy yields for the one-process set [(id, a, b, _)]. *)
Definition single_process_timeline (pol : Policy) (id : string) (a b quantum : Z)
  : Timeline :=
  match pol with
  | FCFS | SJN | PriorityNP => [mkSegment id a (a + b)]
  | RoundRobin => slices id a b quantum
  | SJN_Preemptive | PriorityPreemptive => slices id a b 1
  end.

(** The report with no entries and zero averages. *)
Definition zero_metrics : Metrics := mkMetrics ∅ 0 ∅ 0 ∅ 0.

(** The validity check of the spec, on a ProcessSet and a quantum. *)
Definition valid_input (ps : list Process) (quantum : Z) : Prop :=
  valid_process_set ps ∧ 1 ≤ quantum.

(** The segments of process [id], in timeline order. *)
Definition segments_of (id : string) (tl : Timeline) : Timeline :=
  filter (λ s, seg_pid s = id) tl.

Definition first_segment (id : string) (tl : Timeline) : option Segment :=
  head (segments_of id tl).

Definition last_segment (id : string) (tl : Timeline) : option Segment :=
  last (segments_of id tl).

(** The segments of each process appear in increasing time order and do not
    overlap: a later segment of the same process starts at or after the end of
    an earlier one. *)
Fixpoint per_process_ordered (tl : Timeline) : Prop :=
  match tl with
  | [] => True
  | s :: rest =>
      Forall (λ s', seg_pid s' = seg_pid s → seg_end s ≤ seg_start s') rest ∧
      per_process_ordered rest
  end.

#[global] Instance per_process_ordered_dec tl : Decision (per_process_ordered tl).
Proof. induction tl as [|s rest IH]; simpl; apply _. Defined.

(** The first segment of every process starts at or after its arrival. *)
Definition first_start_after_arrival (ps : list Process) (tl : Timeline) : Prop :=
  Forall (λ p, ∀ s, first_segment (pid p) tl = Some s → arrival p ≤ seg_start s) ps.

(** Every process of the set has a segment in the timeline. *)
Definition covers (ps : list Process) (tl : Timeline) : Prop :=
  Forall (λ p, pid p ∈ (seg_pid <$> tl)) ps.

(** The pending list of SJN is in order of arrival. *)
Definition arrival_sorted (ps : list Process) : Prop :=
  StronglySorted (λ x y, arrival x ≤ arrival y) ps.

(** ** Loop invariants and measures *)

(** Round Robin: the queue holds what is left of every process. *)
Definition rr_inv (ps : list Process) (s : RRState) : Prop :=
  Forall (λ p, 1 ≤ burst p) (rr_queue s) ∧
  (∀ id, exec_time id (rr_schedule s) + total_burst id (rr_queue s)
         = total_burst id ps) ∧
  chain 0 (rr_schedule s) ∧
  Forall (λ x, seg_end x ≤ rr_time s) (rr_schedule s) ∧
  0 ≤ rr_time s ∧
  (∀ x, x ∈ rr_schedule s →
        ∃ p, p ∈ ps ∧ pid p = seg_pid x ∧ arrival p ≤ seg_start x) ∧
  (∀ p', p' ∈ rr_queue s → ∃ p, p ∈ ps ∧ pid p = pid p' ∧ arrival p = arrival p').

Definition rr_measure (s : RRState) : nat := Z.to_nat (sumZ burst (rr_queue s)).

(** Round Robin: a slice shorter than the quantum is the last of its process. *)
Definition rr_slice_inv (quantum : Z) (s : RRState) : Prop :=
  NoDup (pid <$> rr_queue s) ∧
  Forall (λ p, 1 ≤ burst p) (rr_queue s) ∧
  Forall (λ x, duration x ≤ quantum) (rr_schedule s) ∧
  (∀ l1 x l2, rr_schedule s = l1 ++ x :: l2 → duration x ≠ quantum →
     (seg_pid x ∉ (seg_pid <$> l2)) ∧ (seg_pid x ∉ (pid <$> rr_queue s))).

(** Shortest Job Next. *)
Definition sjn_inv (ps : list Process) (s : SjnState) : Prop :=
  (∀ p, p ∈ sjn_processes s ++ sjn_ready s → p ∈ ps) ∧
  (∀ id, exec_time id (sjn_schedule s) + total_burst id (sjn_processes s)
         + total_burst id (sjn_ready s) = total_burst id ps) ∧
  chain 0 (sjn_schedule s) ∧
  Forall (λ x, seg_end x ≤ sjn_time s) (sjn_schedule s) ∧
  0 ≤ sjn_time s ∧
  (∀ x, x ∈ sjn_schedule s →
        ∃ p, p ∈ ps ∧ pid p = seg_pid x ∧ arrival p ≤ seg_start x) ∧
  Forall (λ p, arrival p ≤ sjn_time s) (sjn_ready s).

Definition sjn_measure (s : SjnState) : nat :=
  3 * length (sjn_processes s) + 2 * length (sjn_ready s) +
  match sjn_ready s, sjn_processes s with
  | [], p :: _ => if sjn_time s <? arrival p then 1 else 0
  | _, _ => 0
  end.

(** The preemptive policies. *)
Definition jobs_of (s : PreState) : list Job :=
  pre_processes s ++ pre_ready s ++ option_list (pre_active s).

Definition pre_inv (ps : list Process) (s : PreState) : Prop :=
  Forall (λ j, 0 ≤ job_remaining j) (jobs_of s) ∧
  (∀ id, exec_time id (pre_schedule s) + remaining_of id (jobs_of s)
         = total_burst id ps) ∧
  chain 0 (pre_schedule s) ∧
  Forall (λ x, seg_end x ≤ pre_time s) (pre_schedule s) ∧
  0 ≤ pre_time s ∧
  (∀ x, x ∈ pre_schedule s →
        ∃ p, p ∈ ps ∧ pid p = seg_pid x ∧ arrival p ≤ seg_start x) ∧
  (∀ j, j ∈ jobs_of s →
        ∃ p, p ∈ ps ∧ pid p = job_pid j ∧ arrival p = job_arrival j) ∧
  Forall (λ j, job_arrival j ≤ pre_time s)
    (pre_ready s ++ option_list (pre_active s)).

(** Time a job that has not arrived yet still has to wait. *)
Definition idle_time (t : Z) (j : Job) : Z := Z.max 0 (job_arrival j - t).

Definition pre_measure (s : PreState) : nat :=
  Z.to_nat (sumZ job_remaining (jobs_of s)
            + sumZ (idle_time (pre_time s)) (pre_processes s)
            + 2 * Z.of_nat (length (pre_processes s))
            + Z.of_nat (length (pre_ready s ++ option_list (pre_active s)))).

(** ** Further notions used to describe the code *)

(** Segment [s] serves process [p] in one piece: it carries its id, starts at
    or after its arrival and lasts its whole burst. *)
Definition serves (p : Process) (s : Segment) : Prop :=
  seg_pid s = pid p ∧ arrival p ≤ seg_start s ∧ seg_end s = seg_start s + burst p.

(** The order of the key [(priority, arrival)]. *)
Definition priority_then_arrival (p q : Process) : Prop :=
  priority p < priority q ∨ (priority p = priority q ∧ arrival p ≤ arrival q).

(** What a timeline gives, segment by segment, and what a set asks for. *)
Definition served (tl : Timeline) : list (string * Z) :=
  (λ s, (seg_pid s, duration s)) <$> tl.

Definition demands (ps : list Process) : list (string * Z) :=
  (λ p, (pid p, burst p)) <$> ps.

(** Number of slices of length [q] needed for a burst [b]. *)
Definition ceil_div (b q : Z) : Z := (b + q - 1) / q.

(** [algorithm_options] of the user interface, by policy. *)
Definition policy_name (pol : Policy) : string :=
  match pol with
  | FCFS => "FCFS"
  | SJN => "SJN"
  | SJN_Preemptive => "SJN with Preemption"
  | RoundRobin => "Round Robin"
  | PriorityNP => "Priority"
  | PriorityPreemptive => "Priority with Preemption"
  end.

Definition algorithm_options : list string :=
  ["FCFS"; "SJN"; "SJN with Preemption"; "Round Robin"; "Priority";
   "Priority with Preemption"].

(** The policies that run a process to its end once it is dispatched. *)
Definition runs_to_completion (pol : Policy) : bool :=
  match pol with
  | FCFS | SJN | PriorityNP => true
  | SJN_Preemptive | RoundRobin | PriorityPreemptive => false
  end.

(** The calculator that [run_simulation] pairs with each policy. *)
Definition calculator_of (pol : Policy) : Timeline → list Process → outcome Metrics :=
  if runs_to_completion pol then calculate_waiting_time
  else calculate_preemptive_waiting_time.

(** [(busy_time / total_time) * 100 if total_time > 0 else 0] *)
Definition cpu_util_of (busy_time total_time : Z) : Q :=
  if 0 <? total_time then (inject_Z busy_time / inject_Z total_time * 100)%Q else 0%Q.

(** [len(processes) / total_time if total_time > 0 else 0] *)
Definition throughput_of (count total_time : Z) : Q :=
  if 0 <? total_time then (inject_Z count / inject_Z total_time)%Q else 0%Q.

(** The lines of [run_simulation] that follow the six branches. *)
Definition aggregate (processes : list Process) (sm : Timeline * Metrics)
  : outcome SimResult :=
  let '(schedule, metrics) := sm in
  bind (match last schedule with Some seg => Ok seg | None => Raise IndexError end)
    (λ last_segment,
  bind (match min_list (arrival <$> processes) with
        | Some a => Ok a
        | None => Raise ValueError
        end)
    (λ first_arrival,
  let total_time := seg_end last_segment - first_arrival in
  let busy_time := sumZ burst processes in
  Ok (mkSimResult schedule metrics (cpu_util_of busy_time total_time)
        (throughput_of (Z.of_nat (length processes)) total_time)))).

(** One column of the table of "Compare All": the three averages, the CPU
    utilisation and the throughput of one algorithm, before they are formatted
    with two decimals. *)
Record Comparison := mkComparison {
  cmp_avg_wait : Q;
  cmp_avg_turnaround : Q;
  cmp_avg_response : Q;
  cmp_cpu_util : Q;
  cmp_throughput : Q
}.

Definition comparison_of (r : SimResult) : Comparison :=
  mkComparison (avg_waiting (sim_metrics r)) (avg_turnaround (sim_metrics r))
    (avg_response (sim_metrics r)) (sim_cpu_util r) (sim_throughput r).

(** [for algo in algorithm_options: ... results[algo] = {...}]; an exception
    in one run ends the loop and no table is shown. *)
Definition compare_all (fuel : nat) (process_list : list Process) (quantum : Z)
  : outcome (gmap string Comparison) :=
  foldl (λ acc algo,
           bind acc (λ results,
           bind (run_simulation fuel process_list algo quantum) (λ r,
           Ok (<[algo := comparison_of r]> results))))
        (Ok ∅) algorithm_options.

(** ** Sample runs *)

Example sjn_reference_case :
  sjn_scheduling 4 reference_case
  = Some [mkSegment "P1" 0 24; mkSegment "P2" 24 27; mkSegment "P3" 27 30].
Proof. reflexivity. Qed.

Example round_robin_reference_case :
  round_robin_scheduling 17 reference_case 2
  = Some [mkSegment "P1" 0 2; mkSegment "P2" 2 4; mkSegment "P3" 4 6;
          mkSegment "P1" 6 8; mkSegment "P2" 8 9; mkSegment "P3" 9 10;
          mkSegment "P1" 10 12; mkSegment "P1" 12 14; mkSegment "P1" 14 16;
          mkSegment "P1" 16 18; mkSegment "P1" 18 20; mkSegment "P1" 20 22;
          mkSegment "P1" 22 24; mkSegment "P1" 24 26; mkSegment "P1" 26 28;
          mkSegment "P1" 28 30].
Proof. reflexivity. Qed.

(** SRTF emits one segment per time unit: P1 runs a unit, P2 preempts it. *)
Example sjn_preemptive_reference_case :
  take 5 <$> (match sjn_preemptive_scheduling 31 reference_case with
              | Ok tl => Some tl
              | _ => None
              end)
  = Some [mkSegment "P1" 0 1; mkSegment "P2" 1 2; mkSegment "P2" 2 3;
          mkSegment "P2" 3 4; mkSegment "P3" 4 5].
Proof. reflexivity. Qed.

(** A job preempted in the very step in which it finishes goes back to the
    queue with no time left and later gets a segment of length zero. *)
Example priority_preemptive_zero_length :
  priority_preemptive_scheduling 4 [mkProcess "A" 0 1 5; mkProcess "B" 1 1 1]
  = Ok [mkSegment "A" 0 1; mkSegment "B" 1 2; mkSegment "A" 2 2].
Proof. reflexivity. Qed.

(** The preemptive policies start from the earliest arrival; an empty set has
    none. *)
Example sjn_preemptive_empty fuel : sjn_preemptive_scheduling fuel [] = Raise ValueError.
Proof. reflexivity. Qed.

(** ** Generic facts *)

Section WhileFacts.
Context {S : Type} (cond : S → bool) (body : S → S).

Lemma while_mono n m s r :
  while cond body n s = Some r → (n ≤ m)%nat → while cond body m s = Some r.
Proof.
  revert m s. induction n as [|n IH]; intros m s H Hle; [discriminate|].
  destruct m as [|m]; [lia|]. simpl in *.
  destruct (cond s); [|done]. apply IH; [done|lia].
Qed.

(** A loop whose body keeps [Inv] and decreases the measure [mu] ends, with
    any budget above the measure, in a state that satisfies [Inv] and fails
    the loop condition. *)
Lemma while_total (Inv : S → Prop) (mu : S → nat) :
  (∀ s, Inv s → cond s = true → Inv (body s) ∧ (mu (body s) < mu s)%nat) →
  ∀ s, Inv s →
    ∃ r, Inv r ∧ cond r = false ∧
         ∀ fuel, (mu s < fuel)%nat → while cond body fuel s = Some r.
Proof.
  intros Hstep s.
  remember (mu s) as k eqn:Hk. revert s Hk.
  induction k as [k IH] using lt_wf_ind. intros s -> Hinv.
  destruct (cond s) eqn:Hc.
  - destruct (Hstep s Hinv Hc) as [Hinv' Hlt].
    destruct (IH _ Hlt (body s) eq_refl Hinv') as (r & Hr & Hcr & Hrun).
    exists r. split_and!; [done..|]. intros [|fuel] Hf; [lia|].
    simpl. rewrite Hc. apply Hrun. lia.
  - exists s. split_and!; [done..|].
    intros [|fuel] Hf; [lia|]. simpl. by rewrite Hc.
Qed.

(** Partial correctness: an invariant of the body holds of the final state. *)
Lemma while_invariant (Inv : S → Prop) :
  (∀ s, Inv s → cond s = true → Inv (body s)) →
  ∀ fuel s r, Inv s → while cond body fuel s = Some r → Inv r ∧ cond r = false.
Proof.
  intros Hstep fuel. induction fuel as [|fuel IH]; intros s r Hinv; [done|].
  simpl. destruct (cond s) eqn:Hc.
  - apply IH. by apply Hstep.
  - by intros [= <-].
Qed.
End WhileFacts.

Lemma returns_of_option {A} (run : nat → option A) a n :
  (∀ fuel, (n < fuel)%nat → run fuel = Some a) →
  returns (λ fuel, of_option (run fuel)) a.
Proof. intros H. exists (Datatypes.S n). intros fuel Hf. rewrite H; [done|lia]. Qed.

Lemma returns_inj {A} (run : nat → outcome A) a b :
  returns run a → returns run b → a = b.
Proof.
  intros [n Hn] [m Hm].
  specialize (Hn (n `max` m)%nat). specialize (Hm (n `max` m)%nat).
  rewrite Hn in Hm by lia. injection Hm; [done|lia].
Qed.

Section SumFacts.
Context {A : Type}.
Implicit Types (f : A → Z) (l : list A).

Lemma sumZ_app f l k : sumZ f (l ++ k) = sumZ f l + sumZ f k.
Proof. induction l as [|x l IH]; simpl; lia. Qed.

Lemma sumZ_perm f l k : l ≡ₚ k → sumZ f l = sumZ f k.
Proof. induction 1; simpl; lia. Qed.

Lemma sumZ_nonneg f l : Forall (λ x, 0 ≤ f x) l → 0 ≤ sumZ f l.
Proof. induction 1; simpl; lia. Qed.

Context (name : A → string).

Lemma sum_for_nil f id : sum_for name f id [] = 0.
Proof. done. Qed.

Lemma sum_for_cons f id x l :
  sum_for name f id (x :: l) =
  (if decide (name x = id) then f x else 0) + sum_for name f id l.
Proof. unfold sum_for. rewrite filter_cons. case_decide; simpl; lia. Qed.

Lemma sum_for_app f id l k :
  sum_for name f id (l ++ k) = sum_for name f id l + sum_for name f id k.
Proof. unfold sum_for. by rewrite filter_app, sumZ_app. Qed.

Lemma sum_for_perm f id l k : l ≡ₚ k → sum_for name f id l = sum_for name f id k.
Proof. intros H. unfold sum_for. apply sumZ_perm. by rewrite H. Qed.

Lemma sum_for_absent f id l : id ∉ name <$> l → sum_for name f id l = 0.
Proof.
  induction l as [|x l IH]; [done|]. rewrite fmap_cons, not_elem_of_cons.
  intros [Hne Hl]. rewrite sum_for_cons. case_decide; [congruence|]. by rewrite IH.
Qed.

Lemma sum_for_unique f x l :
  NoDup (name <$> l) → x ∈ l → sum_for name f (name x) l = f x.
Proof.
  induction l as [|y l IH]; intros Hnd Hx; [by apply elem_of_nil in Hx|].
  rewrite fmap_cons in Hnd. apply NoDup_cons in Hnd as [Hy Hnd].
  rewrite sum_for_cons. apply elem_of_cons in Hx as [->|Hx].
  - rewrite decide_True by done. rewrite sum_for_absent by done. lia.
  - rewrite decide_False; [rewrite IH by done; lia|].
    intros Heq. apply Hy. rewrite Heq. by apply list_elem_of_fmap_2.
Qed.
End SumFacts.

Section SortFacts.
Context {A : Type} (le : A → A → bool).

Lemma insert_sorted_perm x l : insert_sorted le x l ≡ₚ x :: l.
Proof.
  induction l as [|y l IH]; simpl; [done|].
  destruct (le x y); [done|]. rewrite IH. apply Permutation_swap.
Qed.

Lemma sorted_by_perm l : sorted_by le l ≡ₚ l.
Proof.
  induction l as [|x l IH]; simpl; [done|].
  by rewrite insert_sorted_perm, IH.
Qed.

Lemma sorted_by_nil_inv l : sorted_by le l = [] → l = [].
Proof.
  intros H. apply Permutation_nil_r. rewrite <- H. symmetry. apply sorted_by_perm.
Qed.
End SortFacts.

(** ** Timelines: ordering facts *)

Lemma chain_weaken lo lo' tl : lo' ≤ lo → chain lo tl → chain lo' tl.
Proof. destruct tl; simpl; [done|]. intros ? (? & ? & ?). repeat split; [lia|done..]. Qed.

Lemma chain_snoc lo tl x t :
  chain lo tl → Forall (λ y, seg_end y ≤ t) tl → lo ≤ t →
  t ≤ seg_start x → seg_start x ≤ seg_end x →
  chain lo (tl ++ [x]).
Proof.
  revert lo. induction tl as [|y tl IH]; intros lo Hc Hall Hlo Hx Hd; simpl in *.
  - repeat split; [lia|done].
  - destruct Hc as (? & ? & Hc). apply Forall_cons in Hall as [Hy Hall].
    repeat split; [done..|]. by apply IH.
Qed.

Lemma chain_ordered lo tl (i j : nat) s1 s2 :
  chain lo tl → (i < j)%nat → tl !! i = Some s1 → tl !! j = Some s2 →
  seg_end s1 ≤ seg_start s2.
Proof.
  revert lo i j. induction tl as [|y tl IH]; intros lo i j Hc Hij H1 H2; [done|].
  destruct Hc as (Hlo & Hy & Hc). destruct j as [|j]; [lia|]. simpl in H2.
  destruct i as [|i]; simpl in H1.
  - injection H1 as ->. clear IH Hij. revert j H2 Hc. generalize (seg_end s1) as e.
    induction tl as [|z tl IH']; intros e j H2 Hc; [done|].
    destruct Hc as (? & ? & Hc). destruct j as [|j]; simpl in H2.
    + injection H2 as ->. done.
    + eapply (IH' (seg_end z)) in H2; [lia|done].
  - eapply IH; [done| |done..]. lia.
Qed.

Lemma chain_non_overlapping lo tl : chain lo tl → non_overlapping tl.
Proof.
  intros Hc i j s1 s2 Hne H1 H2 (t & Ht1 & Ht2).
  destruct (decide (i < j)%nat) as [Hlt|Hge].
  - pose proof (chain_ordered _ _ _ _ _ _ Hc Hlt H1 H2). lia.
  - assert (j < i)%nat as Hlt by lia.
    pose proof (chain_ordered _ _ _ _ _ _ Hc Hlt H2 H1). lia.
Qed.

Lemma same_pid_same_process (ps : list Process) p p' :
  NoDup (pid <$> ps) → p ∈ ps → p' ∈ ps → pid p = pid p' → p = p'.
Proof.
  induction ps as [|x ps IH]; intros Hnd Hp Hp' Heq; [by apply elem_of_nil in Hp|].
  rewrite fmap_cons in Hnd. apply NoDup_cons in Hnd as [Hx Hnd].
  apply elem_of_cons in Hp as [->|Hp]; apply elem_of_cons in Hp' as [->|Hp'].
  - done.
  - exfalso. apply Hx. rewrite Heq. by apply list_elem_of_fmap_2.
  - exfalso. apply Hx. rewrite <- Heq. by apply list_elem_of_fmap_2.
  - by apply IH.
Qed.

Lemma timeline_spec_starts ps tl :
  NoDup (pid <$> ps) → timeline_spec ps tl → starts_after_arrival ps tl.
Proof.
  intros Hnd (_ & _ & H) s p Hs Hp Hpid.
  destruct (H s Hs) as (p' & Hp' & Hpid' & Harr).
  assert (p = p') as -> by (eapply same_pid_same_process; [done..|congruence]).
  done.
Qed.

(** ** FCFS and Priority: the dispatch loop *)

Lemma dispatch_exec id t ps :
  exec_time id (dispatch_in_order t ps) = total_burst id ps.
Proof.
  revert t. induction ps as [|p ps IH]; intros t; [done|]. simpl.
  unfold exec_time, total_burst in *. rewrite !sum_for_cons, IH. simpl.
  unfold duration. simpl. case_decide; lia.
Qed.

Lemma dispatch_chain t ps :
  Forall (λ p, 0 ≤ burst p) ps → chain t (dispatch_in_order t ps).
Proof.
  intros H. revert t. induction H as [|p ps Hp _ IH]; intros t; simpl; [done|].
  repeat split; [lia..|]. apply IH.
Qed.

Lemma dispatch_arrival t ps s :
  s ∈ dispatch_in_order t ps →
  ∃ p, p ∈ ps ∧ pid p = seg_pid s ∧ arrival p ≤ seg_start s.
Proof.
  revert t. induction ps as [|p ps IH]; intros t Hs; simpl in Hs.
  - by apply elem_of_nil in Hs.
  - apply elem_of_cons in Hs as [->|Hs].
    + exists p. simpl. split; [left|split; [done|lia]].
    + destruct (IH _ Hs) as (p' & ? & ? & ?). exists p'. split; [by right|done].
Qed.

Lemma dispatch_sorted_spec (le : Process → Process → bool) ps :
  Forall (λ p, 0 ≤ burst p) ps →
  timeline_spec ps (dispatch_in_order 0 (sorted_by le ps)).
Proof.
  intros Hb. pose proof (sorted_by_perm le ps) as Hperm. repeat split.
  - intros id. rewrite dispatch_exec. unfold total_burst. by apply sum_for_perm.
  - apply dispatch_chain. by rewrite Hperm.
  - intros s Hs. apply dispatch_arrival in Hs as (p & Hp & ? & ?).
    exists p. split; [|done]. by rewrite <- Hperm.
Qed.

(** ** Round Robin *)

Section RoundRobin.
Context (ps : list Process) (quantum : Z).
Hypothesis quantum_pos : 1 ≤ quantum.

Lemma rr_inv_step s :
  rr_inv ps s → rr_cond s = true →
  rr_inv ps (rr_body quantum s) ∧ (rr_measure (rr_body quantum s) < rr_measure s)%nat.
Proof using quantum_pos.
  destruct s as [queue t sch]. unfold rr_body, rr_cond, rr_inv, rr_measure. simpl.
  destruct queue as [|p queue]; [done|].
  intros (Hb & Hex & Hch & Hend & Ht & Hsch & Hq) _. simpl.
  apply Forall_cons in Hb as [Hp Hb].
  set (ts := Z.min quantum (burst p)) in *.
  assert (1 ≤ ts ≤ burst p) as Hts by (unfold ts; lia).
  assert (0 ≤ sumZ burst queue) as Hsum.
  { apply sumZ_nonneg. eapply Forall_impl; [exact Hb|]. simpl. lia. }
  split; [split_and!|].
  - destruct (Z.ltb_spec 0 (burst p - ts)); [|done].
    apply Forall_app. split; [done|]. apply Forall_singleton. simpl. lia.
  - intros id. specialize (Hex id). unfold exec_time, total_burst in *.
    rewrite sum_for_app, !sum_for_cons, sum_for_nil in *. simpl.
    unfold duration at 2. simpl.
    destruct (Z.ltb_spec 0 (burst p - ts)).
    + rewrite sum_for_app, sum_for_cons, sum_for_nil. simpl. case_decide; lia.
    + case_decide; lia.
  - eapply chain_snoc; [done..| | |]; simpl; lia.
  - apply Forall_app. split.
    + eapply Forall_impl; [exact Hend|]. simpl. lia.
    + apply Forall_singleton. simpl. lia.
  - lia.
  - intros x Hx. apply elem_of_app in Hx as [Hx|Hx]; [by apply Hsch|].
    apply list_elem_of_singleton in Hx as ->. simpl.
    destruct (Hq p) as (p0 & ? & ? & ?); [left|].
    exists p0. split; [done|]. split; [done|]. lia.
  - intros p' Hp'.
    assert (p' ∈ queue ∨
            (pid p' = pid p ∧ arrival p' = arrival p)) as [Hin|[Hpid Harr]].
    { destruct (0 <? burst p - ts); [|by left].
      apply elem_of_app in Hp' as [?|Hp']; [by left|].
      apply list_elem_of_singleton in Hp' as ->. by right. }
    + apply Hq. by right.
    + destruct (Hq p) as (p0 & ? & ? & ?); [left|].
      exists p0. split; [done|]. split; congruence.
  - destruct (Z.ltb_spec 0 (burst p - ts)).
    + rewrite sumZ_app. simpl. lia.
    + lia.
Qed.

Lemma rr_inv_exit s :
  rr_inv ps s → rr_cond s = false → timeline_spec ps (rr_schedule s).
Proof.
  destruct s as [queue t sch]. unfold rr_cond, rr_inv. simpl.
  destruct queue as [|p queue]; [|done].
  intros (_ & Hex & Hch & _ & _ & Hsch & _) _. split_and!; [|done..].
  intros id. specialize (Hex id). unfold total_burst in Hex at 1.
  rewrite sum_for_nil in Hex. lia.
Qed.

Lemma rr_inv_init :
  Forall (λ p, 1 ≤ burst p) ps → rr_inv ps (mkRR ps 0 []).
Proof.
  intros Hb. unfold rr_inv. simpl. split_and!; [done| |done|done|lia|..].
  - intros id. unfold exec_time. rewrite sum_for_nil. lia.
  - intros x Hx. by apply elem_of_nil in Hx.
  - intros p' Hp'. by exists p'.
Qed.

Lemma round_robin_spec :
  Forall (λ p, 1 ≤ burst p) ps →
  ∃ tl, timeline_spec ps tl ∧
        ∀ fuel, (rr_measure (mkRR ps 0 []) < fuel)%nat →
                round_robin_scheduling fuel ps quantum = Some tl.
Proof using quantum_pos.
  intros Hb. unfold round_robin_scheduling.
  destruct (while_total rr_cond (rr_body quantum) (rr_inv ps) rr_measure rr_inv_step
              (mkRR ps 0 []) (rr_inv_init Hb)) as (r & Hr & Hc & Hrun).
  exists (rr_schedule r). split; [by apply rr_inv_exit|].
  intros fuel Hf. by rewrite Hrun.
Qed.
End RoundRobin.

(** ** Admission of arrived processes *)

Lemma take_arrived_spec {A} (arr : A → Z) t (P R P' R' : list A) :
  take_arrived arr t P R = (P', R') →
  ∃ moved, P = moved ++ P' ∧ R' = R ++ moved ∧
           Forall (λ p, arr p ≤ t) moved ∧
           match P' with p :: _ => t < arr p | [] => True end.
Proof.
  revert R. induction P as [|p P IH]; intros R; simpl.
  - intros [= <- <-]. exists []. by rewrite (app_nil_r R).
  - destruct (Z.leb_spec (arr p) t) as [Hle|Hgt].
    + intros H. apply IH in H as (moved & -> & -> & Hall & Hhd).
      exists (p :: moved). rewrite <- app_assoc. split_and!; try done.
      by apply Forall_cons.
    + intros [= <- <-]. exists []. by rewrite (app_nil_r R).
Qed.

(** ** Shortest Job Next (non-preemptive) *)

Section ShortestJobNext.
Context (ps : list Process).
Hypothesis burst_nonneg : Forall (λ p, 0 ≤ burst p) ps.

Lemma sjn_inv_step s :
  sjn_inv ps s → sjn_cond s = true →
  sjn_inv ps (sjn_body s) ∧ (sjn_measure (sjn_body s) < sjn_measure s)%nat.
Proof using burst_nonneg.
  destruct s as [P R t sch]. unfold sjn_body, sjn_cond, sjn_inv. simpl.
  intros (Hin & Hex & Hch & Hend & Ht & Hsch & Hrdy) Hcond.
  destruct (take_arrived arrival t P R) as [P' R'] eqn:Hadm.
  apply take_arrived_spec in Hadm as (moved & -> & -> & Hmoved & Hhd).
  pose proof (sorted_by_perm (by_key burst) (R ++ moved)) as Hperm.
  destruct (sorted_by (by_key burst) (R ++ moved)) as [|p R''] eqn:Hsort.
  - (* nothing is ready: jump to the head's arrival *)
    symmetry in Hperm. apply Permutation_nil_r in Hperm.
    apply app_eq_nil in Hperm as [-> ->]. simpl in *.
    unfold sjn_measure. simpl.
    destruct P' as [|p P']; [done|].
    destruct (Z.ltb_spec t (arrival p)); [|lia].
    destruct (Z.ltb_spec (arrival p) (arrival p)); [lia|].
    split; [|lia]. split_and!; try done; [|lia].
    eapply Forall_impl; [exact Hend|]. simpl. lia.
  - (* dispatch the shortest ready job *)
    unfold sjn_measure. simpl.
    assert (p ∈ R ++ moved) as Hp by (rewrite <- Hperm; left).
    assert (p ∈ ps) as Hps.
    { apply Hin. rewrite !elem_of_app in *. tauto. }
    assert (0 ≤ burst p) as Hbp.
    { rewrite Forall_forall in burst_nonneg. by apply burst_nonneg. }
    assert (Forall (λ p, arrival p ≤ t) (p :: R'')) as Harr.
    { rewrite Hperm. by apply Forall_app. }
    apply Forall_cons in Harr as [Harrp Harr].
    split; [split_and!|].
    + intros p' Hp'. apply Hin.
      apply elem_of_app in Hp' as [?|Hq]; [rewrite !elem_of_app; tauto|].
      assert (p' ∈ R ++ moved) as Hq' by (rewrite <- Hperm; by right).
      rewrite !elem_of_app in *. tauto.
    + intros id. specialize (Hex id). unfold exec_time, total_burst in *.
      pose proof (sum_for_perm pid burst id _ _ Hperm) as Hsum.
      rewrite !sum_for_app, !sum_for_cons, ?sum_for_nil in *. simpl.
      unfold duration at 2. simpl. case_decide; lia.
    + eapply chain_snoc; [done..| | |]; simpl; lia.
    + apply Forall_app. split.
      * eapply Forall_impl; [exact Hend|]. simpl. lia.
      * apply Forall_singleton. simpl. lia.
    + lia.
    + intros x Hx. apply elem_of_app in Hx as [Hx|Hx]; [by apply Hsch|].
      apply list_elem_of_singleton in Hx as ->. simpl. by exists p.
    + eapply Forall_impl; [exact Harr|]. simpl. lia.
    + apply Permutation_length in Hperm. rewrite !length_app in *.
      simpl in Hperm.
      destruct R'' as [|? ?], P' as [|? ?]; simpl in *;
        try destruct (_ <? _); lia.
Qed.

Lemma sjn_inv_exit s :
  sjn_inv ps s → sjn_cond s = false → timeline_spec ps (sjn_schedule s).
Proof.
  destruct s as [P R t sch]. unfold sjn_cond, sjn_inv. simpl.
  intros (_ & Hex & Hch & _ & _ & Hsch & _) Hcond.
  destruct P as [|p P], R as [|r R]; try done.
  split_and!; [|done..].
  intros id. specialize (Hex id). unfold total_burst in Hex at 1 2.
  rewrite sum_for_nil in Hex. lia.
Qed.

Lemma sjn_inv_init : sjn_inv ps (mkSjn ps [] 0 []).
Proof.
  unfold sjn_inv. simpl. split_and!; try done.
  - intros p. by rewrite app_nil_r.
  - intros id. unfold exec_time, total_burst. rewrite !sum_for_nil. lia.
  - intros x Hx. by apply elem_of_nil in Hx.
Qed.

Lemma sjn_spec :
  ∃ tl, timeline_spec ps tl ∧
        ∀ fuel, (sjn_measure (mkSjn ps [] 0 []) < fuel)%nat →
                sjn_scheduling fuel ps = Some tl.
Proof using burst_nonneg.
  unfold sjn_scheduling.
  destruct (while_total sjn_cond sjn_body (sjn_inv ps) sjn_measure sjn_inv_step
              (mkSjn ps [] 0 []) sjn_inv_init) as (r & Hr & Hc & Hrun).
  exists (sjn_schedule r). split; [by apply sjn_inv_exit|].
  intros fuel Hf. by rewrite Hrun.
Qed.
End ShortestJobNext.

(** ** The preemptive policies *)

Lemma min_list_elem l m : min_list l = Some m → m ∈ l.
Proof.
  revert m. induction l as [|a l IH]; intros m; simpl; [done|].
  destruct (min_list l) as [m'|] eqn:Hl; intros [= <-].
  - destruct (Z.min_spec a m') as [[_ ->]|[_ ->]]; [left|right; by apply IH].
  - left.
Qed.

Lemma min_list_lower l m : min_list l = Some m → Forall (λ a, m ≤ a) l.
Proof.
  revert m. induction l as [|a l IH]; intros m; simpl; [done|].
  destruct (min_list l) as [m'|] eqn:Hl; intros [= <-].
  - apply Forall_cons. split; [lia|].
    eapply Forall_impl; [by apply IH|]. simpl. lia.
  - destruct l; [|done]. apply Forall_cons. split; [lia|done].
Qed.

Lemma min_list_is_Some l : l ≠ [] → is_Some (min_list l).
Proof. destruct l; [done|]. simpl. eauto. Qed.

Lemma time_slice_of_eq remaining processes t :
  time_slice_of remaining (next_arrival processes t) t = Z.min 1 remaining.
Proof.
  unfold time_slice_of, next_arrival.
  destruct (min_list _) as [na|] eqn:Hmin; [|done].
  apply min_list_elem, list_elem_of_fmap in Hmin as (p & -> & Hp).
  apply list_elem_of_filter in Hp as [Hp _]. lia.
Qed.

Lemma filter_arrivals_split (processes : list Job) t :
  processes ≡ₚ filter (λ p, job_arrival p ≤ t) processes
               ++ filter (λ p, t < job_arrival p) processes.
Proof.
  induction processes as [|p l IH]; [done|].
  rewrite !filter_cons. destruct (decide (job_arrival p ≤ t)).
  - rewrite decide_False by lia. simpl. by rewrite <- IH.
  - rewrite decide_True by lia. rewrite <- Permutation_middle. by rewrite <- IH.
Qed.

Lemma filter_arrivals_none (processes : list Job) t :
  filter (λ p, job_arrival p ≤ t) processes = [] →
  filter (λ p, t < job_arrival p) processes = processes.
Proof.
  induction processes as [|p l IH]; [done|].
  rewrite !filter_cons. destruct (decide (job_arrival p ≤ t)); [done|].
  intros H. rewrite decide_True by lia. by rewrite IH.
Qed.

Lemma select_active_spec key A R A' R' :
  select_active key A R = (A', R') →
  (A' = None ∧ A = None ∧ R = [] ∧ R' = []) ∨
  (∃ j, A' = Some j ∧ j :: R' ≡ₚ R ++ option_list A).
Proof.
  unfold select_active. pose proof (sorted_by_perm (by_key key) R) as Hperm.
  destruct A as [a|].
  - intros [= <- <-]. right. exists a. split; [done|]. simpl.
    apply Permutation_cons_append.
  - destruct (sorted_by (by_key key) R) as [|j R2].
    + intros [= <- <-]. left. symmetry in Hperm. by apply Permutation_nil_r in Hperm.
    + intros [= <- <-]. right. exists j. split; [done|]. simpl. by rewrite app_nil_r.
Qed.

(** Running a slice: [j] executes for [min 1 remaining]; the processes that
    arrived by then leave [processes]; [j] is dropped only when it has no time
    left, and is kept with no time left only when somebody arrived. *)
Lemma run_slice_spec key j P1 R2 t sch :
  let ts := Z.min 1 (job_remaining j) in
  let j' := with_remaining j (job_remaining j - ts) in
  ∃ new P2 R3 A',
    run_slice key j P1 R2 t sch
    = mkPre P2 R3 A' (t + ts) (sch ++ [mkSegment (job_pid j) t (t + ts)]) ∧
    P1 ≡ₚ new ++ P2 ∧
    Forall (λ p, job_arrival p ≤ t + ts) new ∧
    ((job_remaining j - ts = 0 ∧ R3 ++ option_list A' ≡ₚ R2 ++ new) ∨
     ((job_remaining j - ts ≠ 0 ∨ new ≠ []) ∧
      R3 ++ option_list A' ≡ₚ R2 ++ new ++ [j'])).
Proof.
  intros ts j'. unfold run_slice. rewrite time_slice_of_eq. fold ts. fold j'.
  pose proof (filter_arrivals_split P1 (t + ts)) as Hsplit.
  assert (Forall (λ p, job_arrival p ≤ t + ts)
            (filter (λ p, job_arrival p ≤ t + ts) P1)) as Hnew.
  { apply Forall_forall. intros p Hp. by apply list_elem_of_filter in Hp as [? _]. }
  assert (Hcarry : ∀ R3 : list Job,
    (job_remaining j - ts = 0 ∧
     R3 ++ option_list (if job_remaining j - ts =? 0 then None else Some j') ≡ₚ R3) ∨
    (job_remaining j - ts ≠ 0 ∧
     R3 ++ option_list (if job_remaining j - ts =? 0 then None else Some j')
     ≡ₚ R3 ++ [j'])).
  { intros R3. destruct (Z.eqb_spec (job_remaining j - ts) 0); [left|right]; simpl.
    - by rewrite app_nil_r.
    - done. }
  destruct (filter (λ p, job_arrival p ≤ t + ts) P1) as [|n new] eqn:Hfil.
  - (* nobody arrived *)
    exists [], P1, R2, (if job_remaining j - ts =? 0 then None else Some j').
    split_and!; [done..|].
    destruct (Hcarry R2) as [[? ?]|[? ?]]; [left|right].
    + split; [done|]. by rewrite app_nil_r.
    + split; [by left|]. done.
  - pose proof (sorted_by_perm (by_key key) (R2 ++ n :: new)) as Hperm.
    destruct (sorted_by (by_key key) (R2 ++ n :: new)) as [|r R3].
    { symmetry in Hperm. apply Permutation_nil_r in Hperm.
      by destruct R2. }
    destruct (key r <? key j').
    + (* the head of the queue preempts [j] *)
      eexists (n :: new), _, _, _. split_and!; [done..|].
      right. split; [by right|]. simpl.
      change (n :: new ++ [j']) with ((n :: new) ++ [j']).
      rewrite app_assoc, <- Hperm. by rewrite <- Permutation_cons_append.
    + eexists (n :: new), _, _, _. split_and!; [done..|].
      destruct (Hcarry (r :: R3)) as [[? Hp]|[? Hp]]; [left|right].
      * split; [done|]. by rewrite Hp, Hperm.
      * split; [by left|]. rewrite Hp, Hperm. by rewrite <- app_assoc.
Qed.

Lemma remaining_of_to_job id ps :
  remaining_of id (to_job <$> ps) = total_burst id ps.
Proof.
  unfold remaining_of, total_burst.
  induction ps as [|p ps IH]; [done|].
  rewrite fmap_cons, !sum_for_cons, IH. done.
Qed.

Section Preemptive.
Context (ps : list Process) (key : Job → Z).

Lemma idle_time_nonneg t l : 0 ≤ sumZ (idle_time t) l.
Proof. apply sumZ_nonneg, Forall_forall. intros j _. unfold idle_time. lia. Qed.

Lemma idle_time_mono t t' l :
  t ≤ t' → sumZ (idle_time t') l ≤ sumZ (idle_time t) l.
Proof. intros Ht. induction l as [|j l IH]; simpl; [done|]. unfold idle_time at 1 3. lia. Qed.

Lemma pre_inv_step s :
  pre_inv ps s → pre_cond s = true →
  pre_inv ps (preemptive_body key s) ∧
  (pre_measure (preemptive_body key s) < pre_measure s)%nat.
Proof.
  destruct s as [P R A t sch].
  unfold preemptive_body, pre_cond, pre_inv, pre_measure, jobs_of. simpl.
  intros (Hrem & Hex & Hch & Hend & Ht & Hsch & Hjobs & Hrdy) Hcond.
  destruct (take_arrived job_arrival t P R) as [P1 R1] eqn:Hadm.
  apply take_arrived_spec in Hadm as (moved & -> & -> & Hmoved & Hhd).
  destruct (select_active key A (R ++ moved)) as [A1 R2] eqn:Hsel.
  apply select_active_spec in Hsel
    as [(-> & -> & Hnil & ->)|(j & -> & Hsel)].
  - (* idle: wait one unit for the head of [processes] *)
    apply app_eq_nil in Hnil as [-> ->]. simpl in *.
    destruct P1 as [|p P1]; [done|]. simpl in *.
    split; [split_and!; try done; try lia|].
    + eapply Forall_impl; [exact Hend|]. simpl. lia.
    + pose proof (idle_time_mono t (t + 1) P1 ltac:(lia)).
      pose proof (idle_time_nonneg (t + 1) P1).
      apply Forall_cons in Hrem as [Hp Hrem]. rewrite app_nil_r in Hrem.
      pose proof (sumZ_nonneg job_remaining _ Hrem).
      rewrite !app_nil_r. unfold idle_time at 1 3. lia.
  - (* [j] runs for a slice *)
    destruct (run_slice_spec key j P1 R2 t sch)
      as (new & P2 & R3 & A' & -> & HP1 & Hnew & Hfin).
    simpl.
    set (ts := Z.min 1 (job_remaining j)) in *.
    set (j' := with_remaining j (job_remaining j - ts)) in *.
    assert (∃ extra, R3 ++ option_list A' ≡ₚ R2 ++ new ++ extra ∧
              ((extra = [] ∧ job_remaining j - ts = 0) ∨
               (extra = [j'] ∧ (job_remaining j - ts ≠ 0 ∨ new ≠ []))))
      as (extra & Hfin' & Hextra).
    { destruct Hfin as [[? ?]|[? ?]].
      - exists []. rewrite app_nil_r. split; [done|by left].
      - exists [j']. split; [done|by right]. }
    clear Hfin.
    (* where [j] comes from *)
    assert (j ∈ (R ++ moved) ++ option_list A) as Hj by (rewrite <- Hsel; left).
    assert (0 ≤ job_remaining j ∧ job_arrival j ≤ t ∧
            ∃ p, p ∈ ps ∧ pid p = job_pid j ∧ arrival p = job_arrival j)
      as (Hjrem & Hjarr & p & Hp & Hpid & Hparr).
    { rewrite Forall_forall in Hrem, Hrdy, Hmoved.
      rewrite !elem_of_app in Hj.
      split_and!.
      - apply Hrem. rewrite !elem_of_app. tauto.
      - destruct Hj as [[?|?]|?].
        + apply Hrdy. rewrite elem_of_app. tauto.
        + by apply Hmoved.
        + apply Hrdy. rewrite elem_of_app. tauto.
      - apply Hjobs. rewrite !elem_of_app. tauto. }
    assert (0 ≤ ts ≤ 1 ∧ ts ≤ job_remaining j) as Hts by (unfold ts; lia).
    (* membership in the new state traces back to the old one *)
    assert (HR2 : ∀ x, x ∈ R2 → x ∈ R ∨ x ∈ moved ∨ x ∈ option_list A).
    { intros x Hx. assert (x ∈ (R ++ moved) ++ option_list A) as Hx'
        by (rewrite <- Hsel; by right).
      rewrite !elem_of_app in Hx'. tauto. }
    assert (HP2 : ∀ x, x ∈ new ∨ x ∈ P2 → x ∈ P1).
    { intros x Hx. rewrite HP1, elem_of_app. tauto. }
    assert (Hback : ∀ x, x ∈ P2 ++ R3 ++ option_list A' →
              x = j' ∨ x ∈ (moved ++ P1) ++ R ++ option_list A).
    { intros x Hx. apply elem_of_app in Hx as [Hx|Hx].
      - right. rewrite !elem_of_app. specialize (HP2 x). tauto.
      - rewrite Hfin', !elem_of_app in Hx. destruct Hx as [Hx|[Hx|Hx]].
        + right. apply HR2 in Hx. rewrite !elem_of_app. tauto.
        + right. rewrite !elem_of_app. specialize (HP2 x). tauto.
        + left. destruct Hextra as [[-> _]|[-> _]].
          * by apply elem_of_nil in Hx.
          * by apply list_elem_of_singleton in Hx. }
    split; [split_and!|].
    + apply Forall_forall. intros x Hx. apply Hback in Hx as [->|Hx].
      * simpl. lia.
      * rewrite Forall_forall in Hrem. by apply Hrem.
    + intros id. specialize (Hex id). unfold exec_time, remaining_of in *.
      pose proof (sum_for_perm job_pid job_remaining id _ _ HP1) as E1.
      pose proof (sum_for_perm job_pid job_remaining id _ _ Hsel) as E2.
      pose proof (sum_for_perm job_pid job_remaining id _ _ Hfin') as E3.
      rewrite !sum_for_app, ?sum_for_cons, ?sum_for_nil in *. simpl.
      unfold duration at 2. simpl.
      destruct Hextra as [[-> ?]|[-> ?]];
        rewrite ?sum_for_cons, ?sum_for_nil in E3; simpl in E3;
        case_decide; lia.
    + eapply chain_snoc; [done..| | |]; simpl; lia.
    + apply Forall_app. split.
      * eapply Forall_impl; [exact Hend|]. simpl. lia.
      * apply Forall_singleton. simpl. lia.
    + lia.
    + intros x Hx. apply elem_of_app in Hx as [Hx|Hx]; [by apply Hsch|].
      apply list_elem_of_singleton in Hx as ->. simpl.
      exists p. split_and!; [done..|lia].
    + intros x Hx. apply Hback in Hx as [->|Hx]; [by exists p|by apply Hjobs].
    + rewrite Hfin'. apply Forall_forall. intros x Hx.
      rewrite Forall_forall in Hrdy, Hmoved, Hnew.
      rewrite !elem_of_app in Hx. destruct Hx as [Hx|[Hx|Hx]].
      * apply HR2 in Hx as [Hx|[Hx|Hx]].
        -- assert (job_arrival x ≤ t); [|lia]. apply Hrdy. rewrite elem_of_app. tauto.
        -- assert (job_arrival x ≤ t); [|lia]. by apply Hmoved.
        -- assert (job_arrival x ≤ t); [|lia]. apply Hrdy. rewrite elem_of_app. tauto.
      * by apply Hnew.
      * destruct Hextra as [[-> _]|[-> _]]; [by apply elem_of_nil in Hx|].
        apply list_elem_of_singleton in Hx as ->. simpl. lia.
    + (* the measure decreases *)
      pose proof (sumZ_perm job_remaining _ _ HP1) as E1.
      pose proof (sumZ_perm job_remaining _ _ Hsel) as E2.
      pose proof (sumZ_perm job_remaining _ _ Hfin') as E3.
      pose proof (sumZ_perm (idle_time t) _ _ HP1) as E4.
      pose proof (Permutation_length HP1) as L1.
      pose proof (Permutation_length Hsel) as L2.
      pose proof (Permutation_length Hfin') as L3.
      pose proof (idle_time_mono t (t + ts) P2 ltac:(lia)).
      pose proof (idle_time_nonneg (t + ts) P2).
      pose proof (idle_time_nonneg t moved).
      pose proof (idle_time_nonneg t new).
      assert (0 ≤ sumZ job_remaining (P2 ++ R3 ++ option_list A')).
      { apply sumZ_nonneg, Forall_forall. intros x Hx.
        apply Hback in Hx as [->|Hx]; [simpl; lia|].
        rewrite Forall_forall in Hrem. by apply Hrem. }
      rewrite ?sumZ_app, ?length_app in *. simpl in *.
      destruct Hextra as [[-> ?]|[-> Hwhy]]; simpl in *; [lia|].
      destruct Hwhy as [?|?]; [lia|].
      destruct new; [done|]. simpl in *. lia.
Qed.

Lemma pre_inv_exit s :
  pre_inv ps s → pre_cond s = false → timeline_spec ps (pre_schedule s).
Proof.
  destruct s as [P R A t sch]. unfold pre_cond, pre_inv, jobs_of. simpl.
  intros (_ & Hex & Hch & _ & _ & Hsch & _) Hcond.
  destruct P, R, A; try done.
  split_and!; [|done..].
  intros id. specialize (Hex id). simpl in Hex. unfold remaining_of in Hex.
  rewrite sum_for_nil in Hex. lia.
Qed.

Lemma pre_inv_init t0 :
  Forall (λ p, 0 ≤ burst p) ps → 0 ≤ t0 →
  pre_inv ps (mkPre (to_job <$> ps) [] None t0 []).
Proof.
  intros Hb Ht. unfold pre_inv, jobs_of. simpl. rewrite app_nil_r.
  split_and!; try done.
  - apply Forall_fmap. eapply Forall_impl; [exact Hb|]. done.
  - intros id. rewrite remaining_of_to_job. unfold exec_time.
    rewrite sum_for_nil. lia.
  - intros x Hx. by apply elem_of_nil in Hx.
  - intros j Hj. apply list_elem_of_fmap in Hj as (p & -> & Hp). by exists p.
Qed.

Lemma preemptive_spec :
  ps ≠ [] → Forall (λ p, 0 ≤ arrival p) ps → Forall (λ p, 0 ≤ burst p) ps →
  ∃ tl, timeline_spec ps tl ∧
        returns (λ fuel, preemptive_scheduling key fuel ps) tl.
Proof.
  intros Hne Harr Hb. unfold preemptive_scheduling.
  destruct (min_list_is_Some (job_arrival <$> (to_job <$> ps))) as [t0 Ht0].
  { by destruct ps. }
  rewrite Ht0.
  assert (0 ≤ t0) as Hpos.
  { apply min_list_elem in Ht0.
    apply list_elem_of_fmap in Ht0 as (j & -> & Hj).
    apply list_elem_of_fmap in Hj as (p & -> & Hp).
    rewrite Forall_forall in Harr. by apply Harr. }
  destruct (while_total pre_cond (preemptive_body key) (pre_inv ps) pre_measure
              pre_inv_step _ (pre_inv_init t0 Hb Hpos)) as (r & Hr & Hc & Hrun).
  exists (pre_schedule r). split; [by apply pre_inv_exit|].
  eexists. intros fuel Hf. rewrite Hrun; [done|]. apply Hf.
Qed.
End Preemptive.

(** ** All six policies *)

Lemma run_policy_spec pol ps quantum :
  ps ≠ [] → Forall (λ p, 0 ≤ arrival p ∧ 1 ≤ burst p) ps → 1 ≤ quantum →
  ∃ tl, returns (λ fuel, run_policy pol fuel ps quantum) tl ∧ timeline_spec ps tl.
Proof.
  intros Hne Hps Hq.
  assert (Forall (λ p, 0 ≤ arrival p) ps) as Harr.
  { eapply Forall_impl; [exact Hps|]. simpl. lia. }
  assert (Forall (λ p, 0 ≤ burst p) ps) as Hb0.
  { eapply Forall_impl; [exact Hps|]. simpl. lia. }
  assert (Forall (λ p, 1 ≤ burst p) ps) as Hb1.
  { eapply Forall_impl; [exact Hps|]. simpl. lia. }
  destruct pol; simpl.
  - exists (fcfs_scheduling ps). split; [by exists 0%nat|].
    by apply dispatch_sorted_spec.
  - destruct (sjn_spec ps Hb0) as (tl & Htl & Hrun).
    exists tl. split; [|done]. by eapply returns_of_option.
  - destruct (preemptive_spec ps job_remaining Hne Harr Hb0) as (tl & Htl & Hrun).
    by exists tl.
  - destruct (round_robin_spec ps quantum Hq Hb1) as (tl & Htl & Hrun).
    exists tl. split; [|done]. by eapply returns_of_option.
  - exists (priority_scheduling ps). split; [by exists 0%nat|].
    by apply dispatch_sorted_spec.
  - destruct (preemptive_spec ps job_priority Hne Harr Hb0) as (tl & Htl & Hrun).
    by exists tl.
Qed.

Lemma valid_process_set_bounds ps :
  valid_process_set ps → Forall (λ p, 0 ≤ arrival p ∧ 1 ≤ burst p) ps.
Proof.
  intros (_ & _ & H). eapply Forall_impl; [exact H|].
  unfold valid_process. simpl. tauto.
Qed.

(** ** Conservation, ordering and termination *)

(** C1 (conservation law): for a valid ProcessSet and a quantum of at least 1,
    each of the six policies returns a timeline in which the durations of the
    segments of every process add up to exactly the burst of that process. *)
Theorem C1_burst_conservation (pol : Policy) (ps : list Process) (quantum : Z) :
  valid_process_set ps → 1 ≤ quantum →
  ∃ tl, returns (λ fuel, run_policy pol fuel ps quantum) tl ∧
        ∀ p, p ∈ ps → exec_time (pid p) tl = burst p.
Proof.
  intros Hv Hq. pose proof (valid_process_set_bounds ps Hv) as Hb.
  destruct Hv as (Hne & Hnd & _).
  destruct (run_policy_spec pol ps quantum Hne Hb Hq) as (tl & Hret & Hex & _).
  exists tl. split; [done|]. intros p Hp. rewrite Hex.
  unfold total_burst. by apply sum_for_unique.
Qed.

(** C2: for a valid ProcessSet and a quantum of at least 1, each of the six
    policies returns a timeline in which no two segments overlap in time and
    every segment starts at or after the arrival of the process it belongs
    to. *)
Theorem C2_no_overlap_and_start_after_arrival
    (pol : Policy) (ps : list Process) (quantum : Z) :
  valid_process_set ps → 1 ≤ quantum →
  ∃ tl, returns (λ fuel, run_policy pol fuel ps quantum) tl ∧
        non_overlapping tl ∧ starts_after_arrival ps tl.
Proof.
  intros Hv Hq. pose proof (valid_process_set_bounds ps Hv) as Hb.
  destruct Hv as (Hne & Hnd & _).
  destruct (run_policy_spec pol ps quantum Hne Hb Hq) as (tl & Hret & Hspec).
  exists tl. split_and!; [done| |by apply timeline_spec_starts].
  destruct Hspec as (_ & Hch & _). by eapply chain_non_overlapping.
Qed.

(** C9 (termination): for a valid ProcessSet and a quantum of at least 1, each
    of the six scheduling functions returns a timeline: with every iteration
    budget above some bound its loop has ended. *)
Theorem C9_policies_terminate (pol : Policy) (ps : list Process) (quantum : Z) :
  valid_process_set ps → 1 ≤ quantum →
  ∃ tl, returns (λ fuel, run_policy pol fuel ps quantum) tl.
Proof.
  intros Hv Hq. pose proof (valid_process_set_bounds ps Hv) as Hb.
  destruct Hv as (Hne & _).
  destruct (run_policy_spec pol ps quantum Hne Hb Hq) as (tl & Hret & _).
  by exists tl.
Qed.

Lemma C1_burst_conservation_witness :
  ∃ tl, returns (λ fuel, run_policy SJN_Preemptive fuel reference_case 2) tl ∧
        ∀ p, p ∈ reference_case → exec_time (pid p) tl = burst p.
Proof.
  apply (C1_burst_conservation SJN_Preemptive reference_case 2).
  - apply (bool_decide_unpack _). vm_compute. reflexivity.
  - lia.
Defined.

Lemma C2_no_overlap_and_start_after_arrival_witness :
  ∃ tl, returns (λ fuel, run_policy PriorityPreemptive fuel reference_case 2) tl ∧
        non_overlapping tl ∧ starts_after_arrival reference_case tl.
Proof.
  apply (C2_no_overlap_and_start_after_arrival PriorityPreemptive reference_case 2).
  - apply (bool_decide_unpack _). vm_compute. reflexivity.
  - lia.
Defined.

Lemma C9_policies_terminate_witness :
  ∃ tl, returns (λ fuel, run_policy SJN fuel reference_case 2) tl.
Proof.
  apply (C9_policies_terminate SJN reference_case 2).
  - apply (bool_decide_unpack _). vm_compute. reflexivity.
  - lia.
Defined.

(** ** Round Robin: length of the slices *)

Lemma snoc_eq_split {A} (l l1 l2 : list A) (a x : A) :
  l ++ [a] = l1 ++ x :: l2 →
  (l2 = [] ∧ x = a ∧ l1 = l) ∨ (∃ l2', l2 = l2' ++ [a] ∧ l = l1 ++ x :: l2').
Proof.
  destruct l2 as [|y l2 _] using rev_ind.
  - intros H. apply (app_inj_tail l l1 a x) in H as [-> ->]. by left.
  - intros H. right. exists l2.
    change (l1 ++ x :: l2 ++ [y]) with (l1 ++ (x :: l2) ++ [y]) in H.
    rewrite app_assoc in H. apply app_inj_tail in H as [-> ->]. done.
Qed.

Section RoundRobinSlices.
Context (quantum : Z).
Hypothesis quantum_pos : 1 ≤ quantum.

Lemma rr_slice_inv_step s :
  rr_slice_inv quantum s → rr_cond s = true → rr_slice_inv quantum (rr_body quantum s).
Proof using quantum_pos.
  destruct s as [queue t sch]. unfold rr_body, rr_cond, rr_slice_inv. simpl.
  destruct queue as [|p queue]; [done|].
  intros (Hnd & Hb & Hdur & Hlast) _. simpl.
  rewrite fmap_cons in Hnd. apply NoDup_cons in Hnd as [Hp Hnd].
  apply Forall_cons in Hb as [Hbp Hb].
  set (ts := Z.min quantum (burst p)) in *.
  assert (1 ≤ ts ≤ burst p) as Hts by (unfold ts; lia).
  set (queue' := if 0 <? burst p - ts
                 then queue ++ [mkProcess (pid p) (arrival p) (burst p - ts) (priority p)]
                 else queue).
  assert (Hsub : ∀ id, id ∈ (pid <$> queue') → id = pid p ∨ id ∈ (pid <$> queue)).
  { intros id. unfold queue'. destruct (0 <? burst p - ts); [|tauto].
    rewrite fmap_app, elem_of_app. simpl. rewrite list_elem_of_singleton. tauto. }
  split_and!.
  - unfold queue'. destruct (0 <? burst p - ts); [|done].
    rewrite fmap_app. simpl. apply NoDup_app. split; [exact Hnd|split; [|apply NoDup_singleton]].
    intros id Hid Hid'. apply list_elem_of_singleton in Hid' as ->. done.
  - unfold queue'. destruct (Z.ltb_spec 0 (burst p - ts)); [|done].
    apply Forall_app. split; [done|]. apply Forall_singleton. simpl. lia.
  - apply Forall_app. split; [done|]. apply Forall_singleton.
    unfold duration. simpl. lia.
  - intros l1 x l2 Hsplit Hx.
    apply snoc_eq_split in Hsplit as [(-> & -> & ->)|(l2' & -> & ->)].
    + split; [by intros ?%elem_of_nil|].
      unfold duration in Hx. simpl in Hx.
      assert (burst p - ts = 0) as Hz by lia.
      intros Hin. unfold queue' in Hin. rewrite Hz in Hin. simpl in Hin. done.
    + destruct (Hlast l1 x l2' eq_refl Hx) as [Hl2 Hq].
      rewrite fmap_cons, not_elem_of_cons in Hq. destruct Hq as [Hne Hq].
      split.
      * rewrite fmap_app, elem_of_app. simpl. rewrite list_elem_of_singleton. tauto.
      * intros Hin. apply Hsub in Hin. tauto.
Qed.

Lemma rr_slice_inv_exit s :
  rr_slice_inv quantum s →
  Forall (λ x, duration x ≤ quantum) (rr_schedule s) ∧
  full_slices quantum (rr_schedule s).
Proof.
  intros (_ & _ & Hdur & Hlast). split; [done|].
  intros l1 x l2 Hsplit Hin.
  destruct (decide (duration x = quantum)) as [|Hne]; [done|].
  by destruct (Hlast l1 x l2 Hsplit Hne).
Qed.
End RoundRobinSlices.

(** C8: for a valid ProcessSet and a quantum of at least 1, Round Robin
    returns a timeline in which every segment lasts at most the quantum, and
    every segment that is not the last one of its process lasts exactly the
    quantum. *)
Theorem C8_round_robin_slices (ps : list Process) (quantum : Z) :
  valid_process_set ps → 1 ≤ quantum →
  ∃ tl, returns (λ fuel, run_policy RoundRobin fuel ps quantum) tl ∧
        Forall (λ x, duration x ≤ quantum) tl ∧
        full_slices quantum tl.
Proof.
  intros Hv Hq. pose proof (valid_process_set_bounds ps Hv) as Hb.
  destruct Hv as (Hne & Hnd & _).
  destruct (run_policy_spec RoundRobin ps quantum Hne Hb Hq) as (tl & Hret & _).
  exists tl. split; [done|].
  destruct Hret as [n Hn]. specialize (Hn n (le_n _)). simpl in Hn.
  unfold round_robin_scheduling in Hn.
  destruct (while rr_cond (rr_body quantum) n (mkRR ps 0 [])) as [r|] eqn:Hrun;
    [|done].
  injection Hn as <-.
  apply (while_invariant _ _ (rr_slice_inv quantum) (rr_slice_inv_step quantum Hq))
    in Hrun as [Hinv _].
  - by apply rr_slice_inv_exit.
  - unfold rr_slice_inv. simpl. split_and!; [done| |done|].
    + eapply Forall_impl; [exact Hb|]. simpl. tauto.
    + intros l1 x l2 Hsplit. by destruct l1.
Qed.

Lemma C8_round_robin_slices_witness :
  ∃ tl, returns (λ fuel, run_policy RoundRobin fuel reference_case 2) tl ∧
        Forall (λ x, duration x ≤ 2) tl ∧
        full_slices 2 tl.
Proof.
  apply (C8_round_robin_slices reference_case 2).
  - apply (bool_decide_unpack _). vm_compute. reflexivity.
  - lia.
Defined.

(** ** A single process *)

Lemma slices_unfold id a b q :
  1 ≤ b → 1 ≤ q →
  slices id a b q =
  mkSegment id a (a + Z.min q b) :: (if q <? b then slices id (a + q) (b - q) q else []).
Proof.
  intros Hb Hq. unfold slices. destruct (Z.ltb_spec q b) as [Hlt|Hge].
  - replace (b + q - 1) with ((b - q + q - 1) + 1 * q) by lia.
    rewrite Z.div_add by lia.
    assert (0 ≤ (b - q + q - 1) / q) as Hn by (apply Z.div_pos; lia).
    rewrite Z2Nat.inj_add by lia. change (Z.to_nat 1) with 1%nat.
    rewrite Nat.add_1_r. simpl seq. rewrite fmap_cons. f_equal.
    + f_equal; lia.
    + rewrite <- fmap_S_seq, <- list_fmap_compose. apply list_fmap_ext.
      intros i k _. simpl. rewrite Nat2Z.inj_succ. f_equal; lia.
  - assert ((b + q - 1) / q = 1) as ->.
    { symmetry. apply (Z.div_unique_pos _ _ _ (b - 1)); lia. }
    simpl. f_equal. f_equal; lia.
Qed.

Lemma slices_whole id a b q : 1 ≤ b → b ≤ q → slices id a b q = [mkSegment id a (a + b)].
Proof.
  intros Hb Hq. rewrite slices_unfold by lia.
  destruct (Z.ltb_spec q b); [lia|]. do 2 f_equal. lia.
Qed.

Lemma slices_whole_iff id a b q :
  1 ≤ b → 1 ≤ q → slices id a b q = [mkSegment id a (a + b)] ↔ b ≤ q.
Proof.
  intros Hb Hq. split; [|by apply slices_whole].
  rewrite slices_unfold by lia. intros [= H _]. lia.
Qed.

Lemma rr_single id a prio q :
  1 ≤ q →
  ∀ (n : nat) r t sch, (Z.to_nat r ≤ n)%nat → 1 ≤ r →
    ∀ fuel, (n < fuel)%nat →
      while rr_cond (rr_body q) fuel (mkRR [mkProcess id a r prio] t sch)
      = Some (mkRR [] (Z.max t a + r) (sch ++ slices id (Z.max t a) r q)).
Proof.
  intros Hq. induction n as [|n IH]; intros r t sch Hn Hr fuel Hf; [lia|].
  destruct fuel as [|fuel]; [lia|]. simpl. unfold rr_body. simpl.
  rewrite (slices_unfold id (Z.max t a) r q) by lia.
  destruct (Z.ltb_spec q r) as [Hlt|Hge].
  - rewrite Z.min_l by lia. destruct (Z.ltb_spec 0 (r - q)); [|lia].
    rewrite IH; [|lia..]. rewrite (Z.max_l (Z.max t a + q) a) by lia.
    rewrite <- app_assoc. simpl. do 2 f_equal. lia.
  - rewrite Z.min_r by lia. rewrite Z.sub_diag. simpl.
    destruct fuel as [|fuel]; [lia|]. done.
Qed.

Lemma pre_single key id a ob prio :
  ∀ (n : nat) r t sch, (Z.to_nat r ≤ n)%nat → 1 ≤ r →
    ∀ fuel, (n < fuel)%nat →
      while pre_cond (preemptive_body key) fuel
        (mkPre [] [] (Some (mkJob id a r ob prio)) t sch)
      = Some (mkPre [] [] None (t + r) (sch ++ slices id t r 1)).
Proof.
  induction n as [|n IH]; intros r t sch Hn Hr fuel Hf; [lia|].
  destruct fuel as [|fuel]; [lia|].
  rewrite (slices_unfold id t r 1) by lia.
  simpl. unfold preemptive_body, run_slice. simpl.
  rewrite !Z.min_l by lia. unfold with_remaining. simpl.
  destruct (Z.eqb_spec (r - 1) 0) as [Hz|Hnz].
  - destruct (Z.ltb_spec 1 r); [lia|].
    destruct fuel as [|fuel]; [lia|]. simpl. do 2 f_equal. lia.
  - destruct (Z.ltb_spec 1 r); [|lia].
    rewrite IH; [|lia..]. rewrite <- app_assoc. simpl. do 2 f_equal. lia.
Qed.

Lemma preemptive_single key id a b prio :
  1 ≤ b →
  ∀ fuel, (Z.to_nat b < fuel)%nat →
    preemptive_scheduling key fuel [mkProcess id a b prio] = Ok (slices id a b 1).
Proof.
  intros Hb fuel Hf. unfold preemptive_scheduling. simpl.
  pose proof (pre_single key id a b prio (Z.to_nat b) b a [] (le_n _) Hb fuel Hf) as H.
  destruct fuel as [|fuel]; [lia|]. simpl in *.
  assert (preemptive_body key (mkPre [to_job (mkProcess id a b prio)] [] None a [])
          = preemptive_body key (mkPre [] [] (Some (mkJob id a b b prio)) a [])) as ->.
  { unfold preemptive_body. simpl. rewrite Z.leb_refl. done. }
  by rewrite H.
Qed.

Lemma while_step {S} (cond : S → bool) (body : S → S) n s :
  while cond body (Datatypes.S n) s
  = if cond s then while cond body n (body s) else Some s.
Proof. done. Qed.

Lemma sjn_single id a b prio :
  0 ≤ a →
  ∀ fuel, (2 < fuel)%nat →
    sjn_scheduling fuel [mkProcess id a b prio] = Some [mkSegment id a (a + b)].
Proof.
  intros Ha fuel Hf. unfold sjn_scheduling.
  destruct fuel as [|[|[|fuel]]]; [lia..|].
  assert (Hrun : sjn_body (mkSjn [mkProcess id a b prio] [] a [])
                 = mkSjn [] [] (a + b) [mkSegment id a (a + b)]).
  { unfold sjn_body. simpl. by rewrite Z.leb_refl. }
  assert (Hend : sjn_cond (mkSjn [] [] (a + b) [mkSegment id a (a + b)]) = false)
    by done.
  rewrite while_step. change (sjn_cond _) with true. cbv iota.
  destruct (Z.leb_spec a 0) as [Hle|Hgt].
  - assert (a = 0) as -> by lia.
    rewrite Hrun, while_step, Hend. done.
  - assert (sjn_body (mkSjn [mkProcess id a b prio] [] 0 [])
            = mkSjn [mkProcess id a b prio] [] a []) as ->.
    { unfold sjn_body. simpl. destruct (Z.leb_spec a 0); [lia|done]. }
    rewrite while_step. change (sjn_cond _) with true. cbv iota.
    rewrite Hrun, while_step, Hend. done.
Qed.

Lemma dispatch_single (le : Process → Process → bool) id a b prio :
  0 ≤ a →
  dispatch_in_order 0 (sorted_by le [mkProcess id a b prio]) = [mkSegment id a (a + b)].
Proof. intros Ha. simpl. by rewrite Z.max_r by lia. Qed.

Lemma single_process_returns pol id a b prio quantum :
  0 ≤ a → 1 ≤ b → 1 ≤ quantum →
  returns (λ fuel, run_policy pol fuel [mkProcess id a b prio] quantum)
    (single_process_timeline pol id a b quantum).
Proof.
  intros Ha Hb Hq. destruct pol; simpl.
  - exists 0%nat. intros _ _. unfold fcfs_scheduling. by rewrite dispatch_single.
  - exists 3%nat. intros fuel Hf. rewrite sjn_single; [done..|lia].
  - exists (S (Z.to_nat b)). intros fuel Hf.
    unfold sjn_preemptive_scheduling. rewrite preemptive_single; [done..|lia].
  - exists (S (Z.to_nat b)). intros fuel Hf. unfold round_robin_scheduling.
    rewrite (rr_single id a prio quantum Hq (Z.to_nat b)); [|lia..].
    simpl. by rewrite Z.max_r by lia.
  - exists 0%nat. intros _ _. unfold priority_scheduling. by rewrite dispatch_single.
  - exists (S (Z.to_nat b)). intros fuel Hf.
    unfold priority_preemptive_scheduling. rewrite preemptive_single; [done..|lia].
Qed.

(** C5, as stated: every policy returns the single segment [[a, a + b)] for a
    one-process set.  Round Robin with quantum 2 on a burst of 5 does not. *)
Lemma C5_single_segment_counterexample :
  ¬ (∀ pol id a b prio quantum,
       0 ≤ a → 1 ≤ b → 1 ≤ quantum →
       returns (λ fuel, run_policy pol fuel [mkProcess id a b prio] quantum)
         [mkSegment id a (a + b)]).
Proof.
  intros H.
  specialize (H RoundRobin "P1" 0 5 1 2 ltac:(lia) ltac:(lia) ltac:(lia)).
  pose proof (single_process_returns RoundRobin "P1" 0 5 1 2
                ltac:(lia) ltac:(lia) ltac:(lia)) as H'.
  pose proof (returns_inj _ _ _ H H') as Heq. vm_compute in Heq. discriminate.
Qed.

(** C5, amended: for a one-process set with arrival [a >= 0] and burst
    [b >= 1], FCFS, SJN and Priority return exactly the segment [[a, a + b)];
    Round Robin returns the consecutive slices of length [quantum] that tile
    [[a, a + b)], and the two preemptive policies its unit slices; that is a
    single segment exactly when [b <= quantum], respectively [b = 1]. *)
Theorem C5_single_process (pol : Policy) (id : string) (a b prio quantum : Z) :
  0 ≤ a → 1 ≤ b → 1 ≤ quantum →
  returns (λ fuel, run_policy pol fuel [mkProcess id a b prio] quantum)
    (single_process_timeline pol id a b quantum) ∧
  (single_process_timeline pol id a b quantum = [mkSegment id a (a + b)] ↔
   match pol with
   | FCFS | SJN | PriorityNP => True
   | RoundRobin => b ≤ quantum
   | SJN_Preemptive | PriorityPreemptive => b = 1
   end).
Proof.
  intros Ha Hb Hq. split; [by apply single_process_returns|].
  destruct pol; simpl; try tauto; rewrite slices_whole_iff by lia; lia.
Qed.

Lemma C5_single_process_witness :
  returns (λ fuel, run_policy RoundRobin fuel [mkProcess "P1" 3 5 1] 2)
    (single_process_timeline RoundRobin "P1" 3 5 2) ∧
  (single_process_timeline RoundRobin "P1" 3 5 2 = [mkSegment "P1" 3 (3 + 5)] ↔
   5 ≤ 2).
Proof. apply (C5_single_process RoundRobin "P1" 3 5 1 2); lia. Defined.

(** ** The reference case *)

(** C7: on the reference case FCFS returns exactly P1[0,24), P2[24,27),
    P3[27,30), and the contiguous-run calculator reports the waiting times
    0, 23 and 25, whose average is 16. *)
Theorem C7_reference_case_fcfs :
  fcfs_scheduling reference_case
  = [mkSegment "P1" 0 24; mkSegment "P2" 24 27; mkSegment "P3" 27 30] ∧
  ∃ m, calculate_waiting_time (fcfs_scheduling reference_case) reference_case = Ok m ∧
       waiting_times m !! "P1" = Some 0 ∧
       waiting_times m !! "P2" = Some 23 ∧
       waiting_times m !! "P3" = Some 25 ∧
       size (waiting_times m) = 3%nat ∧
       (avg_waiting m == 16)%Q.
Proof.
  split; [reflexivity|].
  eexists. split; [vm_compute; reflexivity|].
  split_and!; try (vm_compute; reflexivity).
Qed.

(** ** Empty timelines and empty process sets *)

(** With an empty ProcessSet both calculators take the guarded branches and
    report zeros. *)
Lemma calculate_waiting_time_no_process schedule :
  calculate_waiting_time schedule [] = Ok zero_metrics.
Proof.
  unfold calculate_waiting_time. simpl.
  by destruct (foldl contiguous_step (∅, ∅) schedule).
Qed.

Lemma calculate_preemptive_waiting_time_no_process schedule :
  calculate_preemptive_waiting_time schedule [] = Ok zero_metrics.
Proof.
  unfold calculate_preemptive_waiting_time. simpl.
  assert (∀ acc, acc_waiting acc = ∅ →
            acc_waiting (foldl (fragmented_step ∅) acc schedule) = ∅) as H.
  { induction schedule as [|seg tl IH]; intros acc Hacc; [done|].
    simpl. apply IH. unfold fragmented_step. by rewrite lookup_empty. }
  by rewrite H.
Qed.

(** C3, at the failing inputs: with an empty timeline and a non-empty
    ProcessSet both calculators raise [KeyError] instead of reporting zeros,
    and with an empty ProcessSet the aggregate computation of [run_simulation]
    raises [IndexError] (or [ValueError] from the preemptive policies). *)
Theorem C3_empty_inputs_raise :
  calculate_waiting_time [] [mkProcess "P1" 0 24 1] = Raise (KeyError "P1") ∧
  calculate_preemptive_waiting_time [] [mkProcess "P1" 0 24 1] = Raise (KeyError "P1") ∧
  (∀ fuel quantum, run_simulation fuel [] "FCFS" quantum = Raise IndexError) ∧
  (∀ fuel quantum, run_simulation fuel [] "Priority" quantum = Raise IndexError) ∧
  (∀ fuel quantum,
     run_simulation fuel [] "SJN with Preemption" quantum = Raise ValueError).
Proof. split_and!; try intros fuel quantum; reflexivity. Qed.

(** ** SJN on input sorted by arrival *)

Lemma filter_all {A} (P : A → Prop) `{∀ x, Decision (P x)} (l : list A) :
  Forall P l → filter P l = l.
Proof.
  induction 1 as [|x l Hx _ IH]; [done|]. by rewrite filter_cons_True, IH.
Qed.

Lemma filter_none {A} (P : A → Prop) `{∀ x, Decision (P x)} (l : list A) :
  Forall (λ x, ¬ P x) l → filter P l = [].
Proof.
  induction 1 as [|x l Hx _ IH]; [done|]. by rewrite filter_cons_False.
Qed.

Lemma Forall_filter_keep {A} (P Q : A → Prop) `{∀ x, Decision (P x)} (l : list A) :
  Forall Q l → Forall Q (filter P l).
Proof.
  intros HQ. apply Forall_forall. intros x Hx.
  apply list_elem_of_filter in Hx as [_ Hx]. rewrite Forall_forall in HQ. by apply HQ.
Qed.

Lemma take_arrived_sorted t P R :
  arrival_sorted P →
  take_arrived arrival t P R
  = (filter (λ p, t < arrival p) P, R ++ filter (λ p, arrival p ≤ t) P).
Proof.
  intros Hs. revert R. induction Hs as [|p P Hs IH Hp]; intros R; simpl.
  - by rewrite app_nil_r.
  - rewrite !filter_cons. destruct (Z.leb_spec (arrival p) t) as [Hle|Hgt].
    + rewrite decide_False by lia. rewrite decide_True by lia.
      rewrite IH, <- app_assoc. done.
    + rewrite decide_True by lia. rewrite decide_False by lia.
      assert (filter (λ q, t < arrival q) P = P) as ->.
      { apply filter_all. eapply Forall_impl; [exact Hp|]. simpl. lia. }
      assert (filter (λ q, arrival q ≤ t) P = []) as ->; [|by rewrite app_nil_r].
      apply filter_none. eapply Forall_impl; [exact Hp|]. simpl. lia.
Qed.

Lemma arrival_sorted_filter (P : Process → Prop) `{∀ p, Decision (P p)} ps :
  arrival_sorted ps → arrival_sorted (filter P ps).
Proof.
  induction 1 as [|p ps Hs IH Hp]; [constructor|].
  rewrite filter_cons. case_decide; [|done].
  constructor; [done|]. by apply Forall_filter_keep.
Qed.

Lemma arrival_sorted_min p ps :
  arrival_sorted (p :: ps) → min_list (arrival <$> p :: ps) = Some (arrival p).
Proof.
  revert p. induction ps as [|q ps IH]; intros p Hs; [done|].
  apply StronglySorted_inv in Hs as [Hs Hp].
  change (min_list (arrival <$> p :: q :: ps))
    with (Some (match min_list (arrival <$> q :: ps) with
                | Some m => Z.min (arrival p) m
                | None => arrival p
                end)).
  rewrite (IH q Hs). apply Forall_cons in Hp as [Hq _]. f_equal. lia.
Qed.

Section SortedBy.
Context {A : Type} (key : A → Z).

Lemma insert_sorted_sorted x l :
  StronglySorted (λ a b, key a ≤ key b) l →
  StronglySorted (λ a b, key a ≤ key b) (insert_sorted (by_key key) x l).
Proof.
  induction 1 as [|y l Hs IH Hy]; simpl; [by repeat constructor|].
  unfold by_key at 1. destruct (Z.leb_spec (key x) (key y)) as [Hle|Hgt].
  - constructor; [by constructor|]. apply Forall_cons. split; [done|].
    eapply Forall_impl; [exact Hy|]. simpl. lia.
  - constructor; [done|]. rewrite insert_sorted_perm.
    apply Forall_cons. split; [lia|done].
Qed.

Lemma sorted_by_sorted l :
  StronglySorted (λ a b, key a ≤ key b) (sorted_by (by_key key) l).
Proof.
  induction l as [|x l IH]; simpl; [constructor|]. by apply insert_sorted_sorted.
Qed.

Lemma sorted_by_head_min l x l' :
  sorted_by (by_key key) l = x :: l' → ∀ y, y ∈ l → key x ≤ key y.
Proof.
  intros Heq y Hy. pose proof (sorted_by_sorted l) as Hs.
  rewrite <- (sorted_by_perm (by_key key) l), Heq in Hy. rewrite Heq in Hs.
  apply StronglySorted_inv in Hs as [_ Hall]. rewrite Forall_forall in Hall.
  apply elem_of_cons in Hy as [->|Hy]; [lia|by apply Hall].
Qed.
End SortedBy.

(** One decision point of SJN when the pending processes are sorted by
    arrival: the processes waiting are the ready ones and every pending one
    that has arrived; if some process waits, one of smallest burst among them
    runs to completion from the current time; if none waits, the clock moves
    to the earliest pending arrival.  The pending list stays sorted. *)
Lemma sjn_body_on_sorted_input s :
  arrival_sorted (sjn_processes s) → sjn_cond s = true →
  let t := sjn_time s in
  let waiting := sjn_ready s ++ filter (λ p, arrival p ≤ t) (sjn_processes s) in
  let pending := filter (λ p, t < arrival p) (sjn_processes s) in
  arrival_sorted (sjn_processes (sjn_body s)) ∧
  ((∃ p rest,
      p :: rest ≡ₚ waiting ∧ (∀ x, x ∈ waiting → burst p ≤ burst x) ∧
      sjn_body s = mkSjn pending rest (t + burst p)
                     (sjn_schedule s ++ [mkSegment (pid p) t (t + burst p)])) ∨
   (∃ a,
      waiting = [] ∧ min_list (arrival <$> pending) = Some a ∧
      sjn_body s = mkSjn pending [] a (sjn_schedule s))).
Proof.
  destruct s as [P R t sch]. unfold sjn_cond, sjn_body. simpl. intros Hs Hcond.
  rewrite (take_arrived_sorted t P R Hs).
  pose proof (sorted_by_perm (by_key burst) (R ++ filter (λ p, arrival p ≤ t) P))
    as Hperm.
  destruct (sorted_by (by_key burst) (R ++ filter (λ p, arrival p ≤ t) P))
    as [|p rest] eqn:Hsort.
  - symmetry in Hperm. apply Permutation_nil_r in Hperm. rewrite Hperm.
    apply app_eq_nil in Hperm as [-> Hnone]. simpl.
    split; [by apply arrival_sorted_filter|]. right.
    pose proof (arrival_sorted_filter (λ p, t < arrival p) P Hs) as Hs'.
    destruct (filter (λ p, t < arrival p) P) as [|q pending] eqn:Hpend.
    + destruct P as [|p0 P]; [done|].
      assert (p0 ∈ filter (λ p, arrival p ≤ t) (p0 :: P) ∨
              p0 ∈ filter (λ p, t < arrival p) (p0 :: P)) as [Hin|Hin].
      { rewrite !list_elem_of_filter. destruct (decide (arrival p0 ≤ t)).
        - left. split; [done|left].
        - right. split; [lia|left]. }
      * rewrite Hnone in Hin. by apply elem_of_nil in Hin.
      * rewrite Hpend in Hin. by apply elem_of_nil in Hin.
    + exists (arrival q). split_and!; [done| |done]. by apply arrival_sorted_min.
  - simpl. split; [by apply arrival_sorted_filter|]. left.
    exists p, rest. split_and!; [done| |done].
    intros x Hx. by eapply (sorted_by_head_min burst).
Qed.

(** ** SJN on input that is not sorted by arrival *)

(** C6, at the failing input [A(arrival 5, burst 10), B(arrival 0, burst 1)]:
    at time 0 process B has arrived, yet the first iteration dispatches
    nothing and moves the clock to 5, the arrival of the head of the list
    rather than the earliest pending arrival; B only starts at 5. *)
Theorem C6_sjn_unsorted_input :
  let ps := [mkProcess "A" 5 10 1; mkProcess "B" 0 1 1] in
  sjn_body (mkSjn ps [] 0 []) = mkSjn ps [] 5 [] ∧
  min_list (arrival <$> ps) = Some 0 ∧
  ∀ fuel : nat,
    sjn_scheduling (4 + fuel) ps = Some [mkSegment "B" 5 6; mkSegment "A" 6 16].
Proof.
  split_and!; [reflexivity..|].
  intros fuel. unfold sjn_scheduling.
  rewrite (while_mono sjn_cond sjn_body 4 (4 + fuel) _
             (mkSjn [] [] 16 [mkSegment "B" 5 6; mkSegment "A" 6 16]));
    [done|reflexivity|lia].
Qed.

(** ** Dictionaries *)

Lemma elem_of_keys_in_order l k : k ∈ keys_in_order l ↔ k ∈ l.
Proof.
  unfold keys_in_order.
  assert (∀ acc, k ∈ foldl (λ acc k, if decide (k ∈ acc) then acc else acc ++ [k])
                       acc l ↔ k ∈ acc ∨ k ∈ l) as H.
  { induction l as [|x l IH]; intros acc; simpl.
    - rewrite elem_of_nil. tauto.
    - rewrite IH, elem_of_cons. destruct (decide (x ∈ acc)) as [Hx|Hx].
      + split; [tauto|]. intros [?|[->|?]]; tauto.
      + rewrite elem_of_app, list_elem_of_singleton. tauto. }
  rewrite H, elem_of_nil. tauto.
Qed.

Section ProcessDict.
Context {V : Type} (val : Process → V).

Lemma dict_of_absent ps d0 id :
  id ∉ (pid <$> ps) → dict_of val d0 ps !! id = d0 !! id.
Proof.
  revert d0. induction ps as [|p ps IH]; intros d0 Hid; [done|].
  rewrite fmap_cons, not_elem_of_cons in Hid. destruct Hid as [Hne Hid].
  unfold dict_of in *. simpl. rewrite IH by done. by rewrite lookup_insert_ne.
Qed.

Lemma dict_of_present ps d0 id :
  id ∈ (pid <$> ps) →
  ∃ p, p ∈ ps ∧ pid p = id ∧ dict_of val d0 ps !! id = Some (val p).
Proof.
  revert d0. induction ps as [|p ps IH]; intros d0 Hid; [by apply elem_of_nil in Hid|].
  destruct (decide (id ∈ (pid <$> ps))) as [Hin|Hout].
  - destruct (IH (<[pid p := val p]> d0) Hin) as (p' & ? & ? & ?).
    exists p'. split; [by right|done].
  - rewrite fmap_cons in Hid. apply elem_of_cons in Hid as [->|?]; [|done].
    exists p. split; [left|]. split; [done|].
    unfold dict_of. simpl. fold (dict_of val (<[pid p := val p]> d0) ps).
    rewrite dict_of_absent by done. apply lookup_insert_eq.
Qed.
End ProcessDict.

Lemma getitem_Some {V} (d : gmap string V) k v : d !! k = Some v → getitem d k = Ok v.
Proof. unfold getitem. by intros ->. Qed.

Lemma dict_comprehension_ok keys cond value :
  (∀ k, k ∈ keys → cond k = true → ∃ v, value k = Ok v) →
  ∃ d, dict_comprehension keys cond value = Ok d.
Proof.
  induction keys as [|k keys IH]; intros H; simpl; [by eexists|].
  destruct IH as [d Hd]. { intros k' Hk'. apply H. by right. }
  destruct (cond k) eqn:Hc; [|by exists d].
  destruct (H k) as [v Hv]; [left|done|]. rewrite Hv, Hd. simpl. by eexists.
Qed.

Lemma dict_comprehension_lookup keys cond value d k v :
  dict_comprehension keys cond value = Ok d →
  d !! k = Some v ↔ k ∈ keys ∧ cond k = true ∧ value k = Ok v.
Proof.
  revert d. induction keys as [|k0 keys IH]; intros d; simpl.
  - intros [= <-]. rewrite lookup_empty, elem_of_nil. split; [done|tauto].
  - destruct (cond k0) eqn:Hc.
    + destruct (value k0) as [v0| |] eqn:Hv0; simpl; try done.
      destruct (dict_comprehension keys cond value) as [d'| |]; simpl; try done.
      intros [= <-]. specialize (IH d' eq_refl). rewrite elem_of_cons.
      destruct (decide (k0 = k)) as [->|Hne].
      * rewrite lookup_insert_eq. split.
        -- intros [= <-]. tauto.
        -- intros (_ & _ & Hv). congruence.
      * rewrite lookup_insert_ne by done. rewrite IH.
        split; [tauto|]. intros ([?|?] & ? & ?); [congruence|tauto].
    + intros Hd. rewrite (IH d Hd), elem_of_cons.
      split; [tauto|]. intros ([->|?] & ? & ?); [congruence|tauto].
Qed.

(** ** The contiguous-run calculator returns when every process has a segment *)

Lemma contiguous_fold_some tl acc id :
  (is_Some (acc.1 !! id) ∨ id ∈ (seg_pid <$> tl)) →
  is_Some ((foldl contiguous_step acc tl).1 !! id).
Proof.
  revert acc. induction tl as [|seg tl IH]; intros [fs ct] H; simpl in *.
  - destruct H as [?|H]; [done|by apply elem_of_nil in H].
  - apply IH. simpl. rewrite elem_of_cons in H.
    destruct (decide (seg_pid seg = id)) as [<-|Hne].
    + left. destruct (fs !! seg_pid seg) eqn:E; [by rewrite E|].
      rewrite lookup_insert_eq. done.
    + destruct (fs !! seg_pid seg); [|rewrite lookup_insert_ne by done];
        destruct H as [?|[?|?]]; try tauto; congruence.
Qed.

Lemma contiguous_fold_completion tl acc id :
  (is_Some (acc.2 !! id) ∨ id ∈ (seg_pid <$> tl)) →
  is_Some ((foldl contiguous_step acc tl).2 !! id).
Proof.
  revert acc. induction tl as [|seg tl IH]; intros [fs ct] H; simpl in *.
  - destruct H as [?|H]; [done|by apply elem_of_nil in H].
  - apply IH. simpl. rewrite elem_of_cons in H.
    destruct (decide (seg_pid seg = id)) as [<-|Hne].
    + left. rewrite lookup_insert_eq. done.
    + rewrite lookup_insert_ne by done. destruct H as [?|[?|?]]; try tauto; congruence.
Qed.

Lemma calculate_waiting_time_covered tl ps :
  (∀ p, p ∈ ps → pid p ∈ (seg_pid <$> tl)) →
  ∃ m, calculate_waiting_time tl ps = Ok m.
Proof.
  intros Hcov. unfold calculate_waiting_time.
  fold (dict_of arrival ∅ ps).
  pose proof (contiguous_fold_some tl (∅, ∅)) as Hfs.
  pose proof (contiguous_fold_completion tl (∅, ∅)) as Hct.
  destruct (foldl contiguous_step (∅, ∅) tl) as [fs ct]. simpl in *.
  assert (Hkey : ∀ k, k ∈ keys_in_order (pid <$> ps) →
            ∃ a f c, dict_of arrival ∅ ps !! k = Some a ∧
                     fs !! k = Some f ∧ ct !! k = Some c).
  { intros k Hk. rewrite elem_of_keys_in_order in Hk.
    destruct (dict_of_present arrival ps ∅ k Hk) as (p & Hp & <- & Hd).
    destruct (Hfs (pid p)) as [f Hf]; [right; by apply Hcov|].
    destruct (Hct (pid p)) as [c Hc]; [right; by apply Hcov|].
    by exists (arrival p), f, c. }
  destruct (dict_comprehension_ok (keys_in_order (pid <$> ps))
              (λ k, bool_decide (is_Some (fs !! k)))
              (λ k, bind (getitem fs k) (λ f,
                    bind (getitem (dict_of arrival ∅ ps) k) (λ a,
                    Ok (Z.max 0 (f - a)))))) as [wt ->].
  { intros k Hk _. destruct (Hkey k Hk) as (a & f & c & Ha & Hf & Hc).
    rewrite (getitem_Some _ _ _ Hf), (getitem_Some _ _ _ Ha). by eexists. }
  destruct (dict_comprehension_ok (keys_in_order (pid <$> ps)) (λ _, true)
              (λ k, bind (getitem ct k) (λ c,
                    bind (getitem (dict_of arrival ∅ ps) k) (λ a,
                    Ok (c - a))))) as [tt ->].
  { intros k Hk _. destruct (Hkey k Hk) as (a & f & c & Ha & Hf & Hc).
    rewrite (getitem_Some _ _ _ Hc), (getitem_Some _ _ _ Ha). by eexists. }
  destruct (dict_comprehension_ok (keys_in_order (pid <$> ps)) (λ _, true)
              (λ k, bind (getitem fs k) (λ f,
                    bind (getitem (dict_of arrival ∅ ps) k) (λ a,
                    Ok (f - a))))) as [rt ->].
  { intros k Hk _. destruct (Hkey k Hk) as (a & f & c & Ha & Hf & Hc).
    rewrite (getitem_Some _ _ _ Hf), (getitem_Some _ _ _ Ha). by eexists. }
  simpl. by eexists.
Qed.

(** ** No validation in the driver *)

Lemma dispatch_pids t l : seg_pid <$> dispatch_in_order t l = pid <$> l.
Proof. revert t. induction l as [|p l IH]; intros t; simpl; [done|]. by rewrite IH. Qed.

Lemma run_simulation_dispatch (le : Process → Process → bool) ps :
  ps ≠ [] →
  ∃ m cpu_util throughput,
    bind (with_metrics calculate_waiting_time ps
            (Ok (dispatch_in_order 0 (sorted_by le ps))))
      (λ '(schedule, metrics),
       bind (match last schedule with Some seg => Ok seg | None => Raise IndexError end)
         (λ last_segment,
       bind (match min_list (arrival <$> ps) with
             | Some a => Ok a
             | None => Raise ValueError
             end)
         (λ first_arrival,
       let total_time := seg_end last_segment - first_arrival in
       let busy_time := sumZ burst ps in
       let cpu_util :=
         if 0 <? total_time
         then (inject_Z busy_time / inject_Z total_time * 100)%Q else 0%Q in
       let throughput :=
         if 0 <? total_time
         then (inject_Z (Z.of_nat (length ps)) / inject_Z total_time)%Q
         else 0%Q in
       Ok (mkSimResult schedule metrics cpu_util throughput))))
    = Ok (mkSimResult (dispatch_in_order 0 (sorted_by le ps)) m cpu_util throughput).
Proof.
  intros Hne. pose proof (sorted_by_perm le ps) as Hperm.
  destruct (calculate_waiting_time_covered (dispatch_in_order 0 (sorted_by le ps)) ps)
    as [m Hm].
  { intros p Hp. rewrite dispatch_pids, Hperm. by apply list_elem_of_fmap_2. }
  unfold with_metrics. simpl. rewrite Hm. simpl.
  destruct (last (dispatch_in_order 0 (sorted_by le ps))) as [seg|] eqn:Hlast.
  - destruct (min_list_is_Some (arrival <$> ps)) as [a ->]; [by destruct ps|].
    simpl. by eexists _, _, _.
  - apply last_None in Hlast. apply (f_equal (fmap seg_pid)) in Hlast.
    rewrite dispatch_pids in Hlast. apply fmap_nil_inv in Hlast.
    by apply sorted_by_nil_inv in Hlast.
Qed.

(** C4, as stated: every invalid input is rejected with an error.  The set
    [P1(0,1,1), P1(0,1,1)], invalid by its duplicated id, is scheduled by FCFS
    and reported on. *)
Lemma C4_invalid_input_counterexample :
  ¬ (∀ fuel ps algo quantum,
       ¬ valid_input ps quantum → ∃ e, run_simulation fuel ps algo quantum = Raise e).
Proof.
  intros H.
  destruct (H 0%nat [mkProcess "P1" 0 1 1; mkProcess "P1" 0 1 1] "FCFS" 2)
    as [e He].
  - intros [(_ & Hnd & _) _]. apply NoDup_cons in Hnd as [Hin _].
    apply Hin. left.
  - vm_compute in He. discriminate.
Qed.

(** C4, amended: [run_simulation] validates nothing.  For every non-empty
    ProcessSet, valid or not, and every quantum, the policies FCFS and
    Priority are run on the input as given and their timeline is returned
    with a report. *)
Theorem C4_no_validation (fuel : nat) (ps : list Process) (quantum : Z) :
  ps ≠ [] →
  (∃ r, run_simulation fuel ps "FCFS" quantum = Ok r ∧
        sim_schedule r = fcfs_scheduling ps) ∧
  (∃ r, run_simulation fuel ps "Priority" quantum = Ok r ∧
        sim_schedule r = priority_scheduling ps).
Proof.
  intros Hne. split.
  - destruct (run_simulation_dispatch (by_key arrival) ps Hne) as (m & c & t & H).
    eexists. split; [exact H|done].
  - destruct (run_simulation_dispatch by_priority_arrival ps Hne) as (m & c & t & H).
    eexists. split; [exact H|done].
Qed.

Lemma C4_no_validation_witness :
  (∃ r, run_simulation 0 [mkProcess "P1" 0 1 1; mkProcess "P1" 0 (-1) 0] "FCFS" 0 = Ok r ∧
        sim_schedule r = fcfs_scheduling [mkProcess "P1" 0 1 1; mkProcess "P1" 0 (-1) 0]) ∧
  (∃ r, run_simulation 0 [mkProcess "P1" 0 1 1; mkProcess "P1" 0 (-1) 0] "Priority" 0 = Ok r ∧
        sim_schedule r = priority_scheduling [mkProcess "P1" 0 1 1; mkProcess "P1" 0 (-1) 0]).
Proof.
  apply (C4_no_validation 0 [mkProcess "P1" 0 1 1; mkProcess "P1" 0 (-1) 0] 0).
  discriminate.
Defined.

(** ** The fragmented-run calculator *)

Lemma segments_of_snoc id tl x :
  segments_of id (tl ++ [x])
  = segments_of id tl ++ (if decide (seg_pid x = id) then [x] else []).
Proof.
  unfold segments_of. by rewrite filter_app.
Qed.

Lemma exec_time_segments id tl : exec_time id tl = sumZ duration (segments_of id tl).
Proof. done. Qed.

Lemma segments_of_nonempty id tl : id ∈ (seg_pid <$> tl) → segments_of id tl ≠ [].
Proof.
  intros Hin Hnil. apply list_elem_of_fmap in Hin as (s & -> & Hs).
  assert (s ∈ segments_of (seg_pid s) tl) as H by (by apply list_elem_of_filter).
  rewrite Hnil in H. by apply elem_of_nil in H.
Qed.

(** What the loop of the fragmented-run calculator has computed for [id]. *)
Lemma fragmented_fold_spec (dict : gmap string (Z * Z)) tl id :
  let acc := foldl (fragmented_step dict) (mkFragAcc ∅ ∅ ∅ ∅) tl in
  acc_completion acc !! id = seg_end <$> last_segment id tl ∧
  acc_first_starts acc !! id = seg_start <$> first_segment id tl ∧
  match dict !! id with
  | None => acc_waiting acc !! id = None
  | Some (a, _) =>
      acc_last_end acc !! id = seg_end <$> last_segment id tl ∧
      acc_waiting acc !! id =
      match first_segment id tl, last_segment id tl with
      | Some s0, Some sl =>
          Some (Z.max 0 (seg_start s0 - a) + (seg_end sl - seg_start s0)
                - exec_time id tl)
      | _, _ => None
      end
  end.
Proof.
  induction tl as [|x tl IH] using rev_ind.
  - simpl. rewrite !lookup_empty. split_and!; try done. by destruct (dict !! id) as [[? ?]|].
  - rewrite foldl_app. simpl.
    set (acc := foldl (fragmented_step dict) (mkFragAcc ∅ ∅ ∅ ∅) tl) in *.
    simpl in IH. destruct IH as (Hc & Hf & Hw).
    unfold first_segment, last_segment in *.
    rewrite exec_time_segments, segments_of_snoc, sumZ_app.
    rewrite <- exec_time_segments.
    unfold fragmented_step.
    destruct (decide (seg_pid x = id)) as [Hid|Hne].
    + (* a segment of [id] *)
      rewrite Hid, Hf, last_snoc. simpl.
      destruct (dict !! id) as [[a b]|] eqn:Hd; simpl.
      * destruct Hw as [Hl Hw]. rewrite Hw, Hl, !lookup_insert_eq.
        destruct (segments_of id tl) as [|s0 F] eqn:HF; simpl.
        -- rewrite lookup_insert_eq. split_and!; try done.
           rewrite exec_time_segments, HF. simpl. unfold duration.
           rewrite ?lookup_insert_eq. f_equal. lia.
        -- destruct (last (s0 :: F)) as [sl|] eqn:Hlast.
           ++ simpl. rewrite ?lookup_insert_eq. split_and!; try done.
              rewrite ?lookup_insert_eq. f_equal. unfold duration. lia.
           ++ by apply last_None in Hlast.
      * rewrite lookup_insert_eq. split_and!; try done.
        destruct (segments_of id tl); simpl in *; [by rewrite lookup_insert_eq|done].
    + (* a segment of another process *)
      rewrite app_nil_r. simpl. rewrite Z.add_0_r.
      assert (Hfs : match acc_first_starts acc !! seg_pid x with
                    | Some _ => acc_first_starts acc
                    | None => <[seg_pid x:=seg_start x]> (acc_first_starts acc)
                    end !! id = acc_first_starts acc !! id).
      { destruct (acc_first_starts acc !! seg_pid x); [done|].
        by rewrite lookup_insert_ne. }
      destruct (dict !! seg_pid x) as [[a' b']|]; simpl;
        rewrite Hfs, ?lookup_insert_ne by done; split_and!; try done.
      destruct (dict !! id) as [[a b]|]; [destruct Hw as [Hl Hw]; split; [done|]|].
      * destruct (acc_waiting acc !! seg_pid x); [|by rewrite lookup_insert_ne].
        destruct (acc_last_end acc !! seg_pid x); [|done].
        by rewrite lookup_insert_ne.
      * destruct (acc_waiting acc !! seg_pid x); [|by rewrite lookup_insert_ne].
        destruct (acc_last_end acc !! seg_pid x); [|done].
        by rewrite lookup_insert_ne.
Qed.

Lemma getitem_Ok {V} (d : gmap string V) k v : getitem d k = Ok v → d !! k = Some v.
Proof. unfold getitem. destruct (d !! k); [by intros [= ->]|done]. Qed.

Lemma dict_comprehension_inv keys cond value d k :
  dict_comprehension keys cond value = Ok d →
  k ∈ keys → cond k = true → ∃ v, value k = Ok v.
Proof.
  revert d. induction keys as [|k0 keys IH]; intros d Hd Hk Hc;
    [by apply elem_of_nil in Hk|].
  simpl in Hd. apply elem_of_cons in Hk as [->|Hk].
  - rewrite Hc in Hd. destruct (value k0) as [v| |]; [by exists v|done..].
  - destruct (cond k0).
    + destruct (value k0); simpl in Hd; try done.
      destruct (dict_comprehension keys cond value) as [d'| |] eqn:Hd'; try done.
      by eapply IH.
    + by eapply IH.
Qed.

Lemma fragmented_returns tl ps :
  covers ps tl → ∃ m, calculate_preemptive_waiting_time tl ps = Ok m.
Proof.
  intros Hcov. unfold calculate_preemptive_waiting_time.
  fold (dict_of (λ p, (arrival p, burst p)) ∅ ps).
  set (dict := dict_of (λ p, (arrival p, burst p)) ∅ ps).
  set (acc := foldl (fragmented_step dict) (mkFragAcc ∅ ∅ ∅ ∅) tl).
  assert (Hkey : ∀ k, k ∈ keys_in_order (pid <$> ps) →
            ∃ a f c, dict !! k = Some a ∧ acc_first_starts acc !! k = Some f ∧
                     acc_completion acc !! k = Some c).
  { intros k Hk. rewrite elem_of_keys_in_order in Hk.
    destruct (dict_of_present (λ p, (arrival p, burst p)) ps ∅ k Hk)
      as (p & Hp & <- & Hd).
    destruct (fragmented_fold_spec dict tl (pid p)) as (Hc & Hf & _). fold acc in Hc, Hf.
    unfold covers in Hcov. rewrite Forall_forall in Hcov.
    pose proof (segments_of_nonempty _ _ (Hcov p Hp)) as Hne.
    unfold first_segment, last_segment in *.
    destruct (segments_of (pid p) tl) as [|s0 F] eqn:HF; [done|].
    destruct (last (s0 :: F)) as [sl|] eqn:Hlast; [|by apply last_None in Hlast].
    eexists _, _, _. split_and!; [exact Hd|exact Hf|exact Hc]. }
  destruct (dict_comprehension_ok (keys_in_order (pid <$> ps)) (λ _, true)
              (λ k, bind (getitem (acc_completion acc) k) (λ c,
                    bind (getitem dict k) (λ a, Ok (c - a.1))))) as [tt ->].
  { intros k Hk _. destruct (Hkey k Hk) as (a & f & c & Ha & Hf & Hc).
    rewrite (getitem_Some _ _ _ Hc), (getitem_Some _ _ _ Ha). by eexists. }
  destruct (dict_comprehension_ok (keys_in_order (pid <$> ps)) (λ _, true)
              (λ k, bind (getitem (acc_first_starts acc) k) (λ f,
                    bind (getitem dict k) (λ a, Ok (f - a.1))))) as [rt ->].
  { intros k Hk _. destruct (Hkey k Hk) as (a & f & c & Ha & Hf & Hc).
    rewrite (getitem_Some _ _ _ Hf), (getitem_Some _ _ _ Ha). by eexists. }
  simpl. by eexists.
Qed.

(** Whenever the fragmented-run calculator returns a report, every process of
    the set has: turnaround = end of its last segment - arrival, and
    waiting = turnaround - executed time. *)
Lemma fragmented_report tl ps m :
  first_start_after_arrival ps tl →
  calculate_preemptive_waiting_time tl ps = Ok m →
  ∀ p, p ∈ ps →
    ∃ p' sl w t,
      p' ∈ ps ∧ pid p' = pid p ∧ last_segment (pid p) tl = Some sl ∧
      waiting_times m !! pid p = Some w ∧
      turnaround_times m !! pid p = Some t ∧
      t = seg_end sl - arrival p' ∧
      w = t - exec_time (pid p) tl.
Proof.
  intros Hfirst Hm p Hp. unfold calculate_preemptive_waiting_time in Hm.
  fold (dict_of (λ p, (arrival p, burst p)) ∅ ps) in Hm.
  set (dict := dict_of (λ p, (arrival p, burst p)) ∅ ps) in *.
  set (acc := foldl (fragmented_step dict) (mkFragAcc ∅ ∅ ∅ ∅) tl) in *.
  destruct (dict_comprehension _ _ _) as [tt| |] eqn:Htt in Hm; try done.
  simpl in Hm.
  destruct (dict_comprehension _ _ _) as [rt| |] eqn:Hrt in Hm; try done.
  simpl in Hm. injection Hm as <-. simpl.
  assert (pid p ∈ keys_in_order (pid <$> ps)) as Hk.
  { rewrite elem_of_keys_in_order. by apply list_elem_of_fmap_2. }
  destruct (dict_comprehension_inv _ _ _ _ _ Htt Hk eq_refl) as [t Ht].
  pose proof (proj2 (dict_comprehension_lookup _ _ _ _ _ t Htt)
                (conj Hk (conj eq_refl Ht))) as Hlook.
  destruct (getitem (acc_completion acc) (pid p)) as [c| |] eqn:Hc; try done.
  simpl in Ht.
  destruct (getitem dict (pid p)) as [[a b]| |] eqn:Ha; try done.
  simpl in Ht. injection Ht as <-.
  apply getitem_Ok in Hc, Ha.
  destruct (dict_of_present (λ p, (arrival p, burst p)) ps ∅ (pid p))
    as (p' & Hp' & Hpid & Hd); [by apply list_elem_of_fmap_2|].
  fold dict in Hd. rewrite Ha in Hd. injection Hd as -> ->.
  destruct (fragmented_fold_spec dict tl (pid p)) as (Hcomp & _ & Hw).
  fold acc in Hcomp, Hw. rewrite Ha in Hw. destruct Hw as [_ Hw].
  rewrite Hc in Hcomp.
  unfold first_start_after_arrival in Hfirst. rewrite Forall_forall in Hfirst.
  specialize (Hfirst p' Hp'). rewrite Hpid in Hfirst.
  unfold first_segment, last_segment in *.
  destruct (segments_of (pid p) tl) as [|s0 F] eqn:HF; [done|].
  destruct (last (s0 :: F)) as [sl|] eqn:Hlast; [|done].
  simpl in Hcomp, Hw. injection Hcomp as ->.
  specialize (Hfirst s0 eq_refl).
  exists p', sl. eexists _, _. split_and!; try done.
  lia.
Qed.

(** C10, as stated (no condition that every process has a segment): on the
    timeline [A[0,1)] and the set [A, B] the calculator raises [KeyError]
    and yields nothing for A. *)
Lemma C10_uncovered_process_counterexample :
  ¬ (∀ tl ps,
       per_process_ordered tl → first_start_after_arrival ps tl →
       ∃ m, calculate_preemptive_waiting_time tl ps = Ok m ∧
            ∀ p, p ∈ ps → pid p ∈ (seg_pid <$> tl) →
                 ∃ w t, waiting_times m !! pid p = Some w ∧
                        turnaround_times m !! pid p = Some t ∧
                        w = t - exec_time (pid p) tl).
Proof.
  intros H.
  destruct (H [mkSegment "A" 0 1] [mkProcess "A" 0 1 1; mkProcess "B" 0 1 1])
    as (m & Hm & _).
  - apply (bool_decide_unpack _). vm_compute. reflexivity.
  - apply Forall_cons; split; [|apply Forall_cons; split; [|by apply Forall_nil]];
      intros s Hs; vm_compute in Hs.
    + injection Hs as <-. simpl. lia.
    + discriminate.
  - vm_compute in Hm. discriminate.
Qed.

(** C10, amended: for every timeline in which every process of the set has at
    least one segment, each process's segments appear in increasing time order
    without overlap, and the first segment of each process starts at or after
    its arrival, the fragmented-run calculator returns a report in which, for
    each process, turnaround = last end - arrival and waiting = turnaround -
    executed time.  (The proof does not need the ordering premise.) *)
Theorem C10_waiting_is_turnaround_minus_execution (tl : Timeline) (ps : list Process) :
  covers ps tl → per_process_ordered tl → first_start_after_arrival ps tl →
  ∃ m, calculate_preemptive_waiting_time tl ps = Ok m ∧
       ∀ p, p ∈ ps →
         ∃ p' sl w t,
           p' ∈ ps ∧ pid p' = pid p ∧ last_segment (pid p) tl = Some sl ∧
           waiting_times m !! pid p = Some w ∧
           turnaround_times m !! pid p = Some t ∧
           t = seg_end sl - arrival p' ∧
           w = t - exec_time (pid p) tl.
Proof.
  intros Hcov _ Hfirst. destruct (fragmented_returns tl ps Hcov) as [m Hm].
  exists m. split; [done|]. by apply fragmented_report.
Qed.

Lemma C10_waiting_is_turnaround_minus_execution_witness :
  let tl := [mkSegment "A" 0 2; mkSegment "B" 2 3; mkSegment "A" 3 4] in
  let ps := [mkProcess "A" 0 3 1; mkProcess "B" 1 1 1] in
  ∃ m, calculate_preemptive_waiting_time tl ps = Ok m ∧
       ∀ p, p ∈ ps →
         ∃ p' sl w t,
           p' ∈ ps ∧ pid p' = pid p ∧ last_segment (pid p) tl = Some sl ∧
           waiting_times m !! pid p = Some w ∧
           turnaround_times m !! pid p = Some t ∧
           t = seg_end sl - arrival p' ∧
           w = t - exec_time (pid p) tl.
Proof.
  apply (C10_waiting_is_turnaround_minus_execution
           [mkSegment "A" 0 2; mkSegment "B" 2 3; mkSegment "A" 3 4]
           [mkProcess "A" 0 3 1; mkProcess "B" 1 1 1]).
  - apply (bool_decide_unpack _). vm_compute. reflexivity.
  - apply (bool_decide_unpack _). vm_compute. reflexivity.
  - apply Forall_cons; split; [|apply Forall_cons; split; [|by apply Forall_nil]];
      intros s Hs; vm_compute in Hs; injection Hs as <-; simpl; lia.
Defined.

(** ** Order of service of the non-preemptive policies *)

Section StableSort.
Context {A : Type} (le : A → A → bool).
Hypothesis le_total : ∀ x y, le x y = true ∨ le y x = true.
Hypothesis le_trans : ∀ x y z, le x y = true → le y z = true → le x z = true.

Lemma insert_sorted_ordered x l :
  StronglySorted (λ a b, le a b = true) l →
  StronglySorted (λ a b, le a b = true) (insert_sorted le x l).
Proof using le_total le_trans.
  induction 1 as [|y l Hs IH Hy]; simpl; [by repeat constructor|].
  destruct (le x y) eqn:Hxy.
  - constructor; [by constructor|]. apply Forall_cons. split; [done|].
    eapply Forall_impl; [exact Hy|]. simpl. intros z Hz. by eapply le_trans.
  - constructor; [done|]. rewrite insert_sorted_perm.
    apply Forall_cons. split; [|done].
    destruct (le_total x y) as [H|H]; [congruence|done].
Qed.

Lemma sorted_by_ordered l :
  StronglySorted (λ a b, le a b = true) (sorted_by le l).
Proof using le_total le_trans.
  induction l as [|x l IH]; simpl; [constructor|]. by apply insert_sorted_ordered.
Qed.

(** A sorted list is left as it is: equal keys keep their order. *)
Lemma sorted_by_id l :
  StronglySorted (λ a b, le a b = true) l → sorted_by le l = l.
Proof.
  induction 1 as [|x l Hs IH Hx]; [done|]. simpl. rewrite IH.
  destruct l as [|y l]; [done|]. simpl.
  apply Forall_cons in Hx as [-> _]. done.
Qed.
End StableSort.

Lemma StronglySorted_weaken {A} (R R' : A → A → Prop) l :
  (∀ x y, R x y → R' x y) → StronglySorted R l → StronglySorted R' l.
Proof.
  intros HR. induction 1 as [|a l Hs IH Ha]; constructor; [done|].
  eapply Forall_impl; [exact Ha|]. apply HR.
Qed.

Lemma StronglySorted_lookup_lt {A} (R : A → A → Prop) l (i j : nat) x y :
  StronglySorted R l → (i < j)%nat → l !! i = Some x → l !! j = Some y → R x y.
Proof.
  intros Hs. revert i j. induction Hs as [|a l Hs IH Ha]; intros i j Hij Hi Hj; [done|].
  destruct j as [|j]; [lia|]. simpl in Hj. destruct i as [|i]; simpl in Hi.
  - injection Hi as ->. rewrite Forall_forall in Ha. apply Ha.
    by eapply list_elem_of_lookup_2.
  - eapply IH; [|done..]. lia.
Qed.

Lemma by_key_total {A} (key : A → Z) x y :
  by_key key x y = true ∨ by_key key y x = true.
Proof. unfold by_key. lia. Qed.

Lemma by_key_trans {A} (key : A → Z) x y z :
  by_key key x y = true → by_key key y z = true → by_key key x z = true.
Proof. unfold by_key. lia. Qed.

Lemma by_priority_arrival_spec p q :
  by_priority_arrival p q = true ↔ priority_then_arrival p q.
Proof.
  unfold by_priority_arrival, priority_then_arrival.
  by rewrite orb_true_iff, andb_true_iff, Z.ltb_lt, Z.eqb_eq, Z.leb_le.
Qed.

Lemma by_priority_arrival_total x y :
  by_priority_arrival x y = true ∨ by_priority_arrival y x = true.
Proof. rewrite !by_priority_arrival_spec. unfold priority_then_arrival. lia. Qed.

Lemma by_priority_arrival_trans x y z :
  by_priority_arrival x y = true → by_priority_arrival y z = true →
  by_priority_arrival x z = true.
Proof. rewrite !by_priority_arrival_spec. unfold priority_then_arrival. lia. Qed.

Lemma dispatch_serves t l : Forall2 serves l (dispatch_in_order t l).
Proof.
  revert t. induction l as [|p l IH]; intros t; simpl; constructor; [|apply IH].
  unfold serves. simpl. split_and!; [done|lia..].
Qed.

(** FCFS serves every process in one piece, in non-decreasing order of
    arrival: its timeline matches, segment by segment, a rearrangement of the
    input that is sorted by arrival. *)
Theorem fcfs_serves_in_arrival_order (ps : list Process) :
  ∃ order, order ≡ₚ ps ∧
           StronglySorted (λ p q, arrival p ≤ arrival q) order ∧
           Forall2 serves order (fcfs_scheduling ps).
Proof.
  exists (sorted_by (by_key arrival) ps). split_and!.
  - apply sorted_by_perm.
  - eapply StronglySorted_weaken;
      [|apply (sorted_by_ordered _ (by_key_total arrival) (by_key_trans arrival))].
    unfold by_key. intros p q. simpl. lia.
  - apply dispatch_serves.
Qed.

(** Priority serves every process in one piece, in the order of the key
    (priority, arrival), smaller first. *)
Theorem priority_serves_in_priority_order (ps : list Process) :
  ∃ order, order ≡ₚ ps ∧
           StronglySorted priority_then_arrival order ∧
           Forall2 serves order (priority_scheduling ps).
Proof.
  exists (sorted_by by_priority_arrival ps). split_and!.
  - apply sorted_by_perm.
  - eapply StronglySorted_weaken;
      [|apply (sorted_by_ordered _ by_priority_arrival_total by_priority_arrival_trans)].
    intros p q. simpl. by rewrite by_priority_arrival_spec.
  - apply dispatch_serves.
Qed.

(** On input already sorted by arrival FCFS keeps the input order, also among
    processes that arrive together. *)
Theorem fcfs_keeps_sorted_input (ps : list Process) :
  arrival_sorted ps → Forall2 serves ps (fcfs_scheduling ps).
Proof.
  intros Hs. unfold fcfs_scheduling. rewrite sorted_by_id; [apply dispatch_serves|].
  eapply StronglySorted_weaken; [|exact Hs]. unfold by_key. intros p q. simpl. lia.
Qed.

Lemma fcfs_keeps_sorted_input_witness :
  Forall2 serves reference_case (fcfs_scheduling reference_case).
Proof.
  apply (fcfs_keeps_sorted_input reference_case).
  unfold arrival_sorted, reference_case. repeat constructor; simpl; lia.
Defined.

Lemma dispatch_precedence (R : Process → Process → Prop) order t :
  (∀ x, R x x) → StronglySorted R order → NoDup (pid <$> order) →
  Forall (λ p, 0 ≤ burst p) order →
  ∀ p p' s s',
    p ∈ order → p' ∈ order → ¬ R p' p →
    s ∈ dispatch_in_order t order → s' ∈ dispatch_in_order t order →
    seg_pid s = pid p → seg_pid s' = pid p' →
    seg_end s ≤ seg_start s'.
Proof.
  intros Hrefl Hs Hnd Hb p p' s s' Hp Hp' HR Hin Hin' Hpid Hpid'.
  pose proof (dispatch_serves t order) as Hserves.
  pose proof (dispatch_chain t order Hb) as Hchain.
  apply list_elem_of_lookup in Hin as [i Hi]. apply list_elem_of_lookup in Hin' as [j Hj].
  destruct (Forall2_lookup_r _ _ _ _ _ Hserves Hi) as (q & Hq & Hsq & _).
  destruct (Forall2_lookup_r _ _ _ _ _ Hserves Hj) as (q' & Hq' & Hsq' & _).
  assert (q = p) as ->.
  { eapply same_pid_same_process; [done| |done|congruence].
    by eapply list_elem_of_lookup_2. }
  assert (q' = p') as ->.
  { eapply same_pid_same_process; [done| |done|congruence].
    by eapply list_elem_of_lookup_2. }
  destruct (lt_eq_lt_dec i j) as [[Hlt|Heq]|Hgt].
  - by eapply chain_ordered.
  - subst j. rewrite Hq in Hq'. injection Hq' as ->. by destruct HR.
  - destruct HR. by eapply (StronglySorted_lookup_lt R order j i).
Qed.

(** FCFS: a process that arrives strictly earlier is served, to completion,
    before one that arrives later. *)
Theorem fcfs_earlier_arrival_first (ps : list Process) (p p' : Process) (s s' : Segment) :
  NoDup (pid <$> ps) → Forall (λ p, 0 ≤ burst p) ps →
  p ∈ ps → p' ∈ ps → arrival p < arrival p' →
  s ∈ fcfs_scheduling ps → s' ∈ fcfs_scheduling ps →
  seg_pid s = pid p → seg_pid s' = pid p' →
  seg_end s ≤ seg_start s'.
Proof.
  intros Hnd Hb Hp Hp' Harr. unfold fcfs_scheduling.
  pose proof (sorted_by_perm (by_key arrival) ps) as Hperm.
  apply (dispatch_precedence (λ p q, arrival p ≤ arrival q)); simpl.
  - intros x. lia.
  - eapply StronglySorted_weaken;
      [|apply (sorted_by_ordered _ (by_key_total arrival) (by_key_trans arrival))].
    unfold by_key. intros x y. simpl. lia.
  - by rewrite Hperm.
  - by rewrite Hperm.
  - by rewrite Hperm.
  - by rewrite Hperm.
  - lia.
Qed.

Lemma fcfs_earlier_arrival_first_witness :
  seg_end (mkSegment "P1" 0 24) ≤ seg_start (mkSegment "P3" 27 30).
Proof.
  apply (fcfs_earlier_arrival_first reference_case
           (mkProcess "P1" 0 24 1) (mkProcess "P3" 2 3 1)).
  - apply (bool_decide_unpack _). vm_compute. reflexivity.
  - apply (bool_decide_unpack _). vm_compute. reflexivity.
  - left.
  - right. right. left.
  - simpl. lia.
  - left.
  - right. right. left.
  - reflexivity.
  - reflexivity.
Defined.

(** Priority: a process with a strictly smaller priority value is served, to
    completion, before one with a larger value, whatever their arrivals. *)
Theorem priority_smaller_value_first
    (ps : list Process) (p p' : Process) (s s' : Segment) :
  NoDup (pid <$> ps) → Forall (λ p, 0 ≤ burst p) ps →
  p ∈ ps → p' ∈ ps → priority p < priority p' →
  s ∈ priority_scheduling ps → s' ∈ priority_scheduling ps →
  seg_pid s = pid p → seg_pid s' = pid p' →
  seg_end s ≤ seg_start s'.
Proof.
  intros Hnd Hb Hp Hp' Hprio. unfold priority_scheduling.
  pose proof (sorted_by_perm by_priority_arrival ps) as Hperm.
  apply (dispatch_precedence priority_then_arrival).
  - intros x. unfold priority_then_arrival. lia.
  - eapply StronglySorted_weaken;
      [|apply (sorted_by_ordered _ by_priority_arrival_total by_priority_arrival_trans)].
    intros x y. simpl. by rewrite by_priority_arrival_spec.
  - by rewrite Hperm.
  - by rewrite Hperm.
  - by rewrite Hperm.
  - by rewrite Hperm.
  - unfold priority_then_arrival. lia.
Qed.

(** The late arrival with the better priority makes the CPU wait: A, arrived
    at 0, only runs once B, which arrives at 10, is done. *)
Lemma priority_smaller_value_first_witness :
  seg_end (mkSegment "B" 10 12) ≤ seg_start (mkSegment "A" 12 15).
Proof.
  apply (priority_smaller_value_first
           [mkProcess "A" 0 3 2; mkProcess "B" 10 2 1]
           (mkProcess "B" 10 2 1) (mkProcess "A" 0 3 2)).
  - apply (bool_decide_unpack _). vm_compute. reflexivity.
  - apply (bool_decide_unpack _). vm_compute. reflexivity.
  - right. left.
  - left.
  - simpl. lia.
  - left.
  - right. left.
  - reflexivity.
  - reflexivity.
Defined.

(** ** SJN: one segment per process *)

Lemma sjn_measure_decreases s :
  sjn_cond s = true → (sjn_measure (sjn_body s) < sjn_measure s)%nat.
Proof.
  destruct s as [P R t sch]. unfold sjn_body, sjn_cond, sjn_measure. simpl.
  intros Hcond.
  destruct (take_arrived arrival t P R) as [P' R'] eqn:Hadm.
  apply take_arrived_spec in Hadm as (moved & -> & -> & Hmoved & Hhd).
  pose proof (sorted_by_perm (by_key burst) (R ++ moved)) as Hperm.
  destruct (sorted_by (by_key burst) (R ++ moved)) as [|p R''] eqn:Hsort.
  - symmetry in Hperm. apply Permutation_nil_r in Hperm.
    apply app_eq_nil in Hperm as [-> ->]. simpl in *.
    destruct P' as [|p P']; [done|]. simpl.
    destruct (Z.ltb_spec t (arrival p)); [|lia].
    destruct (Z.ltb_spec (arrival p) (arrival p)); lia.
  - apply Permutation_length in Hperm. rewrite !length_app in *. simpl in *.
    destruct R'' as [|? ?], P' as [|? ?]; simpl in *; try destruct (_ <? _); lia.
Qed.

Lemma sjn_served_step ps s :
  served (sjn_schedule s) ++ demands (sjn_processes s ++ sjn_ready s) ≡ₚ demands ps →
  served (sjn_schedule (sjn_body s))
    ++ demands (sjn_processes (sjn_body s) ++ sjn_ready (sjn_body s)) ≡ₚ demands ps.
Proof.
  destruct s as [P R t sch]. unfold sjn_body. simpl. intros Hinv.
  destruct (take_arrived arrival t P R) as [P' R'] eqn:Hadm.
  apply take_arrived_spec in Hadm as (moved & -> & -> & Hmoved & Hhd).
  pose proof (sorted_by_perm (by_key burst) (R ++ moved)) as Hperm.
  destruct (sorted_by (by_key burst) (R ++ moved)) as [|p R''] eqn:Hsort; simpl.
  - rewrite <- Hinv. unfold demands. rewrite !fmap_app. solve_Permutation.
  - rewrite <- Hinv. unfold served, demands, duration in *.
    apply (fmap_Permutation (λ p, (pid p, burst p))) in Hperm.
    rewrite !fmap_app in *. simpl in *.
    replace (t + burst p - t) with (burst p) by lia.
    trans ((((λ s, (seg_pid s, seg_end s - seg_start s)) <$> sch)
            ++ ((λ p, (pid p, burst p)) <$> P'))
           ++ ((pid p, burst p) :: ((λ p, (pid p, burst p)) <$> R'')));
      [solve_Permutation|].
    rewrite Hperm. solve_Permutation.
Qed.

Lemma sjn_served_run (ps : list Process) :
  ∃ tl, served tl ≡ₚ demands ps ∧
        ∀ fuel, (sjn_measure (mkSjn ps [] 0 []) < fuel)%nat →
                sjn_scheduling fuel ps = Some tl.
Proof.
  unfold sjn_scheduling.
  destruct (while_total sjn_cond sjn_body
              (λ s, served (sjn_schedule s) ++ demands (sjn_processes s ++ sjn_ready s)
                    ≡ₚ demands ps)
              sjn_measure) with (s := mkSjn ps [] 0 []) as (r & Hr & Hc & Hrun).
  - intros s Hinv Hcond. split; [by apply sjn_served_step|by apply sjn_measure_decreases].
  - simpl. by rewrite app_nil_r.
  - exists (sjn_schedule r). split.
    + destruct r as [P R t sch]. unfold sjn_cond in Hc. simpl in *.
      destruct P, R; try done. by rewrite app_nil_r in Hr.
    + intros fuel Hf. by rewrite Hrun.
Qed.

(** SJN, on any input (any order of arrivals, any bursts), returns a timeline
    with exactly one segment per process, of the length of its burst. *)
Theorem sjn_one_segment_per_process (ps : list Process) :
  ∃ tl, returns (λ fuel, of_option (sjn_scheduling fuel ps)) tl ∧
        served tl ≡ₚ demands ps.
Proof.
  destruct (sjn_served_run ps) as (tl & Hserved & Hrun).
  exists tl. split; [by eapply returns_of_option|done].
Qed.

(** A run of the decision point of SJN on sorted input ([sjn_body_on_sorted_input]):
    the first iteration on the reference case. *)
Lemma sjn_body_on_sorted_input_witness :
  let s := mkSjn reference_case [] 0 [] in
  let t := sjn_time s in
  let waiting := sjn_ready s ++ filter (λ p, arrival p ≤ t) (sjn_processes s) in
  let pending := filter (λ p, t < arrival p) (sjn_processes s) in
  arrival_sorted (sjn_processes (sjn_body s)) ∧
  ((∃ p rest,
      p :: rest ≡ₚ waiting ∧ (∀ x, x ∈ waiting → burst p ≤ burst x) ∧
      sjn_body s = mkSjn pending rest (t + burst p)
                     (sjn_schedule s ++ [mkSegment (pid p) t (t + burst p)])) ∨
   (∃ a,
      waiting = [] ∧ min_list (arrival <$> pending) = Some a ∧
      sjn_body s = mkSjn pending [] a (sjn_schedule s))).
Proof.
  apply (sjn_body_on_sorted_input (mkSjn reference_case [] 0 [])).
  - unfold arrival_sorted, reference_case. repeat constructor; simpl; lia.
  - reflexivity.
Defined.

(** ** Round Robin: more on the loop *)

Lemma ceil_div_step b q : 1 ≤ q → q < b → ceil_div b q = 1 + ceil_div (b - q) q.
Proof.
  intros Hq Hb. unfold ceil_div.
  replace (b + q - 1) with ((b - q + q - 1) + 1 * q) by lia.
  rewrite Z.div_add by lia. lia.
Qed.

Lemma ceil_div_one b q : 1 ≤ b → b ≤ q → ceil_div b q = 1.
Proof.
  intros Hb Hq. unfold ceil_div. symmetry.
  apply (Z.div_unique_pos _ _ _ (b - 1)); lia.
Qed.

Lemma rr_count_step quantum ps id s :
  1 ≤ quantum → rr_cond s = true →
  Forall (λ p, 1 ≤ burst p) (rr_queue s) ∧
  Z.of_nat (length (segments_of id (rr_schedule s)))
  + sum_for pid (λ p, ceil_div (burst p) quantum) id (rr_queue s)
  = sum_for pid (λ p, ceil_div (burst p) quantum) id ps →
  Forall (λ p, 1 ≤ burst p) (rr_queue (rr_body quantum s)) ∧
  Z.of_nat (length (segments_of id (rr_schedule (rr_body quantum s))))
  + sum_for pid (λ p, ceil_div (burst p) quantum) id (rr_queue (rr_body quantum s))
  = sum_for pid (λ p, ceil_div (burst p) quantum) id ps.
Proof.
  destruct s as [queue t sch]. unfold rr_cond, rr_body. simpl.
  destruct queue as [|p queue]; [done|]. intros Hq _ [Hb Hcount]. simpl.
  apply Forall_cons in Hb as [Hp Hb].
  rewrite segments_of_snoc, length_app. simpl.
  rewrite sum_for_cons in Hcount.
  destruct (Z.ltb_spec 0 (burst p - Z.min quantum (burst p))) as [Hlt|Hge].
  - assert (quantum < burst p) as Hlong by lia.
    rewrite Z.min_l in * by lia. split.
    + apply Forall_app. split; [done|]. apply Forall_singleton. simpl. lia.
    + rewrite sum_for_app, sum_for_cons, sum_for_nil. simpl.
      rewrite (ceil_div_step (burst p) quantum) in Hcount by lia.
      case_decide; simpl; lia.
  - split; [done|].
    rewrite (ceil_div_one (burst p) quantum) in Hcount by lia.
    case_decide; simpl; lia.
Qed.

(** Round Robin gives each process as many segments as its burst needs slices
    of the quantum: the ceiling of burst / quantum. *)
Theorem round_robin_segment_count (ps : list Process) (quantum : Z) (p : Process) :
  valid_process_set ps → 1 ≤ quantum → p ∈ ps →
  ∃ tl, returns (λ fuel, of_option (round_robin_scheduling fuel ps quantum)) tl ∧
        Z.of_nat (length (segments_of (pid p) tl)) = ceil_div (burst p) quantum.
Proof.
  intros Hv Hq Hp. pose proof (valid_process_set_bounds ps Hv) as Hb.
  destruct Hv as (Hne & Hnd & _).
  destruct (run_policy_spec RoundRobin ps quantum Hne Hb Hq) as (tl & Hret & _).
  exists tl. split; [done|].
  destruct Hret as [n Hn]. specialize (Hn n (le_n _)). simpl in Hn.
  unfold round_robin_scheduling in Hn.
  destruct (while rr_cond (rr_body quantum) n (mkRR ps 0 [])) as [r|] eqn:Hrun;
    [|done].
  injection Hn as <-.
  apply (while_invariant _ _
           (λ s, Forall (λ p, 1 ≤ burst p) (rr_queue s) ∧
                 Z.of_nat (length (segments_of (pid p) (rr_schedule s)))
                 + sum_for pid (λ p, ceil_div (burst p) quantum) (pid p) (rr_queue s)
                 = sum_for pid (λ p, ceil_div (burst p) quantum) (pid p) ps))
    in Hrun as [[_ Hcount] Hc].
  - destruct r as [queue t sch]. unfold rr_cond in Hc. simpl in *.
    destruct queue; [|done]. rewrite sum_for_nil in Hcount.
    rewrite (sum_for_unique pid (λ p, ceil_div (burst p) quantum) p ps Hnd Hp) in Hcount.
    lia.
  - intros s Hinv Hcond. by apply rr_count_step.
  - simpl. split; [|done]. eapply Forall_impl; [exact Hb|]. simpl. tauto.
Qed.

Lemma round_robin_segment_count_witness :
  ∃ tl, returns (λ fuel, of_option (round_robin_scheduling fuel reference_case 2)) tl ∧
        Z.of_nat (length (segments_of (pid (mkProcess "P2" 1 3 1)) tl))
        = ceil_div (burst (mkProcess "P2" 1 3 1)) 2.
Proof.
  apply (round_robin_segment_count reference_case 2 (mkProcess "P2" 1 3 1)).
  - apply (bool_decide_unpack _). vm_compute. reflexivity.
  - lia.
  - right. left.
Defined.

Lemma rr_whole_bursts quantum :
  ∀ queue t sch, Forall (λ p, burst p ≤ quantum) queue →
    ∀ fuel, (length queue < fuel)%nat →
      rr_schedule <$> while rr_cond (rr_body quantum) fuel (mkRR queue t sch)
      = Some (sch ++ dispatch_in_order t queue).
Proof.
  induction queue as [|p queue IH]; intros t sch Hb fuel Hf.
  - destruct fuel as [|fuel]; [simpl in Hf; lia|]. simpl. by rewrite app_nil_r.
  - destruct fuel as [|fuel]; [lia|]. simpl in Hf.
    apply Forall_cons in Hb as [Hp Hb].
    rewrite while_step. change (rr_cond _) with true. cbv iota.
    unfold rr_body. simpl. rewrite Z.min_r by lia. rewrite Z.sub_diag. simpl.
    rewrite IH; [|done|lia]. by rewrite <- app_assoc.
Qed.

(** With a quantum that no burst exceeds, Round Robin never cuts a run: it
    serves the processes one after the other in the order of the input list,
    as the dispatch loop of FCFS does without its sort. *)
Theorem round_robin_large_quantum (ps : list Process) (quantum : Z) :
  Forall (λ p, burst p ≤ quantum) ps →
  returns (λ fuel, of_option (round_robin_scheduling fuel ps quantum))
    (dispatch_in_order 0 ps).
Proof.
  intros Hb. exists (S (length ps)). intros fuel Hf.
  unfold round_robin_scheduling. rewrite (rr_whole_bursts quantum ps 0 [] Hb); [done|lia].
Qed.

Lemma round_robin_large_quantum_witness :
  returns (λ fuel, of_option (round_robin_scheduling fuel reference_case 24))
    (dispatch_in_order 0 reference_case).
Proof.
  apply (round_robin_large_quantum reference_case 24).
  apply (bool_decide_unpack _). vm_compute. reflexivity.
Defined.

(** With a quantum of zero or less no process ever loses burst, so Round Robin
    never returns: every iteration budget is exhausted. *)
Theorem round_robin_nonpositive_quantum_diverges
    (ps : list Process) (quantum : Z) (fuel : nat) :
  quantum ≤ 0 → ps ≠ [] → Forall (λ p, 1 ≤ burst p) ps →
  round_robin_scheduling fuel ps quantum = None.
Proof.
  intros Hq Hne Hb. unfold round_robin_scheduling.
  assert (∀ s, rr_queue s ≠ [] → Forall (λ p, 1 ≤ burst p) (rr_queue s) →
               while rr_cond (rr_body quantum) fuel s = None) as H.
  { induction fuel as [|fuel IH]; intros s Hs Hbs; [done|].
    rewrite while_step. destruct s as [queue t sch].
    destruct queue as [|p queue]; [done|].
    change (rr_cond _) with true. cbv iota. simpl in Hbs.
    apply Forall_cons in Hbs as [Hp Hbs].
    apply IH; unfold rr_body; simpl;
      (destruct (Z.ltb_spec 0 (burst p - Z.min quantum (burst p))); [|lia]).
    - by destruct queue.
    - apply Forall_app. split; [done|]. apply Forall_singleton. simpl. lia. }
  by rewrite H.
Qed.

Lemma round_robin_nonpositive_quantum_diverges_witness :
  round_robin_scheduling 1000 reference_case 0 = None.
Proof.
  apply (round_robin_nonpositive_quantum_diverges reference_case 0 1000).
  - lia.
  - discriminate.
  - apply (bool_decide_unpack _). vm_compute. reflexivity.
Defined.

Lemma rr_schedule_grows quantum fuel s r :
  while rr_cond (rr_body quantum) fuel s = Some r →
  ∃ more, rr_schedule r = rr_schedule s ++ more.
Proof.
  revert s. induction fuel as [|fuel IH]; intros s; [done|].
  rewrite while_step. destruct (rr_cond s) eqn:Hc.
  - intros Hrun. apply IH in Hrun as [more Hmore]. rewrite Hmore.
    destruct s as [queue t sch]. unfold rr_cond, rr_body in *. simpl in *.
    destruct queue as [|p queue]; [done|]. simpl. rewrite <- app_assoc. by eexists.
  - intros [= <-]. exists []. by rewrite app_nil_r.
Qed.

(** Round Robin queues every process at the start, whatever its arrival: the
    first segment always belongs to the first process of the input list and
    starts at its arrival, even when later entries of the list arrived
    earlier. *)
Theorem round_robin_starts_with_first_input
    (p : Process) (rest : list Process) (quantum : Z) (fuel : nat) (tl : Timeline) :
  round_robin_scheduling fuel (p :: rest) quantum = Some tl →
  head tl = Some (mkSegment (pid p) (Z.max 0 (arrival p))
                    (Z.max 0 (arrival p) + Z.min quantum (burst p))).
Proof.
  unfold round_robin_scheduling. destruct fuel as [|fuel]; [done|].
  rewrite while_step. change (rr_cond _) with true. cbv iota.
  destruct (while _ _ _ _) as [r|] eqn:Hrun; [|done]. intros [= <-].
  apply rr_schedule_grows in Hrun as [more ->]. done.
Qed.

Lemma round_robin_starts_with_first_input_witness :
  head [mkSegment "A" 5 6; mkSegment "B" 6 7]
  = Some (mkSegment (pid (mkProcess "A" 5 1 1)) (Z.max 0 (arrival (mkProcess "A" 5 1 1)))
            (Z.max 0 (arrival (mkProcess "A" 5 1 1))
             + Z.min 2 (burst (mkProcess "A" 5 1 1)))).
Proof.
  apply (round_robin_starts_with_first_input
           (mkProcess "A" 5 1 1) [mkProcess "B" 0 1 1] 2 3).
  reflexivity.
Defined.

(** ** The preemptive policies: unit steps *)

(** Every iteration either leaves the schedule alone (idle step) or appends
    one segment for a job [j] of the state, of length [min 1 remaining]. *)
Lemma preemptive_body_schedule key s :
  pre_schedule (preemptive_body key s) = pre_schedule s ∨
  ∃ j, j ∈ jobs_of s ∧
       pre_schedule (preemptive_body key s)
       = pre_schedule s
         ++ [mkSegment (job_pid j) (pre_time s)
               (pre_time s + Z.min 1 (job_remaining j))].
Proof.
  destruct s as [P R A t sch]. unfold preemptive_body, jobs_of. simpl.
  destruct (take_arrived job_arrival t P R) as [P1 R1] eqn:Hadm.
  apply take_arrived_spec in Hadm as (moved & -> & -> & Hmoved & Hhd).
  destruct (select_active key A (R ++ moved)) as [A1 R2] eqn:Hsel.
  apply select_active_spec in Hsel as [(-> & -> & Hnil & ->)|(j & -> & Hsel)].
  - by left.
  - right. exists j. split.
    + assert (j ∈ (R ++ moved) ++ option_list A) as Hj by (rewrite <- Hsel; left).
      rewrite !elem_of_app in *. tauto.
    + destruct (run_slice_spec key j P1 R2 t sch) as (new & P2 & R3 & A' & -> & _).
      done.
Qed.

Lemma run_slice_Forall (Q : Job → Prop) key j P R t sch :
  Forall Q P → Forall Q R →
  (let j' := with_remaining j (job_remaining j - Z.min 1 (job_remaining j)) in
   (job_remaining j' ≠ 0 ∨ ∃ r, r ∈ R ++ P ∧ key r < key j') → Q j') →
  Forall Q (jobs_of (run_slice key j P R t sch)).
Proof.
  intros HP HR Hj. unfold run_slice, jobs_of. rewrite time_slice_of_eq.
  set (ts := Z.min 1 (job_remaining j)) in *.
  set (j' := with_remaining j (job_remaining j - ts)) in *. simpl in Hj.
  assert (Hcarry : Forall Q (option_list
            (if job_remaining j - ts =? 0 then None else Some j'))).
  { destruct (Z.eqb_spec (job_remaining j - ts) 0); simpl; [done|].
    apply Forall_singleton. apply Hj. by left. }
  assert (Hlate : Forall Q (filter (λ p, t + ts < job_arrival p) P))
    by (by apply Forall_filter_keep).
  destruct (filter (λ p, job_arrival p ≤ t + ts) P) as [|n new] eqn:Hfil; simpl.
  - rewrite !Forall_app. done.
  - assert (Forall Q (R ++ n :: new)) as Hall.
    { apply Forall_app. split; [done|]. rewrite <- Hfil. by apply Forall_filter_keep. }
    pose proof (sorted_by_perm (by_key key) (R ++ n :: new)) as Hperm.
    assert (∀ x, x ∈ sorted_by (by_key key) (R ++ n :: new) → x ∈ R ++ P) as Hsub.
    { intros x Hx. rewrite Hperm in Hx. rewrite elem_of_app in *.
      destruct Hx as [?|Hx]; [tauto|]. right. rewrite <- Hfil in Hx.
      by apply list_elem_of_filter in Hx as [_ ?]. }
    rewrite <- Hperm in Hall.
    destruct (sorted_by (by_key key) (R ++ n :: new)) as [|r R3]; simpl.
    + rewrite !Forall_app. done.
    + apply Forall_cons in Hall as [Hr Hall].
      destruct (Z.ltb_spec (key r) (key j')); simpl.
      * rewrite !Forall_app. split_and!; try done.
        -- apply Forall_singleton. apply Hj. right. exists r. split; [|done].
           apply Hsub. left.
        -- by apply Forall_singleton.
      * rewrite Forall_app. split; [done|]. apply Forall_cons. split; [done|].
        rewrite Forall_app. done.
Qed.

(** SRTF never keeps a job without remaining time. *)
Lemma srtf_remaining_positive s :
  Forall (λ j, 1 ≤ job_remaining j) (jobs_of s) →
  Forall (λ j, 1 ≤ job_remaining j) (jobs_of (preemptive_body job_remaining s)).
Proof.
  destruct s as [P R A t sch]. unfold preemptive_body, jobs_of at 1. simpl.
  intros Hall.
  destruct (take_arrived job_arrival t P R) as [P1 R1] eqn:Hadm.
  apply take_arrived_spec in Hadm as (moved & -> & -> & Hmoved & Hhd).
  destruct (select_active job_remaining A (R ++ moved)) as [A1 R2] eqn:Hsel.
  rewrite !Forall_app in Hall. destruct Hall as ((Hm & HP1) & HR & HA).
  apply select_active_spec in Hsel as [(-> & -> & Hnil & ->)|(j & -> & Hsel)].
  - unfold jobs_of. simpl. apply app_eq_nil in Hnil as [-> ->].
    rewrite app_nil_r. done.
  - assert (Forall (λ j, 1 ≤ job_remaining j) (j :: R2)) as Hjr.
    { rewrite Hsel, !Forall_app. done. }
    apply Forall_cons in Hjr as [Hj HR2].
    apply run_slice_Forall; [done..|]. simpl.
    intros [Hnz|(r & Hr & Hlt)]; [lia|].
    assert (1 ≤ job_remaining r); [|lia].
    rewrite elem_of_app in Hr. rewrite Forall_forall in HR2, HP1.
    destruct Hr; auto.
Qed.

Lemma unit_segments_count id tl :
  Forall (λ x, duration x = 1) tl →
  exec_time id tl = Z.of_nat (length (segments_of id tl)).
Proof.
  intros H. rewrite exec_time_segments.
  assert (Forall (λ x, duration x = 1) (segments_of id tl)) as Hseg
    by (by apply Forall_filter_keep).
  induction Hseg as [|x l Hx _ IH]; [done|]. simpl. lia.
Qed.

(** SRTF runs in unit steps: every segment lasts exactly one time unit, so a
    process gets as many segments as its burst. *)
Theorem srtf_unit_segments (ps : list Process) :
  valid_process_set ps →
  ∃ tl, returns (λ fuel, sjn_preemptive_scheduling fuel ps) tl ∧
        Forall (λ x, seg_end x = seg_start x + 1) tl ∧
        ∀ p, p ∈ ps → Z.of_nat (length (segments_of (pid p) tl)) = burst p.
Proof.
  intros Hv. pose proof (valid_process_set_bounds ps Hv) as Hb.
  destruct Hv as (Hne & Hnd & _).
  destruct (run_policy_spec SJN_Preemptive ps 1 Hne Hb ltac:(lia))
    as (tl & Hret & Hex & _).
  exists tl. split; [done|].
  assert (Forall (λ x, duration x = 1) tl) as Hunit.
  { destruct Hret as [n Hn]. specialize (Hn n (le_n _)). simpl in Hn.
    unfold sjn_preemptive_scheduling, preemptive_scheduling in Hn.
    destruct (min_list _) as [t0|]; [|done].
    destruct (while _ _ n _) as [r|] eqn:Hrun; [|done]. injection Hn as <-.
    apply (while_invariant _ _
             (λ s, Forall (λ j, 1 ≤ job_remaining j) (jobs_of s) ∧
                   Forall (λ x, duration x = 1) (pre_schedule s)))
      in Hrun as [[_ Hdur] _]; [done| |].
    - intros s [Hrem Hdur] _. split; [by apply srtf_remaining_positive|].
      destruct (preemptive_body_schedule job_remaining s) as [->|(j & Hj & ->)];
        [done|].
      apply Forall_app. split; [done|]. apply Forall_singleton.
      rewrite Forall_forall in Hrem. specialize (Hrem j Hj).
      unfold duration. simpl. lia.
    - unfold jobs_of. simpl. rewrite app_nil_r. split; [|done].
      apply Forall_fmap. eapply Forall_impl; [exact Hb|]. simpl. tauto. }
  split.
  - eapply Forall_impl; [exact Hunit|]. unfold duration. simpl. lia.
  - intros p Hp. rewrite <- unit_segments_count by done. rewrite Hex.
    unfold total_burst. by apply sum_for_unique.
Qed.

Lemma srtf_unit_segments_witness :
  ∃ tl, returns (λ fuel, sjn_preemptive_scheduling fuel reference_case) tl ∧
        Forall (λ x, seg_end x = seg_start x + 1) tl ∧
        ∀ p, p ∈ reference_case →
             Z.of_nat (length (segments_of (pid p) tl)) = burst p.
Proof.
  apply (srtf_unit_segments reference_case).
  apply (bool_decide_unpack _). vm_compute. reflexivity.
Defined.

Lemma preemptive_unit_steps
    (key : Job → Z) (ps : list Process) (fuel : nat) (tl : Timeline) :
  Forall (λ p, 0 ≤ burst p) ps →
  preemptive_scheduling key fuel ps = Ok tl →
  Forall (λ x, seg_end x = seg_start x ∨ seg_end x = seg_start x + 1) tl.
Proof.
  intros Hb. unfold preemptive_scheduling.
  destruct (min_list _) as [t0|]; [|done].
  destruct (while _ _ fuel _) as [r|] eqn:Hrun; [|done]. intros [= <-].
  apply (while_invariant _ _
           (λ s, Forall (λ j, 0 ≤ job_remaining j) (jobs_of s) ∧
                 Forall (λ x, seg_end x = seg_start x ∨ seg_end x = seg_start x + 1)
                   (pre_schedule s)))
    in Hrun as [[_ Hdur] _]; [done| |].
  - intros s [Hrem Hdur] _. split.
    + destruct s as [P R A t sch]. unfold preemptive_body, jobs_of at 1. simpl.
      unfold jobs_of in Hrem. simpl in Hrem.
      destruct (take_arrived job_arrival t P R) as [P1 R1] eqn:Hadm.
      apply take_arrived_spec in Hadm as (moved & -> & -> & Hmoved & Hhd).
      destruct (select_active key A (R ++ moved)) as [A1 R2] eqn:Hsel.
      rewrite !Forall_app in Hrem. destruct Hrem as ((Hm & HP1) & HR & HA).
      apply select_active_spec in Hsel as [(-> & -> & Hnil & ->)|(j & -> & Hsel)].
      * unfold jobs_of. simpl. apply app_eq_nil in Hnil as [-> ->].
        rewrite app_nil_r. done.
      * assert (Forall (λ j, 0 ≤ job_remaining j) (j :: R2)) as Hjr.
        { rewrite Hsel, !Forall_app. done. }
        apply Forall_cons in Hjr as [Hj HR2].
        apply run_slice_Forall; [done..|]. simpl. intros _. lia.
    + destruct (preemptive_body_schedule key s) as [->|(j & Hj & ->)]; [done|].
      apply Forall_app. split; [done|]. apply Forall_singleton.
      rewrite Forall_forall in Hrem. specialize (Hrem j Hj). simpl. lia.
  - unfold jobs_of. simpl. rewrite app_nil_r. split; [|done].
    apply Forall_fmap. eapply Forall_impl; [exact Hb|]. done.
Qed.

(** Priority with preemption steps by at most one time unit: every segment has
    length one or, for a finished job that was put back in the queue, zero. *)
Theorem priority_preemptive_segments_at_most_unit
    (ps : list Process) (fuel : nat) (tl : Timeline) :
  Forall (λ p, 0 ≤ burst p) ps →
  priority_preemptive_scheduling fuel ps = Ok tl →
  Forall (λ x, seg_end x = seg_start x ∨ seg_end x = seg_start x + 1) tl.
Proof. apply preemptive_unit_steps. Qed.

Lemma priority_preemptive_segments_at_most_unit_witness :
  Forall (λ x, seg_end x = seg_start x ∨ seg_end x = seg_start x + 1)
    [mkSegment "A" 0 1; mkSegment "B" 1 2; mkSegment "A" 2 2].
Proof.
  apply (priority_preemptive_segments_at_most_unit
           [mkProcess "A" 0 1 5; mkProcess "B" 1 1 1] 4).
  - apply (bool_decide_unpack _). vm_compute. reflexivity.
  - reflexivity.
Defined.

(** ** The calculators: when they return and what they report *)

Lemma contiguous_fold_spec tl id :
  (foldl contiguous_step (∅, ∅) tl).1 !! id = seg_start <$> first_segment id tl ∧
  (foldl contiguous_step (∅, ∅) tl).2 !! id = seg_end <$> last_segment id tl.
Proof.
  induction tl as [|x tl IH] using rev_ind; [done|].
  rewrite foldl_app. simpl.
  destruct (foldl contiguous_step (∅, ∅) tl) as [fs ct]. simpl in *.
  destruct IH as [Hf Hc]. unfold first_segment, last_segment in *.
  rewrite segments_of_snoc.
  destruct (decide (seg_pid x = id)) as [Hid|Hne].
  - rewrite Hid, last_snoc, Hf, lookup_insert_eq. split; [|done].
    destruct (segments_of id tl); simpl in *; [by rewrite lookup_insert_eq|done].
  - rewrite app_nil_r, lookup_insert_ne by done. split; [|done].
    destruct (fs !! seg_pid x); [done|]. by rewrite lookup_insert_ne.
Qed.

Lemma segments_of_empty id tl : segments_of id tl = [] → id ∉ (seg_pid <$> tl).
Proof. intros Hnil Hin. by apply segments_of_nonempty in Hin. Qed.

Lemma last_segment_None id tl : last_segment id tl = None ↔ id ∉ (seg_pid <$> tl).
Proof.
  unfold last_segment. rewrite last_None. split; [apply segments_of_empty|].
  intros Hout. destruct (segments_of id tl) as [|s l] eqn:E; [done|].
  exfalso. apply Hout. assert (s ∈ segments_of id tl) as Hs by (rewrite E; left).
  apply list_elem_of_filter in Hs as [<- Hs]. by apply list_elem_of_fmap_2.
Qed.

Lemma first_segment_None id tl : first_segment id tl = None ↔ id ∉ (seg_pid <$> tl).
Proof.
  rewrite <- last_segment_None. unfold first_segment, last_segment.
  rewrite last_None. by destruct (segments_of id tl).
Qed.

Lemma dict_of_lookup_iff {V} (val : Process → V) ps id :
  is_Some (dict_of val ∅ ps !! id) ↔ id ∈ (pid <$> ps).
Proof.
  split.
  - intros HS. destruct (decide (id ∈ (pid <$> ps))) as [|Hout]; [done|].
    rewrite dict_of_absent, lookup_empty in HS by done. by destruct HS.
  - intros Hin. destruct (dict_of_present val ps ∅ id Hin) as (p & _ & _ & ->). done.
Qed.

(** A comprehension [{k: g(m1[k], m2[k]) for k in keys}] over keys that [m2]
    has: it yields a dictionary when [m1] has every key, and otherwise raises
    [KeyError] for a key that [m1] lacks. *)
Lemma lookup_comprehension_cases {V} (m1 : gmap string Z) (m2 : gmap string V)
    (g : Z → V → Z) keys :
  (∀ k, k ∈ keys → is_Some (m2 !! k)) →
  ((∀ k, k ∈ keys → is_Some (m1 !! k)) ∧
   ∃ d, dict_comprehension keys (λ _, true)
          (λ k, bind (getitem m1 k) (λ c, bind (getitem m2 k) (λ a, Ok (g c a))))
        = Ok d) ∨
  (∃ k, k ∈ keys ∧ m1 !! k = None ∧
        dict_comprehension keys (λ _, true)
          (λ k, bind (getitem m1 k) (λ c, bind (getitem m2 k) (λ a, Ok (g c a))))
        = Raise (KeyError k)).
Proof.
  set (value := λ k, bind (getitem m1 k) (λ c, bind (getitem m2 k) (λ a, Ok (g c a)))).
  induction keys as [|k keys IH]; intros Hm2.
  - left. split; [by intros k ?%elem_of_nil|by eexists].
  - simpl. destruct (Hm2 k) as [a Ha]; [left|].
    assert (value k = match m1 !! k with
                      | Some c => Ok (g c a)
                      | None => Raise (KeyError k)
                      end) as ->.
    { unfold value, getitem. rewrite Ha. by destruct (m1 !! k). }
    destruct (m1 !! k) as [c|] eqn:Hc; simpl.
    + destruct IH as [[Hall [d ->]]|(k' & Hk' & Hnone & ->)].
      { intros k' Hk'. apply Hm2. by right. }
      * left. split; [|by eexists]. intros k' [->|?]%elem_of_cons; [by eexists|auto].
      * right. exists k'. split; [by right|done].
    + right. exists k. split; [left|done].
Qed.

Lemma calculate_waiting_time_cases (tl : Timeline) (ps : list Process) :
  (covers ps tl ∧ ∃ m, calculate_waiting_time tl ps = Ok m) ∨
  (¬ covers ps tl ∧
   ∃ k, k ∈ (pid <$> ps) ∧ (k ∉ (seg_pid <$> tl)) ∧
        calculate_waiting_time tl ps = Raise (KeyError k)).
Proof.
  { destruct (decide (covers ps tl)) as [Hcov|Hcov].
    { left. split; [done|]. apply calculate_waiting_time_covered.
      unfold covers in Hcov. by rewrite Forall_forall in Hcov. }
    right. split; [done|]. unfold calculate_waiting_time.
    pose proof (contiguous_fold_spec tl) as Hfold.
    destruct (foldl contiguous_step (∅, ∅) tl) as [fs ct]. simpl in Hfold.
    destruct (dict_comprehension_ok (keys_in_order (pid <$> ps))
                (λ k, bool_decide (is_Some (fs !! k)))
                (λ k, bind (getitem fs k) (λ f,
                      bind (getitem (dict_of arrival ∅ ps) k) (λ a,
                      Ok (Z.max 0 (f - a)))))) as [wt ->].
    { intros k Hk Hc. apply bool_decide_eq_true in Hc as [f Hf].
      rewrite elem_of_keys_in_order in Hk.
      apply (dict_of_lookup_iff arrival) in Hk as [a Ha].
      rewrite (getitem_Some _ _ _ Hf), (getitem_Some _ _ _ Ha). by eexists. }
    simpl.
    destruct (lookup_comprehension_cases ct (dict_of arrival ∅ ps) (λ c a, c - a)
                (keys_in_order (pid <$> ps)))
      as [[Hall _]|(k & Hk & Hnone & ->)].
    { intros k Hk. rewrite elem_of_keys_in_order in Hk.
      by apply dict_of_lookup_iff. }
    - exfalso. apply Hcov. apply Forall_forall. intros p Hp.
      destruct (Hall (pid p)) as [c Hc].
      { rewrite elem_of_keys_in_order. by apply list_elem_of_fmap_2. }
      destruct (Hfold (pid p)) as [_ Hct]. rewrite Hc in Hct.
      destruct (decide (pid p ∈ (seg_pid <$> tl))) as [|Hout]; [done|].
      apply last_segment_None in Hout. by rewrite Hout in Hct.
    - exists k. rewrite elem_of_keys_in_order in Hk. split_and!; [done| |done].
      destruct (Hfold k) as [_ Hct]. rewrite Hnone in Hct.
      apply last_segment_None. by destruct (last_segment k tl). }
Qed.

Lemma calculate_waiting_time_Ok_covers tl ps m :
  calculate_waiting_time tl ps = Ok m → covers ps tl.
Proof.
  intros Hm. destruct (calculate_waiting_time_cases tl ps)
    as [[Hcov _]|[_ (k & _ & _ & Hraise)]]; [done|congruence].
Qed.

(** The contiguous-run calculator returns a report exactly when every process
    has a segment; otherwise it raises [KeyError] for a process id that the
    timeline lacks, and nothing else. *)
Theorem calculate_waiting_time_returns_iff (tl : Timeline) (ps : list Process) :
  (covers ps tl ↔ ∃ m, calculate_waiting_time tl ps = Ok m) ∧
  (¬ covers ps tl ↔
   ∃ k, k ∈ (pid <$> ps) ∧ (k ∉ (seg_pid <$> tl)) ∧
        calculate_waiting_time tl ps = Raise (KeyError k)).
Proof.
  destruct (calculate_waiting_time_cases tl ps)
    as [[Hcov [m Hm]]|[Hcov (k & Hk & Hout & Hraise)]].
  - split; [split; [by eexists|done]|]. split; [done|].
    intros (k & _ & _ & Hraise). congruence.
  - split; [split; [done|]|].
    + intros [m Hm]. congruence.
    + split; [by eexists|done].
Qed.

Lemma calculate_preemptive_waiting_time_cases (tl : Timeline) (ps : list Process) :
  (covers ps tl ∧ ∃ m, calculate_preemptive_waiting_time tl ps = Ok m) ∨
  (¬ covers ps tl ∧
   ∃ k, k ∈ (pid <$> ps) ∧ (k ∉ (seg_pid <$> tl)) ∧
        calculate_preemptive_waiting_time tl ps = Raise (KeyError k)).
Proof.
  { destruct (decide (covers ps tl)) as [Hcov|Hcov].
    { left. split; [done|]. by apply fragmented_returns. }
    right. split; [done|]. unfold calculate_preemptive_waiting_time.
    set (dict := dict_of (λ p, (arrival p, burst p)) ∅ ps).
    pose proof (fragmented_fold_spec dict tl) as Hfold.
    set (acc := foldl (fragmented_step dict) (mkFragAcc ∅ ∅ ∅ ∅) tl) in *.
    destruct (lookup_comprehension_cases (acc_completion acc) dict (λ c a, c - a.1)
                (keys_in_order (pid <$> ps)))
      as [[Hall _]|(k & Hk & Hnone & ->)].
    { intros k Hk. rewrite elem_of_keys_in_order in Hk.
      by apply dict_of_lookup_iff. }
    - exfalso. apply Hcov. apply Forall_forall. intros p Hp.
      destruct (Hall (pid p)) as [c Hc].
      { rewrite elem_of_keys_in_order. by apply list_elem_of_fmap_2. }
      destruct (Hfold (pid p)) as [Hct _]. rewrite Hc in Hct.
      destruct (decide (pid p ∈ (seg_pid <$> tl))) as [|Hout]; [done|].
      apply last_segment_None in Hout. by rewrite Hout in Hct.
    - exists k. rewrite elem_of_keys_in_order in Hk. split_and!; [done| |done].
      destruct (Hfold k) as [Hct _]. rewrite Hnone in Hct.
      apply last_segment_None. by destruct (last_segment k tl). }
Qed.

Lemma calculate_preemptive_waiting_time_Ok_covers tl ps m :
  calculate_preemptive_waiting_time tl ps = Ok m → covers ps tl.
Proof.
  intros Hm. destruct (calculate_preemptive_waiting_time_cases tl ps)
    as [[Hcov _]|[_ (k & _ & _ & Hraise)]]; [done|congruence].
Qed.

(** The fragmented-run calculator returns a report exactly when every process
    has a segment; otherwise it raises [KeyError] for a process id that the
    timeline lacks, and nothing else. *)
Theorem calculate_preemptive_waiting_time_returns_iff
    (tl : Timeline) (ps : list Process) :
  (covers ps tl ↔ ∃ m, calculate_preemptive_waiting_time tl ps = Ok m) ∧
  (¬ covers ps tl ↔
   ∃ k, k ∈ (pid <$> ps) ∧ (k ∉ (seg_pid <$> tl)) ∧
        calculate_preemptive_waiting_time tl ps = Raise (KeyError k)).
Proof.
  destruct (calculate_preemptive_waiting_time_cases tl ps)
    as [[Hcov [m Hm]]|[Hcov (k & Hk & Hout & Hraise)]].
  - split; [split; [by eexists|done]|]. split; [done|].
    intros (k & _ & _ & Hraise). congruence.
  - split; [split; [done|]|].
    + intros [m Hm]. congruence.
    + split; [by eexists|done].
Qed.

Lemma contiguous_report (tl : Timeline) (ps : list Process) (m : Metrics) :
  calculate_waiting_time tl ps = Ok m →
  ∀ p, p ∈ ps →
    ∃ p' s0 sl,
      p' ∈ ps ∧ pid p' = pid p ∧
      first_segment (pid p) tl = Some s0 ∧ last_segment (pid p) tl = Some sl ∧
      waiting_times m !! pid p = Some (Z.max 0 (seg_start s0 - arrival p')) ∧
      turnaround_times m !! pid p = Some (seg_end sl - arrival p') ∧
      response_times m !! pid p = Some (seg_start s0 - arrival p').
Proof.
  intros Hm p Hp.
  pose proof (calculate_waiting_time_Ok_covers tl ps m Hm) as Hcov.
  unfold covers in Hcov. rewrite Forall_forall in Hcov. specialize (Hcov p Hp).
  unfold calculate_waiting_time in Hm.
  pose proof (contiguous_fold_spec tl (pid p)) as [Hfs Hct].
  destruct (foldl contiguous_step (∅, ∅) tl) as [fs ct]. simpl in *.
  destruct (dict_of_present arrival ps ∅ (pid p)) as (p' & Hp' & Hpid & Hd);
    [by apply list_elem_of_fmap_2|].
  destruct (first_segment (pid p) tl) as [s0|] eqn:Hs0;
    [|by apply first_segment_None in Hs0].
  destruct (last_segment (pid p) tl) as [sl|] eqn:Hsl;
    [|by apply last_segment_None in Hsl].
  simpl in Hfs, Hct.
  assert (pid p ∈ keys_in_order (pid <$> ps)) as Hk.
  { rewrite elem_of_keys_in_order. by apply list_elem_of_fmap_2. }
  destruct (dict_comprehension _ _ _) as [wt| |] eqn:Hwt in Hm; try done. simpl in Hm.
  destruct (dict_comprehension _ _ _) as [tt| |] eqn:Htt in Hm; try done. simpl in Hm.
  destruct (dict_comprehension _ _ _) as [rt| |] eqn:Hrt in Hm; try done. simpl in Hm.
  injection Hm as <-. simpl.
  exists p', s0, sl. split_and!; try done.
  - apply (dict_comprehension_lookup _ _ _ _ _ _ Hwt). split_and!; [done| |].
    + apply bool_decide_eq_true. by rewrite Hfs.
    + by rewrite (getitem_Some _ _ _ Hfs), (getitem_Some _ _ _ Hd).
  - apply (dict_comprehension_lookup _ _ _ _ _ _ Htt). split_and!; [done..|].
    by rewrite (getitem_Some _ _ _ Hct), (getitem_Some _ _ _ Hd).
  - apply (dict_comprehension_lookup _ _ _ _ _ _ Hrt). split_and!; [done..|].
    by rewrite (getitem_Some _ _ _ Hfs), (getitem_Some _ _ _ Hd).
Qed.

(** What the contiguous-run calculator reports when every process has a
    segment: for every process, waiting = max(0, first start - arrival),
    turnaround = last end - arrival, and response = first start - arrival,
    which is not clamped at 0. *)
Theorem calculate_waiting_time_report (tl : Timeline) (ps : list Process) :
  covers ps tl →
  ∃ m, calculate_waiting_time tl ps = Ok m ∧
       ∀ p, p ∈ ps →
         ∃ p' s0 sl,
           p' ∈ ps ∧ pid p' = pid p ∧
           first_segment (pid p) tl = Some s0 ∧ last_segment (pid p) tl = Some sl ∧
           waiting_times m !! pid p = Some (Z.max 0 (seg_start s0 - arrival p')) ∧
           turnaround_times m !! pid p = Some (seg_end sl - arrival p') ∧
           response_times m !! pid p = Some (seg_start s0 - arrival p').
Proof.
  intros Hcov. unfold covers in Hcov. rewrite Forall_forall in Hcov.
  destruct (calculate_waiting_time_covered tl ps Hcov) as [m Hm].
  exists m. split; [done|]. by apply contiguous_report.
Qed.

Lemma calculate_waiting_time_report_witness :
  let tl := [mkSegment "A" 0 2; mkSegment "B" 2 3; mkSegment "A" 3 4] in
  let ps := [mkProcess "A" 1 3 1; mkProcess "B" 1 1 1] in
  ∃ m, calculate_waiting_time tl ps = Ok m ∧
       ∀ p, p ∈ ps →
         ∃ p' s0 sl,
           p' ∈ ps ∧ pid p' = pid p ∧
           first_segment (pid p) tl = Some s0 ∧ last_segment (pid p) tl = Some sl ∧
           waiting_times m !! pid p = Some (Z.max 0 (seg_start s0 - arrival p')) ∧
           turnaround_times m !! pid p = Some (seg_end sl - arrival p') ∧
           response_times m !! pid p = Some (seg_start s0 - arrival p').
Proof.
  apply (calculate_waiting_time_report
           [mkSegment "A" 0 2; mkSegment "B" 2 3; mkSegment "A" 3 4]
           [mkProcess "A" 1 3 1; mkProcess "B" 1 1 1]).
  repeat constructor.
Defined.

Lemma report_keys (tl : Timeline) (ps : list Process) (m : Metrics) (k : string) :
  calculate_waiting_time tl ps = Ok m ∨ calculate_preemptive_waiting_time tl ps = Ok m →
  (is_Some (waiting_times m !! k) ↔ k ∈ (pid <$> ps)) ∧
  (is_Some (turnaround_times m !! k) ↔ k ∈ (pid <$> ps)) ∧
  (is_Some (response_times m !! k) ↔ k ∈ (pid <$> ps)).
Proof.
  intros [Hm|Hm].
  - assert (∀ p, p ∈ ps → is_Some (waiting_times m !! pid p) ∧
                          is_Some (turnaround_times m !! pid p) ∧
                          is_Some (response_times m !! pid p)) as Hin.
    { intros p Hp.
      destruct (contiguous_report tl ps m Hm p Hp)
        as (? & ? & ? & _ & _ & _ & _ & -> & -> & ->). done. }
    unfold calculate_waiting_time in Hm.
    destruct (foldl contiguous_step (∅, ∅) tl) as [fs ct].
    destruct (dict_comprehension _ _ _) as [wt| |] eqn:Hwt in Hm; try done. simpl in Hm.
    destruct (dict_comprehension _ _ _) as [tt| |] eqn:Htt in Hm; try done. simpl in Hm.
    destruct (dict_comprehension _ _ _) as [rt| |] eqn:Hrt in Hm; try done. simpl in Hm.
    injection Hm as <-. simpl in *.
    split_and!; (split;
      [intros [v Hv];
       first [apply (dict_comprehension_lookup _ _ _ _ _ _ Hwt) in Hv
             |apply (dict_comprehension_lookup _ _ _ _ _ _ Htt) in Hv
             |apply (dict_comprehension_lookup _ _ _ _ _ _ Hrt) in Hv];
       destruct Hv as [Hk _]; by rewrite elem_of_keys_in_order in Hk
      |intros (p & -> & Hp)%list_elem_of_fmap; by apply Hin]).
  - assert (∀ p, p ∈ ps → pid p ∈ (seg_pid <$> tl)) as Hcov.
    { pose proof (calculate_preemptive_waiting_time_Ok_covers tl ps m Hm) as Hcov.
      unfold covers in Hcov. by rewrite Forall_forall in Hcov. }
    unfold calculate_preemptive_waiting_time in Hm.
    set (dict := dict_of (λ p, (arrival p, burst p)) ∅ ps) in *.
    pose proof (fragmented_fold_spec dict tl k) as (_ & _ & Hw).
    set (acc := foldl (fragmented_step dict) (mkFragAcc ∅ ∅ ∅ ∅) tl) in *.
    destruct (dict_comprehension _ _ _) as [tt| |] eqn:Htt in Hm; try done. simpl in Hm.
    destruct (dict_comprehension _ _ _) as [rt| |] eqn:Hrt in Hm; try done. simpl in Hm.
    injection Hm as <-. simpl in *.
    assert (Hkeys : ∀ (d : gmap string Z) cond value,
              dict_comprehension (keys_in_order (pid <$> ps)) cond value = Ok d →
              is_Some (d !! k) → k ∈ (pid <$> ps)).
    { intros d cond value Hd [v Hv].
      apply (dict_comprehension_lookup _ _ _ _ _ _ Hd) in Hv as [Hk _].
      by rewrite elem_of_keys_in_order in Hk. }
    split_and!.
    + split.
      * intros HS. apply (dict_of_lookup_iff (λ p, (arrival p, burst p))).
        fold dict. destruct (dict !! k) as [[a b]|]; [done|].
        rewrite Hw in HS. by destruct HS.
      * intros Hin. pose proof Hin as Hin'.
        apply (dict_of_lookup_iff (λ p, (arrival p, burst p))) in Hin as [[a b] Hd].
        fold dict in Hd. rewrite Hd in Hw. destruct Hw as [_ ->].
        apply list_elem_of_fmap in Hin' as (p & -> & Hp). specialize (Hcov p Hp).
        destruct (first_segment (pid p) tl) eqn:E1;
          [|by apply first_segment_None in E1].
        destruct (last_segment (pid p) tl) eqn:E2;
          [|by apply last_segment_None in E2].
        done.
    + split; [by eapply Hkeys|].
      intros Hin. destruct (dict_comprehension_inv _ _ _ _ k Htt) as [v Hv];
        [by rewrite elem_of_keys_in_order|done|].
      exists v. apply (dict_comprehension_lookup _ _ _ _ _ _ Htt).
      split_and!; [by rewrite elem_of_keys_in_order|done..].
    + split; [by eapply Hkeys|].
      intros Hin. destruct (dict_comprehension_inv _ _ _ _ k Hrt) as [v Hv];
        [by rewrite elem_of_keys_in_order|done|].
      exists v. apply (dict_comprehension_lookup _ _ _ _ _ _ Hrt).
      split_and!; [by rewrite elem_of_keys_in_order|done..].
Qed.

(** A report lists the processes of the set and nothing else: segments that
    carry an unknown id leave no entry. *)
Theorem reports_list_exactly_the_processes
    (tl : Timeline) (ps : list Process) (m : Metrics) (k : string) :
  calculate_waiting_time tl ps = Ok m ∨ calculate_preemptive_waiting_time tl ps = Ok m →
  (is_Some (waiting_times m !! k) ↔ k ∈ (pid <$> ps)) ∧
  (is_Some (turnaround_times m !! k) ↔ k ∈ (pid <$> ps)) ∧
  (is_Some (response_times m !! k) ↔ k ∈ (pid <$> ps)).
Proof. apply report_keys. Qed.

Lemma reports_list_exactly_the_processes_witness :
  let tl := [mkSegment "P1" 0 2; mkSegment "P7" 2 3] in
  let ps := [mkProcess "P1" 0 2 1] in
  ∃ m, calculate_preemptive_waiting_time tl ps = Ok m ∧
       (is_Some (waiting_times m !! "P7") ↔ "P7" ∈ (pid <$> ps)) ∧
       (is_Some (turnaround_times m !! "P7") ↔ "P7" ∈ (pid <$> ps)) ∧
       (is_Some (response_times m !! "P7") ↔ "P7" ∈ (pid <$> ps)).
Proof.
  eexists. split; [vm_compute; reflexivity|].
  apply (reports_list_exactly_the_processes
           [mkSegment "P1" 0 2; mkSegment "P7" 2 3] [mkProcess "P1" 0 2 1]).
  right. vm_compute. reflexivity.
Defined.

(** With an empty ProcessSet both calculators report no entry and zero
    averages, whatever the timeline holds. *)
Theorem calculators_on_empty_process_set (tl : Timeline) :
  calculate_waiting_time tl [] = Ok zero_metrics ∧
  calculate_preemptive_waiting_time tl [] = Ok zero_metrics.
Proof.
  split; [apply calculate_waiting_time_no_process
         |apply calculate_preemptive_waiting_time_no_process].
Qed.

(** ** The calculators on the timelines of the policies *)

Lemma fragmented_report_full (tl : Timeline) (ps : list Process) (m : Metrics) :
  calculate_preemptive_waiting_time tl ps = Ok m →
  ∀ p, p ∈ ps →
    ∃ p' s0 sl,
      p' ∈ ps ∧ pid p' = pid p ∧
      first_segment (pid p) tl = Some s0 ∧ last_segment (pid p) tl = Some sl ∧
      waiting_times m !! pid p =
        Some (Z.max 0 (seg_start s0 - arrival p') + (seg_end sl - seg_start s0)
              - exec_time (pid p) tl) ∧
      turnaround_times m !! pid p = Some (seg_end sl - arrival p') ∧
      response_times m !! pid p = Some (seg_start s0 - arrival p').
Proof.
  intros Hm p Hp.
  pose proof (calculate_preemptive_waiting_time_Ok_covers tl ps m Hm) as Hcov.
  unfold covers in Hcov. rewrite Forall_forall in Hcov. specialize (Hcov p Hp).
  unfold calculate_preemptive_waiting_time in Hm.
  set (dict := dict_of (λ p, (arrival p, burst p)) ∅ ps) in *.
  pose proof (fragmented_fold_spec dict tl (pid p)) as (Hct & Hfs & Hw).
  set (acc := foldl (fragmented_step dict) (mkFragAcc ∅ ∅ ∅ ∅) tl) in *.
  destruct (dict_of_present (λ p, (arrival p, burst p)) ps ∅ (pid p))
    as (p' & Hp' & Hpid & Hd); [by apply list_elem_of_fmap_2|].
  fold dict in Hd. rewrite Hd in Hw. destruct Hw as [_ Hw].
  destruct (first_segment (pid p) tl) as [s0|] eqn:Hs0;
    [|by apply first_segment_None in Hs0].
  destruct (last_segment (pid p) tl) as [sl|] eqn:Hsl;
    [|by apply last_segment_None in Hsl].
  simpl in Hfs, Hct.
  assert (pid p ∈ keys_in_order (pid <$> ps)) as Hk.
  { rewrite elem_of_keys_in_order. by apply list_elem_of_fmap_2. }
  destruct (dict_comprehension _ _ _) as [tt| |] eqn:Htt in Hm; try done. simpl in Hm.
  destruct (dict_comprehension _ _ _) as [rt| |] eqn:Hrt in Hm; try done. simpl in Hm.
  injection Hm as <-. simpl.
  exists p', s0, sl. split_and!; try done.
  - apply (dict_comprehension_lookup _ _ _ _ _ _ Htt). split_and!; [done..|].
    by rewrite (getitem_Some _ _ _ Hct), (getitem_Some _ _ _ Hd).
  - apply (dict_comprehension_lookup _ _ _ _ _ _ Hrt). split_and!; [done..|].
    by rewrite (getitem_Some _ _ _ Hfs), (getitem_Some _ _ _ Hd).
Qed.

(** What the fragmented-run calculator reports when every process has a
    segment, with no condition on the timeline: waiting = max(0, first start -
    arrival) + (last end - first start) - executed time, turnaround = last
    end - arrival, response = first start - arrival. *)
Theorem calculate_preemptive_waiting_time_report (tl : Timeline) (ps : list Process) :
  covers ps tl →
  ∃ m, calculate_preemptive_waiting_time tl ps = Ok m ∧
       ∀ p, p ∈ ps →
         ∃ p' s0 sl,
           p' ∈ ps ∧ pid p' = pid p ∧
           first_segment (pid p) tl = Some s0 ∧ last_segment (pid p) tl = Some sl ∧
           waiting_times m !! pid p =
             Some (Z.max 0 (seg_start s0 - arrival p') + (seg_end sl - seg_start s0)
                   - exec_time (pid p) tl) ∧
           turnaround_times m !! pid p = Some (seg_end sl - arrival p') ∧
           response_times m !! pid p = Some (seg_start s0 - arrival p').
Proof.
  intros Hcov. destruct (fragmented_returns tl ps Hcov) as [m Hm].
  exists m. split; [done|]. by apply fragmented_report_full.
Qed.

Lemma calculate_preemptive_waiting_time_report_witness :
  let tl := [mkSegment "A" 0 2; mkSegment "B" 2 3; mkSegment "A" 3 4] in
  let ps := [mkProcess "A" 1 3 1; mkProcess "B" 1 1 1] in
  ∃ m, calculate_preemptive_waiting_time tl ps = Ok m ∧
       ∀ p, p ∈ ps →
         ∃ p' s0 sl,
           p' ∈ ps ∧ pid p' = pid p ∧
           first_segment (pid p) tl = Some s0 ∧ last_segment (pid p) tl = Some sl ∧
           waiting_times m !! pid p =
             Some (Z.max 0 (seg_start s0 - arrival p') + (seg_end sl - seg_start s0)
                   - exec_time (pid p) tl) ∧
           turnaround_times m !! pid p = Some (seg_end sl - arrival p') ∧
           response_times m !! pid p = Some (seg_start s0 - arrival p').
Proof.
  apply (calculate_preemptive_waiting_time_report
           [mkSegment "A" 0 2; mkSegment "B" 2 3; mkSegment "A" 3 4]
           [mkProcess "A" 1 3 1; mkProcess "B" 1 1 1]).
  repeat constructor.
Defined.

Lemma chain_filter (P : Segment → Prop) `{∀ x, Decision (P x)} lo tl :
  chain lo tl → chain lo (filter P tl).
Proof.
  revert lo. induction tl as [|x tl IH]; intros lo; [done|].
  simpl. intros (Hlo & Hx & Htl). destruct (decide (P x)).
  - rewrite filter_cons_True by done. simpl. split_and!; [done..|]. by apply IH.
  - rewrite filter_cons_False by done. apply IH.
    eapply chain_weaken; [|done]. lia.
Qed.

Lemma chain_span lo tl sl :
  chain lo tl → last tl = Some sl → lo + sumZ duration tl ≤ seg_end sl.
Proof.
  revert lo. induction tl as [|x tl IH]; intros lo; [done|].
  intros (Hlo & Hx & Htl) Hlast. destruct tl as [|y tl].
  - simpl in *. injection Hlast as <-. unfold duration. lia.
  - specialize (IH (seg_end x) Htl Hlast).
    change (sumZ duration (x :: y :: tl)) with (duration x + sumZ duration (y :: tl)).
    unfold duration at 1. lia.
Qed.

Lemma chain_head_span tl s0 sl :
  chain 0 tl → head tl = Some s0 → last tl = Some sl →
  seg_start s0 + sumZ duration tl ≤ seg_end sl.
Proof.
  intros Hc Hh Hl. apply chain_span; [|done].
  destruct tl as [|x tl]; [done|]. injection Hh as ->.
  destruct Hc as (_ & ? & ?). simpl. split_and!; [lia|done..].
Qed.

(** In a timeline that satisfies [timeline_spec], a process with a positive
    burst has a first and a last segment; the first starts at or after its
    arrival and the last ends at least a burst after the first starts. *)
Lemma timeline_spec_span ps tl p :
  NoDup (pid <$> ps) → timeline_spec ps tl → p ∈ ps → 1 ≤ burst p →
  ∃ s0 sl,
    first_segment (pid p) tl = Some s0 ∧ last_segment (pid p) tl = Some sl ∧
    arrival p ≤ seg_start s0 ∧ seg_start s0 + burst p ≤ seg_end sl ∧
    exec_time (pid p) tl = burst p.
Proof.
  intros Hnd (Hexec & Hchain & Hstart) Hp Hb.
  assert (exec_time (pid p) tl = burst p) as He.
  { rewrite Hexec. by apply sum_for_unique. }
  pose proof (chain_filter (λ s, seg_pid s = pid p) 0 tl Hchain) as Hc.
  fold (segments_of (pid p) tl) in Hc.
  rewrite exec_time_segments in He.
  unfold first_segment, last_segment.
  destruct (segments_of (pid p) tl) as [|s0 F] eqn:HF; [simpl in He; lia|].
  destruct (last (s0 :: F)) as [sl|] eqn:Hl; [|by apply last_None in Hl].
  exists s0, sl. split_and!; [done..| | |by rewrite exec_time_segments, HF].
  - assert (s0 ∈ segments_of (pid p) tl) as Hin by (rewrite HF; left).
    apply list_elem_of_filter in Hin as [Hid Hin].
    destruct (Hstart s0 Hin) as (p' & Hp' & Hpid & Ha).
    assert (p' = p) as -> by (eapply same_pid_same_process; [done..|congruence]).
    done.
  - rewrite <- He. by apply chain_head_span.
Qed.

Lemma segments_of_single id tl :
  NoDup (seg_pid <$> tl) → (length (segments_of id tl) ≤ 1)%nat.
Proof.
  unfold segments_of. induction tl as [|x tl IH]; [simpl; lia|].
  rewrite fmap_cons, NoDup_cons. intros [Hx Hnd].
  destruct (decide (seg_pid x = id)) as [<-|Hne].
  - rewrite filter_cons_True by done.
    rewrite (filter_none (λ s, seg_pid s = seg_pid x) tl); [simpl; lia|].
    apply Forall_forall. intros s Hs Heq. apply Hx. rewrite <- Heq.
    by apply list_elem_of_fmap_2.
  - rewrite filter_cons_False by done. by apply IH.
Qed.

Lemma sumZ_ext {A} (f g : A → Z) l :
  (∀ x, x ∈ l → f x = g x) → sumZ f l = sumZ g l.
Proof.
  induction l as [|x l IH]; [done|]. intros H. simpl.
  rewrite (H x) by left. rewrite IH; [done|]. intros y Hy. apply H. by right.
Qed.

Lemma sumZ_plus {A} (f g : A → Z) l :
  sumZ (λ x, f x + g x) l = sumZ f l + sumZ g l.
Proof. induction l as [|x l IH]; simpl; [done|]. rewrite IH. lia. Qed.

Lemma sumZ_zero {A} (l : list A) : sumZ (λ _, 0) l = 0.
Proof. induction l as [|x l IH]; simpl; [done|]. by rewrite IH. Qed.

Lemma sumZ_indicator (ids : list string) k v :
  NoDup ids → k ∈ ids → sumZ (λ id, if decide (k = id) then v else 0) ids = v.
Proof.
  induction 1 as [|id ids Hid Hnd IH]; [by intros ?%elem_of_nil|].
  intros Hk. simpl. destruct (decide (k = id)) as [->|Hne].
  - rewrite (sumZ_ext (λ id', if decide (id = id') then v else 0) (λ _, 0) ids).
    + rewrite sumZ_zero. lia.
    + intros x Hx. destruct (decide (id = x)) as [->|]; [done|done].
  - apply elem_of_cons in Hk as [?|Hk]; [done|]. rewrite IH by done. lia.
Qed.

(** A sum over a list is the sum, over the distinct names, of the sums per
    name. *)
Lemma sumZ_by_name {A} (name : A → string) (f : A → Z) (ids : list string) l :
  NoDup ids → Forall (λ x, name x ∈ ids) l →
  sumZ f l = sumZ (λ id, sum_for name f id l) ids.
Proof.
  intros Hnd. induction 1 as [|x l Hx _ IH].
  - rewrite (sumZ_ext (λ id, sum_for name f id []) (λ _, 0) ids); [|done].
    by rewrite sumZ_zero.
  - rewrite (sumZ_ext (λ id, sum_for name f id (x :: l))
               (λ id, (if decide (name x = id) then f x else 0)
                      + sum_for name f id l) ids).
    + rewrite sumZ_plus, sumZ_indicator, <- IH by done. done.
    + intros id _. apply sum_for_cons.
Qed.

Lemma timeline_spec_total ps tl :
  NoDup (pid <$> ps) → timeline_spec ps tl → sumZ duration tl = sumZ burst ps.
Proof.
  intros Hnd (Hexec & _ & Hstart).
  rewrite (sumZ_by_name seg_pid duration (pid <$> ps) tl Hnd).
  - rewrite (sumZ_by_name pid burst (pid <$> ps) ps Hnd).
    + apply sumZ_ext. intros id _. apply Hexec.
    + apply Forall_forall. intros p Hp. by apply list_elem_of_fmap_2.
  - apply Forall_forall. intros s Hs. destruct (Hstart s Hs) as (p & Hp & <- & _).
    by apply list_elem_of_fmap_2.
Qed.

(** The makespan: the last segment ends no earlier than the first arrival
    plus all the bursts. *)
Lemma timeline_spec_makespan ps tl :
  ps ≠ [] → NoDup (pid <$> ps) → Forall (λ p, 1 ≤ burst p) ps →
  timeline_spec ps tl →
  ∃ sl a, last tl = Some sl ∧ min_list (arrival <$> ps) = Some a ∧
          a + sumZ burst ps ≤ seg_end sl ∧ 1 ≤ sumZ burst ps.
Proof.
  intros Hne Hnd Hb Hspec.
  pose proof (timeline_spec_total ps tl Hnd Hspec) as Htot.
  destruct Hspec as (Hexec & Hchain & Hstart).
  destruct (min_list_is_Some (arrival <$> ps)) as [a Ha].
  { by destruct ps. }
  assert (1 ≤ sumZ burst ps) as Hpos.
  { destruct ps as [|p ps]; [done|]. apply Forall_cons in Hb as [Hp Hb]. simpl.
    pose proof (sumZ_nonneg burst ps) as H0. 
    assert (0 ≤ sumZ burst ps); [|lia]. apply H0.
    eapply Forall_impl; [exact Hb|]. simpl. lia. }
  destruct (last tl) as [sl|] eqn:Hl.
  - exists sl, a. split_and!; [done..| |done].
    rewrite <- Htot. apply chain_span; [|done].
    destruct tl as [|x tl]; [done|]. destruct Hchain as (_ & ? & ?).
    simpl. split_and!; [|done..].
    destruct (Hstart x) as (p & Hp & _ & Hge); [left|].
    pose proof (min_list_lower _ _ Ha) as Hlow. rewrite Forall_forall in Hlow.
    specialize (Hlow (arrival p)). 
    assert (a ≤ arrival p); [|lia]. apply Hlow. by apply list_elem_of_fmap_2.
  - apply last_None in Hl. subst tl. simpl in Htot. lia.
Qed.

(** ** The simulation driver on valid input *)

Lemma run_simulation_policy pol fuel ps quantum :
  run_simulation fuel ps (policy_name pol) quantum
  = bind (with_metrics (calculator_of pol) ps (run_policy pol fuel ps quantum))
      (aggregate ps).
Proof. destruct pol; reflexivity. Qed.

Lemma returns_const {A} (a b : A) : returns (λ _, Ok a) b → a = b.
Proof. intros [n Hn]. specialize (Hn n (le_n n)). by injection Hn. Qed.

(** The three non-preemptive policies give a timeline with one segment per
    process. *)
Lemma runs_to_completion_pids pol ps quantum tl :
  runs_to_completion pol = true →
  returns (λ fuel, run_policy pol fuel ps quantum) tl →
  seg_pid <$> tl ≡ₚ pid <$> ps.
Proof.
  intros Hpol Hret. destruct pol; simpl in *; try discriminate Hpol.
  - apply returns_const in Hret as <-. unfold fcfs_scheduling.
    rewrite dispatch_pids. apply fmap_Permutation, sorted_by_perm.
  - destruct (sjn_served_run ps) as (tl' & Hserved & Hrun).
    assert (tl = tl') as <-.
    { eapply returns_inj; [exact Hret|]. by eapply returns_of_option. }
    apply (fmap_Permutation fst) in Hserved. unfold served, demands in Hserved.
    by rewrite <- !list_fmap_compose in Hserved.
  - apply returns_const in Hret as <-. unfold priority_scheduling.
    rewrite dispatch_pids. apply fmap_Permutation, sorted_by_perm.
Qed.

Lemma timeline_spec_covers ps tl :
  NoDup (pid <$> ps) → Forall (λ p, 1 ≤ burst p) ps → timeline_spec ps tl →
  covers ps tl.
Proof.
  intros Hnd Hb Hspec. apply Forall_forall. intros p Hp.
  rewrite Forall_forall in Hb.
  destruct (timeline_spec_span ps tl p Hnd Hspec Hp (Hb p Hp)) as (s0 & _ & Hs0 & _).
  destruct (decide (pid p ∈ (seg_pid <$> tl))) as [|Hout]; [done|].
  apply first_segment_None in Hout. congruence.
Qed.

Lemma run_simulation_valid pol ps quantum :
  valid_process_set ps → 1 ≤ quantum →
  ∃ tl m sl a,
    returns (λ fuel, run_policy pol fuel ps quantum) tl ∧ timeline_spec ps tl ∧
    calculator_of pol tl ps = Ok m ∧
    last tl = Some sl ∧ min_list (arrival <$> ps) = Some a ∧
    a + sumZ burst ps ≤ seg_end sl ∧ 1 ≤ sumZ burst ps ∧
    returns (λ fuel, run_simulation fuel ps (policy_name pol) quantum)
      (mkSimResult tl m (cpu_util_of (sumZ burst ps) (seg_end sl - a))
         (throughput_of (Z.of_nat (length ps)) (seg_end sl - a))).
Proof.
  intros Hvalid Hq. pose proof (valid_process_set_bounds ps Hvalid) as Hbounds.
  destruct Hvalid as (Hne & Hnd & _).
  assert (Forall (λ p, 1 ≤ burst p) ps) as Hb.
  { eapply Forall_impl; [exact Hbounds|]. simpl. lia. }
  destruct (run_policy_spec pol ps quantum Hne Hbounds Hq) as (tl & Hret & Hspec).
  pose proof (timeline_spec_covers ps tl Hnd Hb Hspec) as Hcov.
  assert (∃ m, calculator_of pol tl ps = Ok m) as [m Hm].
  { unfold calculator_of. destruct (runs_to_completion pol).
    - apply calculate_waiting_time_covered. unfold covers in Hcov.
      by rewrite Forall_forall in Hcov.
    - by apply fragmented_returns. }
  destruct (timeline_spec_makespan ps tl Hne Hnd Hb Hspec)
    as (sl & a & Hl & Ha & Hspan & Hpos).
  exists tl, m, sl, a. split_and!; try done.
  destruct Hret as [n Hn]. exists n. intros fuel Hf.
  rewrite run_simulation_policy, (Hn fuel Hf). unfold with_metrics. simpl.
  rewrite Hm. simpl. by rewrite Hl, Ha.
Qed.

Lemma policy_report pol ps quantum tl m :
  valid_process_set ps →
  returns (λ fuel, run_policy pol fuel ps quantum) tl → timeline_spec ps tl →
  calculator_of pol tl ps = Ok m →
  ∀ p, p ∈ ps →
    ∃ w t rt,
      waiting_times m !! pid p = Some w ∧
      turnaround_times m !! pid p = Some t ∧
      response_times m !! pid p = Some rt ∧
      t = w + burst p ∧ 0 ≤ rt ∧ rt ≤ w ∧
      (runs_to_completion pol = true → rt = w).
Proof.
  intros Hvalid Hret Hspec Hm.
  pose proof (valid_process_set_bounds ps Hvalid) as Hbounds.
  destruct Hvalid as (Hne & Hnd & _).
  intros p Hp. rewrite Forall_forall in Hbounds.
  destruct (Hbounds p Hp) as [_ Hb].
  destruct (timeline_spec_span ps tl p Hnd Hspec Hp Hb)
    as (s0 & sl' & Hs0 & Hsl & Harr & Hspan & Hexec).
  unfold calculator_of in Hm. destruct (runs_to_completion pol) eqn:Hc.
  - destruct (contiguous_report tl ps m Hm p Hp)
      as (p' & s0' & sl'' & Hp' & Hpid & Hs0' & Hsl' & Hw & Ht & Hr).
    assert (p' = p) as -> by (eapply same_pid_same_process; done).
    rewrite Hs0 in Hs0'. rewrite Hsl in Hsl'.
    injection Hs0' as <-. injection Hsl' as <-.
    pose proof (runs_to_completion_pids pol ps quantum tl Hc Hret) as Hpids.
    assert (NoDup (seg_pid <$> tl)) as Hnd' by (by rewrite Hpids).
    pose proof (segments_of_single (pid p) tl Hnd') as Hlen.
    rewrite exec_time_segments in Hexec.
    unfold first_segment, last_segment in Hs0, Hsl.
    destruct (segments_of (pid p) tl) as [|x [|y F]]; simpl in *; try done; [|lia].
    injection Hs0 as ->. injection Hsl as ->. unfold duration in Hexec.
    eexists _, _, _. split_and!; [exact Hw|exact Ht|exact Hr|lia..].
  - destruct (fragmented_report_full tl ps m Hm p Hp)
      as (p' & s0' & sl'' & Hp' & Hpid & Hs0' & Hsl' & Hw & Ht & Hr).
    assert (p' = p) as -> by (eapply same_pid_same_process; done).
    rewrite Hs0 in Hs0'. rewrite Hsl in Hsl'.
    injection Hs0' as <-. injection Hsl' as <-. rewrite Hexec in Hw.
    eexists _, _, _. split_and!; [exact Hw|exact Ht|exact Hr|lia..|done].
Qed.

(** End to end: for a valid ProcessSet and a quantum of at least 1,
    [run_simulation] returns, for each of the six algorithm names, the
    timeline of the policy and a report in which every process has
    turnaround = waiting + burst and 0 <= response <= waiting; with FCFS, SJN
    and Priority the response time is the waiting time. *)
Theorem run_simulation_report (pol : Policy) (ps : list Process) (quantum : Z) :
  valid_process_set ps → 1 ≤ quantum →
  ∃ r, returns (λ fuel, run_simulation fuel ps (policy_name pol) quantum) r ∧
       returns (λ fuel, run_policy pol fuel ps quantum) (sim_schedule r) ∧
       ∀ p, p ∈ ps →
         ∃ w t rt,
           waiting_times (sim_metrics r) !! pid p = Some w ∧
           turnaround_times (sim_metrics r) !! pid p = Some t ∧
           response_times (sim_metrics r) !! pid p = Some rt ∧
           t = w + burst p ∧ 0 ≤ rt ∧ rt ≤ w ∧
           (runs_to_completion pol = true → rt = w).
Proof.
  intros Hvalid Hq.
  destruct (run_simulation_valid pol ps quantum Hvalid Hq)
    as (tl & m & sl & a & Hret & Hspec & Hm & _ & _ & _ & _ & Hsim).
  eexists. split; [exact Hsim|]. simpl. split; [done|].
  by eapply policy_report.
Qed.

Lemma run_simulation_report_witness :
  ∃ r, returns (λ fuel, run_simulation fuel reference_case
                          (policy_name RoundRobin) 2) r ∧
       returns (λ fuel, run_policy RoundRobin fuel reference_case 2) (sim_schedule r) ∧
       ∀ p, p ∈ reference_case →
         ∃ w t rt,
           waiting_times (sim_metrics r) !! pid p = Some w ∧
           turnaround_times (sim_metrics r) !! pid p = Some t ∧
           response_times (sim_metrics r) !! pid p = Some rt ∧
           t = w + burst p ∧ 0 ≤ rt ∧ rt ≤ w ∧
           (runs_to_completion RoundRobin = true → rt = w).
Proof.
  apply (run_simulation_report RoundRobin reference_case 2).
  - apply (bool_decide_unpack _). vm_compute. reflexivity.
  - lia.
Defined.

Lemma cpu_util_bounds busy total :
  1 ≤ busy → busy ≤ total →
  (0 < cpu_util_of busy total)%Q ∧ (cpu_util_of busy total <= 100)%Q.
Proof.
  intros Hb Ht. unfold cpu_util_of.
  destruct (Z.ltb_spec 0 total); [|lia].
  destruct total as [|t|t]; try lia. destruct busy as [|b|b]; try lia.
  unfold Qlt, Qle, Qdiv, Qmult, Qinv, inject_Z. simpl. split; lia.
Qed.

Lemma throughput_bounds count total :
  1 ≤ count → 1 ≤ total → (0 < throughput_of count total)%Q.
Proof.
  intros Hc Ht. unfold throughput_of.
  destruct (Z.ltb_spec 0 total); [|lia].
  destruct total as [|t|t]; try lia. destruct count as [|c|c]; try lia.
  unfold Qlt, Qdiv, Qmult, Qinv, inject_Z. simpl. lia.
Qed.

(** For a valid ProcessSet and a quantum of at least 1, the total time that
    [run_simulation] measures (end of the last segment - earliest arrival) is
    at least the sum of the bursts, so the CPU utilisation it returns lies in
    (0, 100] and the throughput is positive; the two fallback values 0 are
    not used. *)
Theorem run_simulation_utilisation (pol : Policy) (ps : list Process) (quantum : Z) :
  valid_process_set ps → 1 ≤ quantum →
  ∃ r sl a,
    returns (λ fuel, run_simulation fuel ps (policy_name pol) quantum) r ∧
    last (sim_schedule r) = Some sl ∧ min_list (arrival <$> ps) = Some a ∧
    1 ≤ sumZ burst ps ∧ sumZ burst ps ≤ seg_end sl - a ∧
    sim_cpu_util r = (inject_Z (sumZ burst ps) / inject_Z (seg_end sl - a) * 100)%Q ∧
    sim_throughput r
      = (inject_Z (Z.of_nat (length ps)) / inject_Z (seg_end sl - a))%Q ∧
    (0 < sim_cpu_util r)%Q ∧ (sim_cpu_util r <= 100)%Q ∧ (0 < sim_throughput r)%Q.
Proof.
  intros Hvalid Hq.
  destruct (run_simulation_valid pol ps quantum Hvalid Hq)
    as (tl & m & sl & a & _ & _ & _ & Hl & Ha & Hspan & Hpos & Hsim).
  eexists _, sl, a. split; [exact Hsim|]. simpl.
  assert (1 ≤ Z.of_nat (length ps)) as Hlen.
  { destruct Hvalid as (Hne & _). destruct ps; [done|]. simpl. lia. }
  destruct (cpu_util_bounds (sumZ burst ps) (seg_end sl - a)) as [Hu0 Hu1]; [lia..|].
  pose proof (throughput_bounds (Z.of_nat (length ps)) (seg_end sl - a) Hlen) as Hth.
  split_and!; try done; try lia.
  - unfold cpu_util_of. destruct (Z.ltb_spec 0 (seg_end sl - a)); [done|lia].
  - unfold throughput_of. destruct (Z.ltb_spec 0 (seg_end sl - a)); [done|lia].
  - apply Hth. lia.
Qed.

Lemma run_simulation_utilisation_witness :
  ∃ r sl a,
    returns (λ fuel, run_simulation fuel reference_case (policy_name SJN) 2) r ∧
    last (sim_schedule r) = Some sl ∧ min_list (arrival <$> reference_case) = Some a ∧
    1 ≤ sumZ burst reference_case ∧ sumZ burst reference_case ≤ seg_end sl - a ∧
    sim_cpu_util r
      = (inject_Z (sumZ burst reference_case) / inject_Z (seg_end sl - a) * 100)%Q ∧
    sim_throughput r
      = (inject_Z (Z.of_nat (length reference_case)) / inject_Z (seg_end sl - a))%Q ∧
    (0 < sim_cpu_util r)%Q ∧ (sim_cpu_util r <= 100)%Q ∧ (0 < sim_throughput r)%Q.
Proof.
  apply (run_simulation_utilisation SJN reference_case 2).
  - apply (bool_decide_unpack _). vm_compute. reflexivity.
  - lia.
Defined.

(** A name outside [algorithm_options] leaves [schedule] unbound: the
    simulation raises [UnboundLocalError], whatever the processes. *)
Theorem run_simulation_unknown_algorithm
    (fuel : nat) (ps : list Process) (algo : string) (quantum : Z) :
  algo ∉ algorithm_options →
  run_simulation fuel ps algo quantum = Raise UnboundLocalError.
Proof.
  intros Hout.
  assert (∀ name, name ∈ algorithm_options → String.eqb algo name = false) as Hne.
  { intros name Hin. apply String.eqb_neq. by intros ->. }
  unfold run_simulation.
  rewrite (Hne "FCFS"), (Hne "SJN"), (Hne "SJN with Preemption"),
    (Hne "Round Robin"), (Hne "Priority"), (Hne "Priority with Preemption");
    [done|unfold algorithm_options; rewrite !elem_of_cons; tauto..].
Qed.

Lemma run_simulation_unknown_algorithm_witness :
  run_simulation 10 reference_case "fcfs" 2 = Raise UnboundLocalError.
Proof.
  apply (run_simulation_unknown_algorithm 10 reference_case "fcfs" 2).
  apply (bool_decide_unpack _). vm_compute. reflexivity.
Defined.

(** ** Averages *)











(** ** Compare All *)

Lemma policy_name_inj pol pol' : policy_name pol = policy_name pol' → pol = pol'.
Proof. by destruct pol, pol'. Qed.

Lemma policy_name_options name :
  name ∈ algorithm_options ↔ ∃ pol, name = policy_name pol.
Proof.
  unfold algorithm_options. rewrite !elem_of_cons, elem_of_nil. split.
  - intros [->|[->|[->|[->|[->|[->|[]]]]]]];
      [by exists FCFS|by exists SJN|by exists SJN_Preemptive|by exists RoundRobin
      |by exists PriorityNP|by exists PriorityPreemptive].
  - intros [[] ->]; simpl; tauto.
Qed.

Lemma compare_all_Ok fuel ps quantum (run : Policy → SimResult) :
  (∀ pol, run_simulation fuel ps (policy_name pol) quantum = Ok (run pol)) →
  ∃ results,
    compare_all fuel ps quantum = Ok results ∧
    (∀ pol, results !! policy_name pol = Some (comparison_of (run pol))) ∧
    (∀ name, is_Some (results !! name) ↔ name ∈ algorithm_options).
Proof.
  intros Hrun. unfold compare_all, algorithm_options.
  pose proof (Hrun FCFS) as H1. pose proof (Hrun SJN) as H2.
  pose proof (Hrun SJN_Preemptive) as H3. pose proof (Hrun RoundRobin) as H4.
  pose proof (Hrun PriorityNP) as H5. pose proof (Hrun PriorityPreemptive) as H6.
  unfold policy_name in H1, H2, H3, H4, H5, H6.
  cbn [foldl bind]. rewrite H1. cbn [bind]. rewrite H2. cbn [bind].
  rewrite H3. cbn [bind]. rewrite H4. cbn [bind]. rewrite H5. cbn [bind].
  rewrite H6. cbn [bind].
  eexists. split; [done|]. split.
  - intros []; simpl; by simplify_map_eq.
  - intros name. rewrite policy_name_options. split.
    + intros [c Hc]. repeat (apply lookup_insert_Some in Hc as [[<- _]|[_ Hc]];
        [first [by exists FCFS|by exists SJN|by exists SJN_Preemptive
               |by exists RoundRobin|by exists PriorityNP
               |by exists PriorityPreemptive]|]).
      by rewrite lookup_empty in Hc.
    + intros [[] ->]; simpl; by simplify_map_eq.
Qed.

(** "Compare All", for a valid ProcessSet and a quantum of at least 1: the
    loop returns a table with exactly the six names of [algorithm_options],
    each with the figures that [run_simulation] returns for that name. *)
Theorem compare_all_returns (ps : list Process) (quantum : Z) :
  valid_process_set ps → 1 ≤ quantum →
  ∃ results,
    returns (λ fuel, compare_all fuel ps quantum) results ∧
    (∀ pol, ∃ r,
       returns (λ fuel, run_simulation fuel ps (policy_name pol) quantum) r ∧
       results !! policy_name pol = Some (comparison_of r)) ∧
    (∀ name, is_Some (results !! name) ↔ name ∈ algorithm_options).
Proof.
  intros Hvalid Hq.
  assert (∀ pol, ∃ r,
            returns (λ fuel, run_simulation fuel ps (policy_name pol) quantum) r) as Hall.
  { intros pol.
    destruct (run_simulation_valid pol ps quantum Hvalid Hq)
      as (tl & m & sl & a & _ & _ & _ & _ & _ & _ & _ & Hsim).
    by eexists. }
  destruct (Hall FCFS) as [r1 [n1 H1]], (Hall SJN) as [r2 [n2 H2]],
    (Hall SJN_Preemptive) as [r3 [n3 H3]], (Hall RoundRobin) as [r4 [n4 H4]],
    (Hall PriorityNP) as [r5 [n5 H5]], (Hall PriorityPreemptive) as [r6 [n6 H6]].
  set (run := λ pol, match pol with
                     | FCFS => r1 | SJN => r2 | SJN_Preemptive => r3
                     | RoundRobin => r4 | PriorityNP => r5 | PriorityPreemptive => r6
                     end).
  set (n := Nat.max n1 (Nat.max n2 (Nat.max n3 (Nat.max n4 (Nat.max n5 n6))))).
  assert (∀ fuel, (n ≤ fuel)%nat →
            ∀ pol, run_simulation fuel ps (policy_name pol) quantum = Ok (run pol))
    as Hrun.
  { intros fuel Hf []; simpl;
      [apply H1|apply H2|apply H3|apply H4|apply H5|apply H6]; lia. }
  destruct (compare_all_Ok n ps quantum run (Hrun n (le_n n)))
    as (results & Hres & Hrows & Hkeys).
  exists results. split_and!; [| |done].
  - exists n. intros fuel Hf.
    destruct (compare_all_Ok fuel ps quantum run (Hrun fuel Hf))
      as (results' & Hres' & Hrows' & _).
    rewrite Hres'. f_equal. apply map_eq. intros name.
    destruct (decide (name ∈ algorithm_options)) as [Hin|Hout].
    + apply policy_name_options in Hin as [pol ->]. by rewrite Hrows, Hrows'.
    + destruct (results' !! name) eqn:E1.
      { exfalso. apply Hout.
        destruct (compare_all_Ok fuel ps quantum run (Hrun fuel Hf))
          as (results'' & Hres'' & _ & Hkeys'').
        rewrite Hres' in Hres''. injection Hres'' as <-. apply Hkeys''. by eexists. }
      destruct (results !! name) eqn:E2; [|done].
      exfalso. apply Hout, Hkeys. by eexists.
  - intros pol. exists (run pol). split; [|apply Hrows].
    exists n. intros fuel Hf. by apply Hrun.
Qed.

Lemma compare_all_returns_witness :
  ∃ results,
    returns (λ fuel, compare_all fuel reference_case 2) results ∧
    (∀ pol, ∃ r,
       returns (λ fuel, run_simulation fuel reference_case (policy_name pol) 2) r ∧
       results !! policy_name pol = Some (comparison_of r)) ∧
    (∀ name, is_Some (results !! name) ↔ name ∈ algorithm_options).
Proof.
  apply (compare_all_returns reference_case 2).
  - apply (bool_decide_unpack _). vm_compute. reflexivity.
  - lia.
Defined.

Lemma bind_Ok_inv {A B} (x : outcome A) (k : A → outcome B) b :
  bind x k = Ok b → ∃ a, x = Ok a ∧ k a = Ok b.
Proof. destruct x as [a| |]; simpl; [by exists a|done..]. Qed.

(** "Compare All" is all or nothing: when the loop returns a table, every one
    of the six algorithms has returned on the same input, and the table holds
    its figures; one failing algorithm leaves no table. *)
Theorem compare_all_needs_every_algorithm
    (fuel : nat) (ps : list Process) (quantum : Z) (results : gmap string Comparison) :
  compare_all fuel ps quantum = Ok results →
  ∀ pol, ∃ r,
    run_simulation fuel ps (policy_name pol) quantum = Ok r ∧
    results !! policy_name pol = Some (comparison_of r).
Proof.
  unfold compare_all, algorithm_options. cbn [foldl]. intros H.
  apply bind_Ok_inv in H as (res5 & H & H6).
  apply bind_Ok_inv in H as (res4 & H & H5).
  apply bind_Ok_inv in H as (res3 & H & H4).
  apply bind_Ok_inv in H as (res2 & H & H3).
  apply bind_Ok_inv in H as (res1 & H & H2).
  apply bind_Ok_inv in H as (res0 & H & H1). injection H as <-.
  apply bind_Ok_inv in H1 as (r1 & H1 & [= <-]).
  apply bind_Ok_inv in H2 as (r2 & H2 & [= <-]).
  apply bind_Ok_inv in H3 as (r3 & H3 & [= <-]).
  apply bind_Ok_inv in H4 as (r4 & H4 & [= <-]).
  apply bind_Ok_inv in H5 as (r5 & H5 & [= <-]).
  apply bind_Ok_inv in H6 as (r6 & H6 & [= <-]).
  intros []; simpl; eexists; (split; [eassumption|by simplify_map_eq]).
Qed.

Lemma compare_all_needs_every_algorithm_witness :
  let ps := [mkProcess "A" 0 2 1; mkProcess "B" 1 1 2] in
  ∃ results,
    compare_all 8 ps 2 = Ok results ∧
    ∀ pol, ∃ r,
      run_simulation 8 ps (policy_name pol) 2 = Ok r ∧
      results !! policy_name pol = Some (comparison_of r).
Proof.
  intros ps.
  assert (match compare_all 8 ps 2 with Ok _ => true | _ => false end = true) as Hok.
  { vm_compute. reflexivity. }
  destruct (compare_all 8 ps 2) as [results| |] eqn:Hrun; [|discriminate Hok..].
  exists results. split; [reflexivity|].
  apply (compare_all_needs_every_algorithm 8 ps 2 results). exact Hrun.
Defined.

(** ** The time slice of the preemptive policies *)

(** The time slice [min(1, remaining, max(1, next_arrival - current_time))]
    never depends on the pending arrivals: it is [min(1, remaining)], as
    [next_arrival] only ranges over arrivals after the current time. *)
Theorem time_slice_ignores_next_arrival
    (remaining : Z) (processes : list Job) (current_time : Z) :
  time_slice_of remaining (next_arrival processes current_time) current_time
  = Z.min 1 remaining.
Proof. apply time_slice_of_eq. Qed.

(** ** Arrivals behind the head of the list *)

Lemma sjn_head_step (a : Z) (p : Process) (s : SjnState) :
  arrival p = a →
  Forall (λ q, 0 ≤ burst q) (sjn_processes s ++ sjn_ready s) ∧
  Forall (λ x, a ≤ seg_start x) (sjn_schedule s) ∧
  (a ≤ sjn_time s ∨ ∃ rest, sjn_processes s = p :: rest ∧ sjn_ready s = []) →
  Forall (λ q, 0 ≤ burst q) (sjn_processes (sjn_body s) ++ sjn_ready (sjn_body s)) ∧
  Forall (λ x, a ≤ seg_start x) (sjn_schedule (sjn_body s)) ∧
  (a ≤ sjn_time (sjn_body s) ∨
   ∃ rest, sjn_processes (sjn_body s) = p :: rest ∧ sjn_ready (sjn_body s) = []).
Proof.
  destruct s as [P R t sch]. unfold sjn_body. simpl. intros Ha (Hb & Hsch & Hhead).
  destruct (take_arrived arrival t P R) as [P' R'] eqn:Hadm.
  apply take_arrived_spec in Hadm as (moved & -> & -> & Hmoved & Hhd).
  pose proof (sorted_by_perm (by_key burst) (R ++ moved)) as Hperm.
  rewrite !Forall_app in Hb. destruct Hb as ((Hbm & HbP) & HbR).
  destruct (sorted_by (by_key burst) (R ++ moved)) as [|q R''] eqn:Hsort; simpl.
  - symmetry in Hperm. apply Permutation_nil_r in Hperm.
    apply app_eq_nil in Hperm as [-> ->]. simpl in *.
    split_and!; [by rewrite app_nil_r|done|].
    destruct Hhead as [Hle|(rest & -> & _)]; [|left; lia].
    left. destruct P' as [|q P']; lia.
  - assert (Forall (λ q, 0 ≤ burst q) (q :: R'')) as Hq.
    { rewrite Hperm, Forall_app. done. }
    apply Forall_cons in Hq as [Hq HR''].
    assert (a ≤ t) as Hle.
    { destruct Hhead as [Hle|(rest & Heq & ->)]; [done|].
      destruct moved as [|m moved].
      - simpl in Hperm. symmetry in Hperm. by apply Permutation_nil_cons in Hperm.
      - injection Heq as -> _. apply Forall_cons in Hmoved as [Hm _]. lia. }
    split_and!.
    + rewrite Forall_app. done.
    + apply Forall_app. split; [done|]. by apply Forall_singleton.
    + left. lia.
Qed.

(** SJN dispatches nothing before the first listed process has arrived,
    whichever other processes have arrived earlier: every segment starts at
    or after the arrival of the head of the input list. *)
Theorem sjn_waits_for_first_listed
    (p : Process) (rest : list Process) (fuel : nat) (tl : Timeline) :
  Forall (λ q, 0 ≤ burst q) (p :: rest) →
  sjn_scheduling fuel (p :: rest) = Some tl →
  Forall (λ x, arrival p ≤ seg_start x) tl.
Proof.
  intros Hb. unfold sjn_scheduling.
  destruct (while _ _ fuel _) as [r|] eqn:Hrun; [|done]. intros [= <-].
  apply (while_invariant _ _
           (λ s, Forall (λ q, 0 ≤ burst q) (sjn_processes s ++ sjn_ready s) ∧
                 Forall (λ x, arrival p ≤ seg_start x) (sjn_schedule s) ∧
                 (arrival p ≤ sjn_time s ∨
                  ∃ rest, sjn_processes s = p :: rest ∧ sjn_ready s = [])))
    in Hrun as [(_ & Hsch & _) _]; [done| |].
  - intros s Hinv _. by apply sjn_head_step.
  - simpl. rewrite app_nil_r. split_and!; [done..|]. right. by exists rest.
Qed.

Lemma sjn_waits_for_first_listed_witness :
  Forall (λ x, arrival (mkProcess "A" 5 10 1) ≤ seg_start x)
    [mkSegment "B" 5 6; mkSegment "A" 6 16].
Proof.
  apply (sjn_waits_for_first_listed (mkProcess "A" 5 10 1) [mkProcess "B" 0 1 1] 4).
  - repeat constructor; simpl; lia.
  - reflexivity.
Defined.

Lemma preemptive_remaining_step key s :
  Forall (λ j, 0 ≤ job_remaining j) (jobs_of s) →
  Forall (λ j, 0 ≤ job_remaining j) (jobs_of (preemptive_body key s)).
Proof.
  destruct s as [P R A t sch]. unfold preemptive_body, jobs_of at 1. simpl.
  intros Hrem.
  destruct (take_arrived job_arrival t P R) as [P1 R1] eqn:Hadm.
  apply take_arrived_spec in Hadm as (moved & -> & -> & Hmoved & Hhd).
  destruct (select_active key A (R ++ moved)) as [A1 R2] eqn:Hsel.
  rewrite !Forall_app in Hrem. destruct Hrem as ((Hm & HP1) & HR & HA).
  apply select_active_spec in Hsel as [(-> & -> & Hnil & ->)|(j & -> & Hsel)].
  - unfold jobs_of. simpl. apply app_eq_nil in Hnil as [-> ->].
    rewrite app_nil_r. done.
  - assert (Forall (λ j, 0 ≤ job_remaining j) (j :: R2)) as Hjr.
    { rewrite Hsel, !Forall_app. done. }
    apply Forall_cons in Hjr as [Hj HR2].
    apply run_slice_Forall; [done..|]. simpl. intros _. lia.
Qed.

Lemma preemptive_body_time key s :
  Forall (λ j, 0 ≤ job_remaining j) (jobs_of s) →
  pre_time s ≤ pre_time (preemptive_body key s).
Proof.
  destruct s as [P R A t sch]. unfold preemptive_body, jobs_of. simpl.
  intros Hrem.
  destruct (take_arrived job_arrival t P R) as [P1 R1] eqn:Hadm.
  apply take_arrived_spec in Hadm as (moved & -> & -> & Hmoved & Hhd).
  destruct (select_active key A (R ++ moved)) as [A1 R2] eqn:Hsel.
  rewrite !Forall_app in Hrem. destruct Hrem as ((Hm & HP1) & HR & HA).
  apply select_active_spec in Hsel as [(-> & -> & Hnil & ->)|(j & -> & Hsel)].
  - simpl. lia.
  - assert (Forall (λ j, 0 ≤ job_remaining j) (j :: R2)) as Hjr.
    { rewrite Hsel, !Forall_app. done. }
    apply Forall_cons in Hjr as [Hj _].
    destruct (run_slice_spec key j P1 R2 t sch) as (new & P2 & R3 & A' & -> & _).
    simpl. lia.
Qed.

(** While the head of the pending list has not arrived and nothing is ready
    or active, an iteration only moves the clock by one, whatever the other
    pending processes are. *)
Lemma preemptive_body_head_waits key j0 rest t sch :
  t < job_arrival j0 →
  preemptive_body key (mkPre (j0 :: rest) [] None t sch)
  = mkPre (j0 :: rest) [] None (t + 1) sch.
Proof.
  intros Hlt. unfold preemptive_body. simpl.
  destruct (Z.leb_spec (job_arrival j0) t); [lia|]. done.
Qed.

Lemma preemptive_head_run key (p : Process) (rest : list Process) fuel tl :
  Forall (λ q, 0 ≤ burst q) (p :: rest) →
  preemptive_scheduling key fuel (p :: rest) = Ok tl →
  Forall (λ x, arrival p ≤ seg_start x) tl.
Proof.
  intros Hb. unfold preemptive_scheduling.
  destruct (min_list _) as [t0|]; [|done].
  destruct (while _ _ fuel _) as [r|] eqn:Hrun; [|done]. intros [= <-].
  apply (while_invariant _ _
           (λ s, Forall (λ j, 0 ≤ job_remaining j) (jobs_of s) ∧
                 Forall (λ x, arrival p ≤ seg_start x) (pre_schedule s) ∧
                 (arrival p ≤ pre_time s ∨
                  ∃ rest', s = mkPre (to_job p :: rest') [] None (pre_time s)
                                 (pre_schedule s))))
    in Hrun as [(_ & Hsch & _) _]; [done| |].
  - intros s (Hrem & Hsch & Hhead) _.
    destruct (decide (arrival p ≤ pre_time s)) as [Hle|Hlt].
    + split_and!.
      * by apply preemptive_remaining_step.
      * destruct (preemptive_body_schedule key s) as [->|(j & Hj & ->)]; [done|].
        apply Forall_app. split; [done|]. by apply Forall_singleton.
      * left. pose proof (preemptive_body_time key s Hrem). lia.
    + destruct Hhead as [?|[rest' Hs]]; [done|]. rewrite Hs.
      rewrite preemptive_body_head_waits by (simpl; lia). simpl.
      split_and!.
      * by rewrite Hs in Hrem.
      * done.
      * right. by exists rest'.
  - split_and!; [|done|right; by exists (to_job <$> rest)].
    unfold jobs_of. cbn [pre_processes pre_ready pre_active option_list].
    rewrite app_nil_r. apply Forall_fmap. eapply Forall_impl; [exact Hb|]. done.
Qed.

(** The two preemptive policies dispatch nothing before the first listed
    process has arrived: while it has not, each iteration only moves the clock
    by one, although other processes have arrived. *)
Theorem preemptive_waits_for_first_listed
    (p : Process) (rest : list Process) (fuel : nat) (tl : Timeline) :
  Forall (λ q, 0 ≤ burst q) (p :: rest) →
  sjn_preemptive_scheduling fuel (p :: rest) = Ok tl ∨
  priority_preemptive_scheduling fuel (p :: rest) = Ok tl →
  Forall (λ x, arrival p ≤ seg_start x) tl.
Proof.
  intros Hb [Hrun|Hrun]; by eapply preemptive_head_run.
Qed.

Lemma preemptive_waits_for_first_listed_witness :
  Forall (λ x, arrival (mkProcess "A" 2 1 1) ≤ seg_start x)
    [mkSegment "A" 2 3; mkSegment "B" 3 4].
Proof.
  apply (preemptive_waits_for_first_listed
           (mkProcess "A" 2 1 1) [mkProcess "B" 0 1 1] 5).
  - repeat constructor; simpl; lia.
  - left. vm_compute. reflexivity.
Defined.
